(** * GATNE data preparation and evaluation utilities (src/utils.py)

    A shallow embedding of the functions of [utils.py] that build the
    adjacency structure, the vocabulary, the training pairs, the neighbor
    table, the persisted walk corpus and the rank-matched evaluation
    threshold, together with the properties proved about them.

    Conventions of the embedding:
    - a Python [str] is a [string]; a character is a code point below 256;
    - a [dict] whose iteration order is not observed is a [gmap]; the
      counter of [generate_vocab], whose insertion order is observed, is an
      association list;
    - a [list] indexed by position is a [list] read with [!!], and the
      [IndexError], [KeyError] and [ValueError] Python raises are values of
      [exn] carried by [result];
    - the pseudo-random source behind [np.random.choice] is an explicit
      state threaded through [generate_neighbors];
    - the scores of [evaluate] are floats: an abstract type with its [<=],
      in which NaN is a score that does not compare with itself; the
      built-in [list.sort] is a parameter of [evaluate], and what is known
      of it is stated by [python_sort]. *)

From Stdlib Require Import ZArith List Ascii String Lia.
From Stdlib Require Import Sorting.Permutation Sorting.Sorted.
From Stdlib Require Import Decimal DecimalNat DecimalString.
From stdpp Require Import gmap strings list fin_maps sorting.

Local Open Scope string_scope.
Local Open Scope nat_scope.
Local Open Scope list_scope.

(** ** Exceptions *)

Inductive exn : Type :=
| IndexError
| KeyError
| ValueError.

Inductive result (A : Type) : Type :=
| Ok (a : A)
| Raise (e : exn).

Arguments Ok {A} a.
Arguments Raise {A} e.

#[global] Instance result_ret : MRet result := fun A a => Ok a.

#[global] Instance result_bind : MBind result := fun A B k m =>
  match m with
  | Ok a => k a
  | Raise e => Raise e
  end.

(** [try: ... except Exception: pass] around an expression: the value when
    there is one, Python's [None] otherwise. *)
Definition try_except_pass {A : Type} (m : result A) : option A :=
  match m with
  | Ok a => Some a
  | Raise _ => None
  end.

(** [d[k]] on a plain dict. *)
Definition dict_get {V : Type} (d : gmap string V) (k : string) : result V :=
  match d !! k with
  | Some v => Ok v
  | None => Raise KeyError
  end.

(** [l[i]] for an index that is a position counted from the front. *)
Definition list_get {A : Type} (l : list A) (i : nat) : result A :=
  match l !! i with
  | Some a => Ok a
  | None => Raise IndexError
  end.

(** The position an integer index [k] designates in [l]: a negative index
    counts from the end, and an index outside of [-len, len) is an
    [IndexError]. *)
Definition py_position {A : Type} (l : list A) (k : Z) : result nat :=
  let n := Z.of_nat (length l) in
  let k' := if (k <? 0)%Z then (k + n)%Z else k in
  if ((k' <? 0) || (n <=? k'))%Z then Raise IndexError else Ok (Z.to_nat k').

(** [l[k]] on a list, with Python's negative indices. *)
Definition py_index {A : Type} (l : list A) (k : Z) : result A :=
  i ← py_position l k; list_get l i.

(** [for x in xs: body], the loop state threaded through the iterations;
    an exception raised by an iteration ends the loop. *)
Fixpoint for_each {A S : Type} (xs : list A) (body : A -> S -> result S) (s : S)
  : result S :=
  match xs with
  | [] => Ok s
  | x :: xs' => s' ← body x s; for_each xs' body s'
  end.

(** [enumerate(xs)]. *)
Definition enumerate {A : Type} (xs : list A) : list (nat * A) :=
  zip (seq 0 (length xs)) xs.

(** [range(a, b)] over the integers. *)
Definition py_range (a b : Z) : list Z :=
  map (fun k => (a + Z.of_nat k)%Z) (seq 0 (Z.to_nat (b - a))).

(** [str(x)] of a value that is already a [str]. *)
Definition py_str (s : string) : string := s.

(** ** get_G_from_edges *)

(** [edge_dict[u].add(v)] on a [defaultdict(set)]. *)
Definition add_neighbor (u v : string) (d : gmap string (gset string))
  : gmap string (gset string) :=
  <[u := default ∅ (d !! u) ∪ {[v]}]> d.

Definition add_edge (d : gmap string (gset string)) (edge : string * string)
  : gmap string (gset string) :=
  let u := py_str (fst edge) in
  let v := py_str (snd edge) in
  add_neighbor v u (add_neighbor u v d).

Definition get_G_from_edges (edges : list (string * string))
  : gmap string (gset string) :=
  fold_left add_edge edges ∅.

(** [adjacency[u]] read on the returned [defaultdict]: the empty set for a
    node that was never seen. *)
Definition adjacency (d : gmap string (gset string)) (u : string) : gset string :=
  default ∅ (d !! u).

(** ** generate_vocab *)

Record Vocab : Type := mkVocab { count : nat; index : nat }.

(** [raw_vocab[word] += 1] on a [defaultdict(int)]; the association list
    keeps the keys in the order of their first insertion, which is the order
    [iteritems] visits them in. *)
Fixpoint counter_incr (word : string) (d : list (string * nat)) : list (string * nat) :=
  match d with
  | [] => [(word, 0 + 1)]
  | (k, v) :: d' =>
      if decide (k = word) then (k, v + 1) :: d'
      else (k, v) :: counter_incr word d'
  end.

Definition count_walk (raw_vocab : list (string * nat)) (walk : list string)
  : list (string * nat) :=
  fold_left (fun d word => counter_incr word d) walk raw_vocab.

Definition count_walks (raw_vocab : list (string * nat)) (walks : list (list string))
  : list (string * nat) :=
  fold_left count_walk walks raw_vocab.

Definition count_all (all_walks : list (list (list string))) : list (string * nat) :=
  fold_left count_walks all_walks [].

(** The loop over [iteritems(raw_vocab)]. *)
Definition first_indices (raw_vocab : list (string * nat))
  : gmap string Vocab * list string :=
  fold_left
    (fun '(vocab, index2word) '(word, v) =>
       (<[word := mkVocab v (length index2word)]> vocab, index2word ++ [word]))
    raw_vocab (∅, []).

(** [list.sort(key=..., reverse=True)]: the keys are computed once, the sort
    is stable, and [reverse=True] keeps elements with equal keys in their
    original order. *)
Fixpoint insert_desc {A : Type} (x : nat * A) (l : list (nat * A)) : list (nat * A) :=
  match l with
  | [] => [x]
  | y :: l' => if fst y <=? fst x then x :: y :: l' else y :: insert_desc x l'
  end.

Definition sort_desc {A : Type} (l : list (nat * A)) : list (nat * A) :=
  foldr insert_desc [] l.

Definition sort_by_count (vocab : gmap string Vocab) (index2word : list string)
  : result (list string) :=
  keyed ← mapM (fun word => v ← dict_get vocab word; Ok (count v, word)) index2word;
  Ok (map snd (sort_desc keyed)).

(** [vocab[word].index = i]. *)
Definition set_index (iw : nat * string) (vocab : gmap string Vocab)
  : result (gmap string Vocab) :=
  v ← dict_get vocab (snd iw);
  Ok (<[snd iw := mkVocab (count v) (fst iw)]> vocab).

Definition generate_vocab (all_walks : list (list (list string)))
  : result (gmap string Vocab * list string) :=
  let raw_vocab := count_all all_walks in
  let '(vocab, index2word) := first_indices raw_vocab in
  index2word ← sort_by_count vocab index2word;
  vocab ← for_each (enumerate index2word) set_index vocab;
  Ok (vocab, index2word).

(** ** generate_pairs *)

(** [vocab[word].index]. *)
Definition vocab_index (vocab : gmap string Vocab) (word : string) : result nat :=
  v ← dict_get vocab word; Ok (index v).

Definition pairs_at (vocab : gmap string Vocab) (layer_id : nat) (walk : list string)
    (i j : Z) (pairs : list (nat * nat * nat)) : result (list (nat * nat * nat)) :=
  pairs ←
    (if (i - j >=? 0)%Z then
       w ← py_index walk i; c ← vocab_index vocab w;
       w' ← py_index walk (i - j); c' ← vocab_index vocab w';
       Ok (pairs ++ [(c, c', layer_id)])
     else Ok pairs);
  if (i + j <? Z.of_nat (length walk))%Z then
    w ← py_index walk i; c ← vocab_index vocab w;
    w' ← py_index walk (i + j); c' ← vocab_index vocab w';
    Ok (pairs ++ [(c, c', layer_id)])
  else Ok pairs.

Definition pairs_of_walk (vocab : gmap string Vocab) (skip_window : Z) (layer_id : nat)
    (walk : list string) (pairs : list (nat * nat * nat))
  : result (list (nat * nat * nat)) :=
  for_each (py_range 0 (Z.of_nat (length walk)))
    (fun i => for_each (py_range 1 (skip_window + 1)) (pairs_at vocab layer_id walk i))
    pairs.

Definition generate_pairs (all_walks : list (list (list string)))
    (vocab : gmap string Vocab) (window_size num_workers : Z)
  : result (list (nat * nat * nat)) :=
  let skip_window := (window_size / 2)%Z in
  for_each (enumerate all_walks)
    (fun '(layer_id, walks) => for_each walks (pairs_of_walk vocab skip_window layer_id))
    [].

(** ** load_walks and save_walks *)

Definition newline : string := String "010"%char "".

(** [str.isspace] on a code point below 256. *)
Definition py_isspace (c : ascii) : bool :=
  let n := nat_of_ascii c in
  ((9 <=? n) && (n <=? 13)) || ((28 <=? n) && (n <=? 32)) || (n =? 133) || (n =? 160).

Fixpoint py_lstrip (s : string) : string :=
  match s with
  | "" => ""
  | String c s' => if py_isspace c then py_lstrip s' else s
  end.

Fixpoint py_rstrip (s : string) : string :=
  match s with
  | "" => ""
  | String c s' =>
      match py_rstrip s' with
      | "" => if py_isspace c then "" else String c ""
      | r => String c r
      end
  end.

(** [s.strip()]. *)
Definition py_strip (s : string) : string := py_rstrip (py_lstrip s).

(** [s.split()]: the maximal runs of characters that are not white space. *)
Fixpoint py_split (s : string) : list string :=
  match s with
  | "" => []
  | String c s' =>
      if py_isspace c then py_split s'
      else match s' with
           | "" => [String c ""]
           | String c' _ =>
               if py_isspace c' then String c "" :: py_split s'
               else match py_split s' with
                    | t :: ts => String c t :: ts
                    | [] => [String c ""]
                    end
           end
  end.

(** [sep.join(l)]. *)
Fixpoint py_join (sep : string) (l : list string) : string :=
  match l with
  | [] => ""
  | x :: l' =>
      match l' with
      | [] => x
      | _ => x +:+ sep +:+ py_join sep l'
      end
  end.

(** [str(n)] of a non-negative [int]. *)
Definition str_of_nat (n : nat) : string := NilEmpty.string_of_uint (Nat.to_uint n).

Definition digit_of (c : ascii) : option Z :=
  let n := nat_of_ascii c in
  if (48 <=? n) && (n <=? 57) then Some (Z.of_nat (n - 48)) else None.

(** The digits of an integer literal: at least one digit, single underscores
    allowed between two digits. *)
Fixpoint int_digits (acc : Z) (after_digit : bool) (s : string) : option Z :=
  match s with
  | "" => if after_digit then Some acc else None
  | String c s' =>
      match digit_of c with
      | Some d => int_digits (10 * acc + d)%Z true s'
      | None =>
          if Ascii.eqb c "_"%char && after_digit then int_digits acc false s'
          else None
      end
  end.

(** The white space [int()] skips around a number. It is not that of
    [str.strip]: the parser skips the white space of C (code points 9 to 13
    and 32), and a character above 127 reaches it as a space when it is
    white space (133 and 160); the separators 28 to 31 are not skipped. *)
Definition int_isspace (c : ascii) : bool :=
  let n := nat_of_ascii c in
  ((9 <=? n) && (n <=? 13)) || (n =? 32) || (n =? 133) || (n =? 160).

Fixpoint int_lstrip (s : string) : string :=
  match s with
  | "" => ""
  | String c s' => if int_isspace c then int_lstrip s' else s
  end.

Fixpoint int_rstrip (s : string) : string :=
  match s with
  | "" => ""
  | String c s' =>
      match int_rstrip s' with
      | "" => if int_isspace c then "" else String c ""
      | r => String c r
      end
  end.

(** [int(s)] of a [str]: surrounding white space, an optional sign, digits;
    anything else is a [ValueError]. The limit some interpreters put on the
    number of digits (4300 by default from Python 3.11 on) is not part of
    it. *)
Definition py_int (s : string) : result Z :=
  let s := int_rstrip (int_lstrip s) in
  let '(negative, digits) :=
    match s with
    | String "-"%char r => (true, r)
    | String "+"%char r => (false, r)
    | _ => (false, s)
    end in
  match int_digits 0 false digits with
  | Some n => Ok (if negative then (- n)%Z else n)
  | None => Raise ValueError
  end.

(** The lines a file opened in text mode yields: a line ends after a line
    feed, a carriage return or a carriage return followed by a line feed,
    each read as one line feed; the last line may have no end. *)
Fixpoint py_lines (s : string) : list string :=
  match s with
  | "" => []
  | String c s' =>
      if Ascii.eqb c "010"%char then newline :: py_lines s'
      else if Ascii.eqb c "013"%char then
        match s' with
        | String c' s'' =>
            if Ascii.eqb c' "010"%char then newline :: py_lines s''
            else newline :: py_lines s'
        | "" => [newline]
        end
      else match py_lines s' with
           | [] => [String c ""]
           | l :: ls => String c l :: ls
           end
  end.

(** One iteration of the loop of [load_walks]. *)
Definition load_line (line : string) (all_walks : list (list (list string)))
  : result (list (list (list string))) :=
  let content := py_split (py_strip line) in
  first ← py_index content 0;
  layer_id ← py_int first;
  let all_walks :=
    if (layer_id >=? Z.of_nat (length all_walks))%Z then all_walks ++ [[]]
    else all_walks in
  pos ← py_position all_walks layer_id;
  layer ← list_get all_walks pos;
  Ok (<[pos := layer ++ [drop 1 content]]> all_walks).

(** [load_walks], on the content of the file. *)
Definition load_walks (walk_file : string) : result (list (list (list string))) :=
  for_each (py_lines walk_file) load_line [].

Definition walk_line (layer_id : nat) (walk : list string) : string :=
  py_join " " (str_of_nat layer_id :: map py_str walk) +:+ newline.

(** [save_walks]: the content of the file once it is closed. *)
Definition save_walks (all_walks : list (list (list string))) : string :=
  fold_left
    (fun f '(layer_id, walks) =>
       fold_left (fun f walk => f +:+ walk_line layer_id walk) walks f)
    (enumerate all_walks) "".

(** ** generate_neighbors *)

(** [neighbors[i][r].append(v)]. *)
Definition append_at (neighbors : list (list (list nat))) (i r v : nat)
  : result (list (list (list nat))) :=
  row ← list_get neighbors i;
  cell ← list_get row r;
  Ok (<[i := <[r := cell ++ [v]]> row]> neighbors).

(** The body of the loop over the raw edges of one edge type. *)
Definition add_raw_edge (vocab : gmap string Vocab) (r : nat) (edge : string * string)
    (neighbors : list (list (list nat))) : result (list (list (list nat))) :=
  ix ← vocab_index vocab (fst edge);
  iy ← vocab_index vocab (snd edge);
  neighbors ← append_at neighbors ix r iy;
  append_at neighbors iy r ix.

Section NeighborSampler.

(** The state of numpy's global generator and one raw draw from it. *)
Variable rng : Type.
Variable next : rng -> nat * rng.

(** [list(np.random.choice(a, size=size))]: [size] positions of [a] drawn
    with replacement; an empty [a] is a [ValueError] unless nothing is
    drawn. *)
Fixpoint random_choice (a : list nat) (size : nat) (st : rng)
  : result (list nat * rng) :=
  match size with
  | 0 => Ok ([], st)
  | S size' =>
      match a with
      | [] => Raise ValueError
      | _ :: _ =>
          let '(raw, st) := next st in
          x ← list_get a (raw mod length a);
          '(xs, st) ← random_choice a size' st;
          Ok (x :: xs, st)
      end
  end.

(** The three-way reconciliation of [neighbors[i][r]]. *)
Definition reconcile (r neighbor_samples i : nat)
    (s : list (list (list nat)) * rng) : result (list (list (list nat)) * rng) :=
  let '(neighbors, st) := s in
  row ← list_get neighbors i;
  cell ← list_get row r;
  if length cell =? 0 then
    Ok (<[i := <[r := replicate neighbor_samples i]> row]> neighbors, st)
  else if length cell <? neighbor_samples then
    '(extra, st) ← random_choice cell (neighbor_samples - length cell) st;
    Ok (<[i := <[r := cell ++ extra]> row]> neighbors, st)
  else if neighbor_samples <? length cell then
    '(sample, st) ← random_choice cell neighbor_samples st;
    Ok (<[i := <[r := sample]> row]> neighbors, st)
  else Ok (neighbors, st).

(** One iteration of the loop over the edge types. *)
Definition neighbors_of_type (network_data : gmap string (list (string * string)))
    (vocab : gmap string Vocab) (num_nodes : nat) (edge_types : list string)
    (neighbor_samples r : nat) (s : list (list (list nat)) * rng)
  : result (list (list (list nat)) * rng) :=
  let '(neighbors, st) := s in
  edge_type ← list_get edge_types r;
  g ← dict_get network_data edge_type;
  neighbors ← for_each g (add_raw_edge vocab r) neighbors;
  for_each (seq 0 num_nodes) (reconcile r neighbor_samples) (neighbors, st).

Definition generate_neighbors (network_data : gmap string (list (string * string)))
    (vocab : gmap string Vocab) (num_nodes : nat) (edge_types : list string)
    (neighbor_samples : nat) (st : rng) : result (list (list (list nat)) * rng) :=
  let edge_type_count := length edge_types in
  let neighbors := replicate num_nodes (replicate edge_type_count []) in
  for_each (seq 0 edge_type_count)
    (neighbors_of_type network_data vocab num_nodes edge_types neighbor_samples)
    (neighbors, st).

End NeighborSampler.

(** ** get_score and evaluate *)

Section Evaluator.

(** The vectors of the embedding lookup and the scores computed from
    them; [cosine v1 v2] is
    [np.dot(v1, v2) / (np.linalg.norm(v1) * np.linalg.norm(v2))], which
    may raise, and [score_leb] is [<=] on scores. The scores are floats:
    a vector of norm 0 gives the score NaN without raising, and NaN
    compares false with every score. *)
Variable vector : Type.
Variable score : Type.
Variable cosine : vector -> vector -> result score.
Variable score_leb : score -> score -> bool.

(** [list.sort()] on a list of scores, a built-in of the interpreter. *)
Variable list_sort : list score -> list score.

(** The value of the three metrics of scikit-learn and their computation
    from [y_true], [y_scores] and [y_pred]. *)
Variable metrics : Type.
Variable sklearn_metrics : list nat -> list score -> list nat -> result metrics.

Definition get_score (local_model : gmap string vector) (node1 node2 : string)
  : option score :=
  try_except_pass
    (vector1 ← dict_get local_model node1;
     vector2 ← dict_get local_model node2;
     cosine vector1 vector2).

(** The lists and the counter the two loops over the edges fill. *)
Record recorded : Type := mkRecorded {
  true_list : list nat;
  prediction_list : list score;
  true_num : nat
}.

Definition record_true (model : gmap string vector) (s : recorded)
    (edge : string * string) : recorded :=
  match get_score model (py_str (fst edge)) (py_str (snd edge)) with
  | Some tmp_score =>
      mkRecorded (true_list s ++ [1]) (prediction_list s ++ [tmp_score])
                 (true_num s + 1)
  | None => s
  end.

Definition record_false (model : gmap string vector) (s : recorded)
    (edge : string * string) : recorded :=
  match get_score model (py_str (fst edge)) (py_str (snd edge)) with
  | Some tmp_score =>
      mkRecorded (true_list s ++ [0]) (prediction_list s ++ [tmp_score])
                 (true_num s)
  | None => s
  end.

Definition record_edges (model : gmap string vector)
    (true_edges false_edges : list (string * string)) : recorded :=
  fold_left (record_false model) false_edges
    (fold_left (record_true model) true_edges (mkRecorded [] [] 0)).

(** The local variables of [evaluate] when the metrics are computed. *)
Record thresholded : Type := mkThresholded {
  y_true : list nat;
  y_scores : list score;
  threshold : score;
  y_pred : list nat
}.

Definition predict (threshold : score) (s : score) : nat :=
  if score_leb threshold s then 1 else 0.

Definition evaluate_locals (model : gmap string vector)
    (true_edges false_edges : list (string * string)) : result thresholded :=
  let s := record_edges model true_edges false_edges in
  let sorted_pred := list_sort (prediction_list s) in
  threshold ← py_index sorted_pred (- Z.of_nat (true_num s));
  Ok (mkThresholded (true_list s) (prediction_list s) threshold
        (map (predict threshold) (prediction_list s))).

Definition evaluate (model : gmap string vector)
    (true_edges false_edges : list (string * string)) : result metrics :=
  s ← evaluate_locals model true_edges false_edges;
  sklearn_metrics (y_true s) (y_scores s) (y_pred s).

End Evaluator.

Arguments get_score {vector score} cosine local_model node1 node2.
Arguments mkRecorded {score} true_list prediction_list true_num.
Arguments true_list {score} r.
Arguments prediction_list {score} r.
Arguments true_num {score} r.
Arguments record_true {vector score} cosine model s edge.
Arguments record_false {vector score} cosine model s edge.
Arguments record_edges {vector score} cosine model true_edges false_edges.
Arguments mkThresholded {score} y_true y_scores threshold y_pred.
Arguments y_true {score} t.
Arguments y_scores {score} t.
Arguments threshold {score} t.
Arguments y_pred {score} t.
Arguments predict {score} score_leb threshold s.
Arguments evaluate_locals {vector score} cosine score_leb list_sort
  model true_edges false_edges.
Arguments evaluate {vector score} cosine score_leb list_sort {metrics} sklearn_metrics
  model true_edges false_edges.

(** ** load_training_data, load_testing_data and load_node_type *)

(** [s[:-1]]. *)
Fixpoint py_drop_last (s : string) : string :=
  match s with
  | "" => ""
  | String c s' =>
      match s' with
      | "" => ""
      | String _ _ => String c (py_drop_last s')
      end
  end.

(** [s.split(sep)] for a separator of one character: the fields between
    the occurrences of [sep], empty fields included. *)
Fixpoint py_split_on (sep : ascii) (s : string) : list string :=
  match s with
  | "" => [""]
  | String c s' =>
      if Ascii.eqb c sep then "" :: py_split_on sep s'
      else match py_split_on sep s' with
           | t :: ts => String c t :: ts
           | [] => [String c ""]
           end
  end.

(** A [dict] whose keys are iterated over: the bindings in the order of
    the first insertion of their keys. *)
Fixpoint odict_mem {V : Type} (k : string) (d : list (string * V)) : bool :=
  match d with
  | [] => false
  | (k', _) :: d' => if decide (k' = k) then true else odict_mem k d'
  end.

Fixpoint odict_get {V : Type} (d : list (string * V)) (k : string) : result V :=
  match d with
  | [] => Raise KeyError
  | (k', v) :: d' => if decide (k' = k) then Ok v else odict_get d' k
  end.

(** [d[k] = v]: the value of an existing key is replaced in place, a new
    key goes last. *)
Fixpoint odict_set {V : Type} (k : string) (v : V) (d : list (string * V))
  : list (string * V) :=
  match d with
  | [] => [(k, v)]
  | (k', v') :: d' =>
      if decide (k' = k) then (k', v) :: d' else (k', v') :: odict_set k v d'
  end.

(** [if k not in d: d[k] = list()] followed, once the edge is known, by
    [d[k].append(edge)]. *)
Definition odict_ensure {V : Type} (k : string) (d : list (string * list V))
  : list (string * list V) :=
  if odict_mem k d then d else odict_set k [] d.

Definition odict_append {V : Type} (k : string) (v : V) (d : list (string * list V))
  : result (list (string * list V)) :=
  l ← odict_get d k; Ok (odict_set k (l ++ [v]) d).

(** One iteration of the loop of [load_training_data]. *)
Definition training_line (line : string)
    (edge_data_by_type : list (string * list (string * string)))
  : result (list (string * list (string * string))) :=
  let words := py_split_on " " (py_drop_last line) in
  edge_type ← py_index words 0;
  let edge_data_by_type := odict_ensure edge_type edge_data_by_type in
  x ← py_index words 1;
  y ← py_index words 2;
  odict_append edge_type (x, y) edge_data_by_type.

(** [load_training_data], on the content of the file. *)
Definition load_training_data (f : string)
  : result (list (string * list (string * string))) :=
  for_each (py_lines f) training_line [].

(** One iteration of the loop of [load_testing_data]. *)
Definition testing_line (line : string)
    (s : list (string * list (string * string))
         * list (string * list (string * string)))
  : result (list (string * list (string * string))
            * list (string * list (string * string))) :=
  let '(true_edge_data_by_type, false_edge_data_by_type) := s in
  let words := py_split_on " " (py_drop_last line) in
  x ← py_index words 1;
  y ← py_index words 2;
  label_field ← py_index words 3;
  label ← py_int label_field;
  edge_type ← py_index words 0;
  if (label =? 1)%Z then
    d ← odict_append edge_type (x, y) (odict_ensure edge_type true_edge_data_by_type);
    Ok (d, false_edge_data_by_type)
  else
    d ← odict_append edge_type (x, y) (odict_ensure edge_type false_edge_data_by_type);
    Ok (true_edge_data_by_type, d).

(** [load_testing_data], on the content of the file. *)
Definition load_testing_data (f : string)
  : result (list (string * list (string * string))
            * list (string * list (string * string))) :=
  for_each (py_lines f) testing_line ([], []).

(** One iteration of the loop of [load_node_type]; the right-hand side of
    the assignment is evaluated first. *)
Definition node_type_line (line : string) (node_type : gmap string string)
  : result (gmap string string) :=
  let items := py_split (py_strip line) in
  v ← py_index items 1;
  k ← py_index items 0;
  Ok (<[k := v]> node_type).

(** [load_node_type], on the content of the file. *)
Definition load_node_type (f : string) : result (gmap string string) :=
  for_each (py_lines f) node_type_line ∅.

(** ** generate_walks and generate *)

Section WalkCorpus.

(** The walker of [walk.py], which is not part of this file:
    [simulate_walks G node_type num_workers num_walks walk_length schema]
    stands for [RWGraph(G, node_type, num_workers).simulate_walks(num_walks,
    walk_length, schema=schema)], run on the state of the random generator.
    [read_file path] is the content of the file a path names, or the
    exception [open] raises. *)
Variable walker_state : Type.
Variable simulate_walks :
  gmap string (gset string) -> option (gmap string string) -> Z -> Z -> Z ->
  option string -> walker_state -> result (list (list string) * walker_state).
Variable read_file : string -> result string.

(** One iteration of the loop over the layers. *)
Definition walk_layer (network_data : list (string * list (string * string)))
    (node_type : option (gmap string string)) (num_walks walk_length : Z)
    (schema : option string) (num_workers : Z) (layer : nat * string)
    (s : list (list (list string)) * walker_state)
  : result (list (list (list string)) * walker_state) :=
  let '(all_walks, st) := s in
  tmp_data ← odict_get network_data (snd layer);
  '(layer_walks, st) ←
    simulate_walks (get_G_from_edges tmp_data) node_type num_workers
      num_walks walk_length schema st;
  Ok (all_walks ++ [layer_walks], st).

Definition generate_walks (network_data : list (string * list (string * string)))
    (num_walks walk_length : Z) (schema : option string) (file_name : string)
    (num_workers : Z) (st : walker_state)
  : result (list (list (list string)) * walker_state) :=
  node_type ←
    match schema with
    | Some _ =>
        content ← read_file (file_name +:+ "/node_type.txt");
        node_type ← load_node_type content;
        Ok (Some node_type)
    | None => Ok None
    end;
  for_each (enumerate (map fst network_data))
    (walk_layer network_data node_type num_walks walk_length schema num_workers)
    ([], st).

(** [generate]; the result carries, besides the returned triple, the files
    written (path and content) and the state of the random generator. *)
Definition generate (network_data : list (string * list (string * string)))
    (num_walks walk_length : Z) (schema : option string) (file_name : string)
    (window_size num_workers : Z) (walk_file : option string) (st : walker_state)
  : result (gmap string Vocab * list string * list (nat * nat * nat)
            * list (string * string) * walker_state) :=
  '(all_walks, written, st) ←
    match walk_file with
    | Some path =>
        content ← read_file path;
        all_walks ← load_walks content;
        Ok (all_walks, [], st)
    | None =>
        '(all_walks, st) ←
          generate_walks network_data num_walks walk_length schema file_name
            num_workers st;
        Ok (all_walks, [(file_name +:+ "/walks.txt", save_walks all_walks)], st)
    end;
  '(vocab, index2word) ← generate_vocab all_walks;
  train_pairs ← generate_pairs all_walks vocab window_size num_workers;
  Ok (vocab, index2word, train_pairs, written, st).

End WalkCorpus.

(** ** Notions the properties are stated with *)

(** [a < b] on scores. *)
Definition score_lt {score : Type} (score_leb : score -> score -> bool)
    (a b : score) : bool :=
  score_leb a b && negb (score_leb b a).

(** What [<=] obeys on floats: it is transitive, and any two floats that
    are not NaN compare one way or the other. A float is not NaN exactly
    when it compares with itself. *)
Definition float_order {score : Type} (score_leb : score -> score -> bool) : Prop :=
  (forall a b c,
     score_leb a b = true -> score_leb b c = true -> score_leb a c = true) /\
  (forall a b,
     score_leb a a = true -> score_leb b b = true ->
     score_leb a b = true \/ score_leb b a = true).

(** No score of the list is NaN. *)
Definition no_nan {score : Type} (score_leb : score -> score -> bool)
    (l : list score) : Prop :=
  forall x, In x l -> score_leb x x = true.

(** The ascending arrangement of a list that keeps the scores that compare
    equal in the order they had: every score goes before the first score
    that is not below it. *)
Fixpoint stable_insert {score : Type} (score_leb : score -> score -> bool)
    (x : score) (l : list score) : list score :=
  match l with
  | [] => [x]
  | y :: l' =>
      if score_leb x y then x :: y :: l' else y :: stable_insert score_leb x l'
  end.

Definition stable_ascending {score : Type} (score_leb : score -> score -> bool)
    (l : list score) : list score :=
  foldr (stable_insert score_leb) [] l.

(** No score of the list is below the score before it. *)
Fixpoint no_descent {score : Type} (score_leb : score -> score -> bool)
    (l : list score) : bool :=
  match l with
  | [] => true
  | x :: l' =>
      match l' with
      | [] => true
      | y :: _ => negb (score_lt score_leb y x) && no_descent score_leb l'
      end
  end.

(** What [list.sort] does with a list of floats. The result is always a
    rearrangement of the list. A list in which no score is below the score
    before it is one ascending run and is left as it is. A list with no NaN
    comes out in ascending order, equal scores in the order they had. With
    a NaN in the list the comparisons do not order the scores, and the
    arrangement is whatever the comparisons made happen to give. *)
Definition python_sort {score : Type} (score_leb : score -> score -> bool)
    (list_sort : list score -> list score) : Prop :=
  (forall l, Permutation (list_sort l) l) /\
  (forall l, no_descent score_leb l = true -> list_sort l = l) /\
  (forall l, no_nan score_leb l -> list_sort l = stable_ascending score_leb l).

(** The number of scores of [l] strictly above [t], and the number of
    scores at least [t]: [t] is the k-th largest score of [l] when it is a
    score of [l], fewer than k scores are strictly above it and at least k
    scores are at least it. *)
Definition count_above {score : Type} (score_leb : score -> score -> bool)
    (t : score) (l : list score) : nat :=
  length (List.filter (fun s => score_lt score_leb t s) l).

Definition count_at_least {score : Type} (score_leb : score -> score -> bool)
    (t : score) (l : list score) : nat :=
  length (List.filter (fun s => score_leb t s) l).

Definition kth_largest {score : Type} (score_leb : score -> score -> bool)
    (k : nat) (l : list score) (t : score) : Prop :=
  In t l /\ count_above score_leb t l < k <= count_at_least score_leb t l.

(** An edge the lookup can score: [get_score] has a value for it. *)
Definition scoreable {vector score : Type} (cosine : vector -> vector -> result score)
    (model : gmap string vector) (edge : string * string) : bool :=
  match get_score cosine model (py_str (fst edge)) (py_str (snd edge)) with
  | Some _ => true
  | None => false
  end.

(** The index a vocabulary gives a word, read as a plain function. *)
Definition index_of (vocab : gmap string Vocab) (word : string) : nat :=
  match vocab !! word with
  | Some v => index v
  | None => 0
  end.

(** The triples the window rule prescribes for position [i] and distance
    [j] of a walk: the left context when [i - j] is in bounds, then the
    right context when [i + j] is in bounds. *)
Definition window_pairs_at (vocab : gmap string Vocab) (layer : nat)
    (walk : list string) (i j : nat) : list (nat * nat * nat) :=
  (if j <=? i then
     match walk !! i, walk !! (i - j) with
     | Some w, Some w' => [(index_of vocab w, index_of vocab w', layer)]
     | _, _ => []
     end
   else []) ++
  (if i + j <? length walk then
     match walk !! i, walk !! (i + j) with
     | Some w, Some w' => [(index_of vocab w, index_of vocab w', layer)]
     | _, _ => []
     end
   else []).

Definition window_pairs_of_walk (vocab : gmap string Vocab) (half layer : nat)
    (walk : list string) : list (nat * nat * nat) :=
  flat_map (fun i => flat_map (window_pairs_at vocab layer walk i) (seq 1 half))
    (seq 0 (length walk)).

Definition window_pairs (vocab : gmap string Vocab) (half : nat)
    (all_walks : list (list (list string))) : list (nat * nat * nat) :=
  flat_map
    (fun '(layer, walks) => flat_map (window_pairs_of_walk vocab half layer) walks)
    (enumerate all_walks).

(** Every word of every walk is a key of the vocabulary. *)
Definition walks_in_vocab (vocab : gmap string Vocab)
    (all_walks : list (list (list string))) : Prop :=
  forall walks walk word,
    In walks all_walks -> In walk walks -> In word walk -> is_Some (vocab !! word).

(** Every set stored in the adjacency mapping has a member: a key is
    created only to receive one. *)
Definition inhabited_sets (d : gmap string (gset string)) : Prop :=
  forall u s, d !! u = Some s -> exists x, x ∈ s.

(** What the two loops of [evaluate] have recorded, in closed form. *)
Definition balanced {score : Type} (s : recorded score) (n_true n_scored : nat) : Prop :=
  true_num s = n_true /\ length (prediction_list s) = n_scored /\
  length (true_list s) = n_scored.

(** A small lookup and a stand-in for the cosine used to run the evaluator
    on concrete edges. *)
Definition sample_model : gmap string Z :=
  <["a" := 1%Z]> (<["b" := 2%Z]> (<["c" := 3%Z]> ∅)).

Definition sample_cosine (v1 v2 : Z) : result Z := Ok (v1 * v2)%Z.

(** A stand-in for the metrics of scikit-learn. Like [roc_auc_score], it
    raises [ValueError] unless both labels occur in [y_true]. *)
Definition sample_metrics (y_true : list nat) (y_scores : list Z) (y_pred : list nat)
  : result (list nat) :=
  if existsb (Nat.eqb 1) y_true && existsb (Nat.eqb 0) y_true then Ok y_pred
  else Raise ValueError.

(** A stand-in for [list.sort] that meets [python_sort]. *)
Definition sample_sort {score : Type} (score_leb : score -> score -> bool)
    (l : list score) : list score :=
  if no_descent score_leb l then l else stable_ascending score_leb l.

(** Floats with an integer value, and NaN; the cosine of two vectors of
    one integer coordinate, which is 1 or -1, and NaN when one of them is
    0; a lookup with a zero vector. *)
Inductive sample_float : Type :=
  | Finite (z : Z)
  | NaN.

Definition sample_float_leb (a b : sample_float) : bool :=
  match a, b with
  | Finite x, Finite y => (x <=? y)%Z
  | _, _ => false
  end.

Definition unit_cosine (v1 v2 : Z) : result sample_float :=
  let norms := (Z.abs v1 * Z.abs v2)%Z in
  if (norms =? 0)%Z then Ok NaN else Ok (Finite (v1 * v2 / norms)).

Definition zero_model : gmap string Z :=
  <["a" := 1%Z]> (<["b" := 2%Z]> (<["c" := (-1)%Z]> (<["z" := 0%Z]> ∅))).

(** The words of all walks of all layers, and the number of occurrences of
    a word among them. *)
Definition tokens (all_walks : list (list (list string))) : list string :=
  concat (concat all_walks).

Definition occurrences (word : string) (l : list string) : nat :=
  length (List.filter (fun x => bool_decide (x = word)) l).

(** The value a counter holds for a word, 0 for a word it has no key for. *)
Fixpoint counter_get (d : list (string * nat)) (word : string) : nat :=
  match d with
  | [] => 0
  | (k, v) :: d' => if decide (k = word) then v else counter_get d' word
  end.

(** [neighbors[i][r]], when both positions exist. *)
Definition cell (neighbors : list (list (list nat))) (i r : nat) : option (list nat) :=
  row ← neighbors !! i; row !! r.

(** A table of [n] rows of [c] cells. *)
Definition shaped (n c : nat) (neighbors : list (list (list nat))) : Prop :=
  length neighbors = n /\
  forall i row, neighbors !! i = Some row -> length row = c.

(** The entries one raw edge (x, y) gives node [i]: index(y) when
    index(x) = i, then index(x) when index(y) = i; and the entries a raw
    edge list gives node [i], one group per edge occurrence, in the order of
    the list. *)
Definition edge_entries (vocab : gmap string Vocab) (i : nat) (edge : string * string)
  : list nat :=
  (if decide (index_of vocab (fst edge) = i) then [index_of vocab (snd edge)] else [])
  ++ (if decide (index_of vocab (snd edge) = i) then [index_of vocab (fst edge)] else []).

Definition raw_entries (vocab : gmap string Vocab) (g : list (string * string)) (i : nat)
  : list nat :=
  flat_map (edge_entries vocab i) g.

(** The three-way policy, as a relation between the accumulated entries of
    node [i] and its final list. *)
Definition reconciled (i neighbor_samples : nat) (acc final : list nat) : Prop :=
  length final = neighbor_samples /\
  (length acc = 0 -> final = replicate neighbor_samples i) /\
  (0 < length acc < neighbor_samples ->
     exists extra, final = acc ++ extra /\
                   length extra = neighbor_samples - length acc /\
                   forall x, In x extra -> In x acc) /\
  (length acc = neighbor_samples -> final = acc) /\
  (neighbor_samples < length acc -> forall x, In x final -> In x acc).

(** The inputs [generate_neighbors] runs on without raising: every edge
    type is a key of the network data, and both end points of every edge
    are keys of the vocabulary with an index below [num_nodes]. *)
Definition indexed_below (vocab : gmap string Vocab) (num_nodes : nat) (x : string)
  : Prop :=
  exists v, vocab !! x = Some v /\ index v < num_nodes.

Definition neighbors_input (network_data : gmap string (list (string * string)))
    (vocab : gmap string Vocab) (num_nodes : nat) (edge_types : list string) : Prop :=
  forall r edge_type, edge_types !! r = Some edge_type ->
    exists g, network_data !! edge_type = Some g /\
      forall x y, In (x, y) g ->
        indexed_below vocab num_nodes x /\ indexed_below vocab num_nodes y.

(** A token the line format carries unchanged: not empty and free of white
    space. *)
Fixpoint no_space (s : string) : bool :=
  match s with
  | "" => true
  | String c s' => negb (py_isspace c) && no_space s'
  end.

Definition clean_token (t : string) : Prop := t <> "" /\ no_space t = true.

Definition clean_walk (walk : list string) : Prop :=
  forall t, In t walk -> clean_token t.

(** A string with no line feed and no carriage return in it. *)
Fixpoint no_eol (s : string) : bool :=
  match s with
  | "" => true
  | String c s' =>
      negb (Ascii.eqb c "010"%char) && negb (Ascii.eqb c "013"%char) && no_eol s'
  end.

(** The file made of one line per entry (layer index, walk), in order. *)
Fixpoint corpus_lines (entries : list (nat * list string)) : string :=
  match entries with
  | [] => ""
  | (layer_id, walk) :: entries' => walk_line layer_id walk +:+ corpus_lines entries'
  end.

(** The lines [save_walks] writes: layer by layer, walk by walk. *)
Definition corpus_entries (all_walks : list (list (list string)))
  : list (nat * list string) :=
  flat_map (fun '(layer_id, walks) => map (fun walk => (layer_id, walk)) walks)
    (enumerate all_walks).

(** The walk of a line is appended to the layer the line names; a layer
    index equal to the number of layers opens a new layer. *)
Definition add_walk (layer_id : nat) (walk : list string)
    (all_walks : list (list (list string))) : list (list (list string)) :=
  match all_walks !! layer_id with
  | Some layer => <[layer_id := layer ++ [walk]]> all_walks
  | None => all_walks ++ [[walk]]
  end.

(** The effect of one line on the layers read so far: a layer index above
    the number of layers is an [IndexError]. *)
Definition load_entry (entry : nat * list string)
    (all_walks : list (list (list string))) : result (list (list (list string))) :=
  if fst entry <=? length all_walks
  then Ok (add_walk (fst entry) (snd entry) all_walks)
  else Raise IndexError.

(** The vocabulary of the walks [[a, b, a], [b, c]]. *)
Definition sample_vocab : gmap string Vocab :=
  <["a" := mkVocab 2 0]> (<["b" := mkVocab 2 1]> (<["c" := mkVocab 1 2]> ∅)).

(** One edge type with an edge between a and b and a self-loop on c, and a
    random source that counts its draws. *)
Definition sample_network : gmap string (list (string * string)) :=
  <["t" := [("a", "b"); ("c", "c")]]> ∅.

Definition sample_next (st : nat) : nat * nat := (st, S st).

(** The scores [get_score] has for the edges of a list, in order. *)
Definition scores_of {vector score : Type} (cosine : vector -> vector -> result score)
    (model : gmap string vector) (edges : list (string * string)) : list score :=
  omap (fun edge => get_score cosine model (py_str (fst edge)) (py_str (snd edge)))
    edges.


(** A walker that returns, for every node of the graph, the walk that
    stays on it for two steps, and a file system with one walk file. *)
Definition sample_simulate_walks (G : gmap string (gset string))
    (node_type : option (gmap string string)) (num_workers num_walks walk_length : Z)
    (schema : option string) (st : nat) : result (list (list string) * nat) :=
  Ok (map (fun u => [u; u]) (elements (dom G)), S st).

Definition sample_walk_file : string :=
  "0 a b" +:+ newline +:+ "0 c" +:+ newline +:+ "1 d" +:+ newline.

Definition sample_read_file (path : string) : result string := Ok sample_walk_file.

Definition sample_edges : list (string * list (string * string)) :=
  [("t", [("a", "b")]); ("u", [("c", "c")])].

(** [a] stands somewhere before [b] in [l]. *)
Definition precedes {A : Type} (a b : A) (l : list A) : Prop :=
  exists l1 l2 l3, l = l1 ++ a :: l2 ++ b :: l3.

(** The walks of the lines that name layer [k], in the order of the lines. *)
Definition walks_of_layer (k : nat) (entries : list (nat * list string))
  : list (list string) :=
  map snd (List.filter (fun e => fst e =? k) entries).

(** A field of an edge file: no space, no line feed and no carriage return
    in it (it may be empty). *)
Fixpoint no_sep (s : string) : bool :=
  match s with
  | "" => true
  | String c s' =>
      negb (Ascii.eqb c " "%char) && negb (Ascii.eqb c "010"%char)
      && negb (Ascii.eqb c "013"%char) && no_sep s'
  end.

(** The file with one line [edge_type x y] per row. *)
Definition training_row_line (row : string * string * string) : string :=
  fst (fst row) +:+ " " +:+ snd (fst row) +:+ " " +:+ snd row.

Fixpoint training_file (rows : list (string * string * string)) : string :=
  match rows with
  | [] => ""
  | row :: rows' => training_row_line row +:+ newline +:+ training_file rows'
  end.

Definition clean_row (row : string * string * string) : Prop :=
  no_sep (fst (fst row)) = true /\ no_sep (snd (fst row)) = true /\
  no_sep (snd row) = true.

(** The value appended to the list of its key, the key going last when it
    is new. *)
Fixpoint odict_push {V : Type} (k : string) (v : V) (d : list (string * list V))
  : list (string * list V) :=
  match d with
  | [] => [(k, [v])]
  | (k', l) :: d' =>
      if decide (k' = k) then (k', l ++ [v]) :: d' else (k', l) :: odict_push k v d'
  end.

(** The list bound to a key, empty for a key that is absent. *)
Definition odict_list {V : Type} (d : list (string * list V)) (k : string) : list V :=
  match odict_get d k with
  | Ok l => l
  | Raise _ => []
  end.

(** The distinct elements of a list, in the order of their first
    occurrence. *)
Definition first_seen (l : list string) : list string :=
  fold_left (fun acc t => if decide (t ∈ acc) then acc else acc ++ [t]) l [].

(** The edges of the rows of one edge type, in the order of the rows. *)
Definition edges_of_type (edge_type : string) (rows : list (string * string * string))
  : list (string * string) :=
  map (fun row => (snd (fst row), snd row))
    (List.filter (fun row => bool_decide (fst (fst row) = edge_type)) rows).

(** The dict of the rows of an edge file: every row appended to the list
    of its edge type. *)
Definition push_row (d : list (string * list (string * string)))
    (row : string * string * string) : list (string * list (string * string)) :=
  odict_push (fst (fst row)) (snd (fst row), snd row) d.

Definition rows_dict (rows : list (string * string * string))
  : list (string * list (string * string)) :=
  fold_left push_row rows [].

(** The file with one line [edge_type x y label] per row, and the rows a
    label of 1 selects. A labelled row has a label that [int()] reads: of
    at most 4300 characters, so that no interpreter refuses it for its
    length. *)
Definition testing_row_line (row : string * string * string * string) : string :=
  training_row_line (fst row) +:+ " " +:+ snd row.

Fixpoint testing_file (rows : list (string * string * string * string)) : string :=
  match rows with
  | [] => ""
  | row :: rows' => testing_row_line row +:+ newline +:+ testing_file rows'
  end.

Definition labelled_row (row : string * string * string * string) : Prop :=
  clean_row (fst row) /\ no_sep (snd row) = true /\
  String.length (snd row) <= 4300 /\ exists n, py_int (snd row) = Ok n.

Definition is_true_label (label : string) : bool :=
  match py_int label with
  | Ok n => (n =? 1)%Z
  | Raise _ => false
  end.

Definition true_rows (rows : list (string * string * string * string))
  : list (string * string * string) :=
  map fst (List.filter (fun row => is_true_label (snd row)) rows).

Definition false_rows (rows : list (string * string * string * string))
  : list (string * string * string) :=
  map fst (List.filter (fun row => negb (is_true_label (snd row))) rows).

(** The file with one line [node type extra ...] per row, and the type the
    last row of a node gives it. *)
Definition node_type_row_line (row : string * string * list string) : string :=
  py_join " " (fst (fst row) :: snd (fst row) :: snd row).

Fixpoint node_type_file (rows : list (string * string * list string)) : string :=
  match rows with
  | [] => ""
  | row :: rows' => node_type_row_line row +:+ newline +:+ node_type_file rows'
  end.

Definition clean_node_row (row : string * string * list string) : Prop :=
  clean_walk (fst (fst row) :: snd (fst row) :: snd row).

(** The count a vocabulary holds for a word, read as a plain function. *)
Definition count_of (vocab : gmap string Vocab) (word : string) : nat :=
  match vocab !! word with
  | Some v => count v
  | None => 0
  end.

(** * Properties *)

(** ** The adjacency structure *)

Lemma adjacency_add_neighbor u v d w x :
  x ∈ adjacency (add_neighbor u v d) w <->
  x ∈ adjacency d w \/ (w = u /\ x = v).
Proof.
  unfold adjacency, add_neighbor.
  destruct (decide (u = w)) as [->|Hne].
  - rewrite lookup_insert_eq. simpl. set_solver.
  - rewrite lookup_insert_ne by done. naive_solver.
Qed.

Lemma adjacency_add_edge d u v w x :
  x ∈ adjacency (add_edge d (u, v)) w <->
  x ∈ adjacency d w \/ (w = u /\ x = v) \/ (w = v /\ x = u).
Proof.
  unfold add_edge, py_str. simpl.
  rewrite !adjacency_add_neighbor. tauto.
Qed.

Lemma adjacency_fold edges : forall d w x,
  x ∈ adjacency (fold_left add_edge edges d) w <->
  x ∈ adjacency d w \/ In (w, x) edges \/ In (x, w) edges.
Proof.
  induction edges as [|[u v] edges IH]; intros d w x; simpl.
  - tauto.
  - rewrite IH, adjacency_add_edge. split.
    + intros [[H|[[-> ->]|[-> ->]]]|[H|H]]; auto.
    + intros [H|[[H|H]|[H|H]]]; auto.
      * inversion H; subst. auto.
      * inversion H; subst. auto.
Qed.

Lemma adjacency_spec edges w x :
  x ∈ adjacency (get_G_from_edges edges) w <->
  In (w, x) edges \/ In (x, w) edges.
Proof.
  unfold get_G_from_edges. rewrite adjacency_fold.
  unfold adjacency at 1. rewrite lookup_empty. simpl. set_solver.
Qed.

Lemma inhabited_sets_add_neighbor u v d :
  inhabited_sets d -> inhabited_sets (add_neighbor u v d).
Proof.
  intros Hd w s. unfold add_neighbor.
  destruct (decide (u = w)) as [->|Hne].
  - rewrite lookup_insert_eq. intros [= <-]. exists v. set_solver.
  - rewrite lookup_insert_ne by done. apply Hd.
Qed.

Lemma inhabited_sets_fold edges : forall d,
  inhabited_sets d -> inhabited_sets (fold_left add_edge edges d).
Proof.
  induction edges as [|e edges IH]; intros d Hd; simpl; [done|].
  apply IH. unfold add_edge. by do 2 apply inhabited_sets_add_neighbor.
Qed.

Lemma inhabited_sets_get_G edges : inhabited_sets (get_G_from_edges edges).
Proof.
  apply inhabited_sets_fold. intros u s. by rewrite lookup_empty.
Qed.

(** Two edge lists that relate the same nodes build the same mapping. *)
Lemma get_G_from_edges_ext edges edges' :
  (forall w x, In (w, x) edges \/ In (x, w) edges <->
               In (w, x) edges' \/ In (x, w) edges') ->
  get_G_from_edges edges = get_G_from_edges edges'.
Proof.
  intros Hext. apply map_eq. intros u.
  assert (Hadj : adjacency (get_G_from_edges edges) u
                 = adjacency (get_G_from_edges edges') u).
  { apply set_eq. intros x. by rewrite !adjacency_spec. }
  pose proof (inhabited_sets_get_G edges u) as H1.
  pose proof (inhabited_sets_get_G edges' u) as H2.
  unfold adjacency in Hadj.
  destruct (get_G_from_edges edges !! u) as [s|],
           (get_G_from_edges edges' !! u) as [s'|]; simpl in Hadj.
  - by rewrite Hadj.
  - destruct (H1 s eq_refl) as [x Hx]. set_solver.
  - destruct (H2 s' eq_refl) as [x Hx]. set_solver.
  - done.
Qed.

(** C9. For every edge sequence, [get_G_from_edges] returns a mapping in
    which each input pair (u, v) has v in adjacency[u] and u in
    adjacency[v]; the members of adjacency[u] are exactly the nodes paired
    with u, so that repeating a pair that is already present, in either
    position of the sequence, leaves the mapping unchanged and the number of
    members counts each neighbor once; a pair (u, u) records u as its own
    neighbor. *)
Theorem C9_get_G_from_edges_symmetric_sets (edges : list (string * string)) :
  (forall u v, In (u, v) edges ->
     v ∈ adjacency (get_G_from_edges edges) u /\
     u ∈ adjacency (get_G_from_edges edges) v) /\
  (forall u w, w ∈ adjacency (get_G_from_edges edges) u <->
     In (u, w) edges \/ In (w, u) edges) /\
  (forall e before after, In e edges -> edges = before ++ after ->
     get_G_from_edges (before ++ e :: after) = get_G_from_edges edges) /\
  (forall u v, In (u, v) edges ->
     size (adjacency (get_G_from_edges ((u, v) :: edges)) u)
     = size (adjacency (get_G_from_edges edges) u)) /\
  (forall u, In (u, u) edges -> u ∈ adjacency (get_G_from_edges edges) u).
Proof.
  repeat split.
  - apply adjacency_spec. auto.
  - apply adjacency_spec. auto.
  - apply adjacency_spec.
  - apply adjacency_spec.
  - intros e before after He ->. apply get_G_from_edges_ext. intros w x.
    rewrite !in_app_iff in *. simpl. rewrite ?in_app_iff.
    split; [|tauto].
    intros [[H|[H|H]]|[H|[H|H]]]; subst; tauto.
  - intros u v He. f_equal. apply set_eq. intros x.
    rewrite !adjacency_spec. simpl. split; [|tauto].
    intros [[H|H]|[H|H]]; try tauto; inversion H; subst; tauto.
  - intros u H. apply adjacency_spec. auto.
Qed.

Lemma C9_witness :
  In ("a", "b") [("a", "b"); ("c", "c")] /\
  "b" ∈ adjacency (get_G_from_edges [("a", "b"); ("c", "c")]) "a" /\
  get_G_from_edges ([("a", "b")] ++ ("a", "b") :: [("c", "c")])
  = get_G_from_edges [("a", "b"); ("c", "c")] /\
  "c" ∈ adjacency (get_G_from_edges [("a", "b"); ("c", "c")]) "c".
Proof.
  pose proof (C9_get_G_from_edges_symmetric_sets [("a", "b"); ("c", "c")])
    as (H1 & _ & H3 & _ & H5).
  split; [simpl; auto|].
  split; [apply (H1 "a" "b"); simpl; auto|].
  split; [apply (H3 ("a", "b") [("a", "b")] [("c", "c")]); simpl; auto|].
  apply H5. simpl. auto.
Defined.

(** ** The evaluator *)

Lemma filter_none {A : Type} (p : A -> bool) (l : list A) :
  (forall x, In x l -> p x = false) -> List.filter p l = [].
Proof.
  induction l as [|a l IH]; intros H; simpl; [done|].
  rewrite (H a) by (simpl; auto). apply IH. intros x Hx. apply H. simpl. auto.
Qed.

Lemma filter_all {A : Type} (p : A -> bool) (l : list A) :
  (forall x, In x l -> p x = true) -> List.filter p l = l.
Proof.
  induction l as [|a l IH]; intros H; simpl; [done|].
  rewrite (H a) by (simpl; auto). f_equal. apply IH. intros x Hx. apply H. simpl. auto.
Qed.

Lemma filter_shorter {A : Type} (p : A -> bool) (l : list A) :
  length (List.filter p l) <= length l.
Proof.
  induction l as [|a l IH]; simpl; [done|]. destruct (p a); simpl; lia.
Qed.

Section EvaluatorFacts.

Context {vector score metrics : Type}.
Variable cosine : vector -> vector -> result score.
Variable score_leb : score -> score -> bool.
Variable list_sort : list score -> list score.
Variable sklearn_metrics : list nat -> list score -> list nat -> result metrics.

Implicit Types (model : gmap string vector) (edge : string * string).
Implicit Types (s : recorded score) (l : list score).

Lemma get_score_missing model node1 node2 :
  model !! node1 = None \/ model !! node2 = None ->
  get_score cosine model node1 node2 = None.
Proof.
  unfold get_score, dict_get. intros [H|H].
  - by rewrite H.
  - rewrite H. by destruct (model !! node1).
Qed.

Lemma record_true_skip model s edge :
  scoreable cosine model edge = false -> record_true cosine model s edge = s.
Proof.
  unfold scoreable, record_true.
  by destruct (get_score cosine model _ _).
Qed.

Lemma record_false_skip model s edge :
  scoreable cosine model edge = false -> record_false cosine model s edge = s.
Proof.
  unfold scoreable, record_false.
  by destruct (get_score cosine model _ _).
Qed.

Lemma record_edges_skip_true model edge before after false_edges :
  scoreable cosine model edge = false ->
  record_edges cosine model (before ++ edge :: after) false_edges
  = record_edges cosine model (before ++ after) false_edges.
Proof.
  intros H. unfold record_edges. rewrite !fold_left_app. simpl.
  by rewrite record_true_skip.
Qed.

Lemma record_edges_skip_false model edge true_edges before after :
  scoreable cosine model edge = false ->
  record_edges cosine model true_edges (before ++ edge :: after)
  = record_edges cosine model true_edges (before ++ after).
Proof.
  intros H. unfold record_edges. rewrite !fold_left_app. simpl.
  by rewrite record_false_skip.
Qed.

Lemma record_true_cases model s edge :
  (scoreable cosine model edge = false /\ record_true cosine model s edge = s) \/
  (scoreable cosine model edge = true /\ exists x,
     record_true cosine model s edge
     = mkRecorded (true_list s ++ [1]) (prediction_list s ++ [x]) (true_num s + 1)).
Proof.
  unfold scoreable, record_true.
  destruct (get_score cosine model _ _) as [x|]; eauto.
Qed.

Lemma record_false_cases model s edge :
  (scoreable cosine model edge = false /\ record_false cosine model s edge = s) \/
  (scoreable cosine model edge = true /\ exists x,
     record_false cosine model s edge
     = mkRecorded (true_list s ++ [0]) (prediction_list s ++ [x]) (true_num s)).
Proof.
  unfold scoreable, record_false.
  destruct (get_score cosine model _ _) as [x|]; eauto.
Qed.

Lemma fold_record_true model edges : forall s n m,
  balanced s n m ->
  balanced (fold_left (record_true cosine model) edges s)
    (n + length (List.filter (scoreable cosine model) edges))
    (m + length (List.filter (scoreable cosine model) edges)).
Proof.
  induction edges as [|e edges IH]; intros s n m Hs; simpl.
  - by rewrite !Nat.add_0_r.
  - destruct (record_true_cases model s e) as [[-> ->]|[-> [x ->]]].
    + by apply IH.
    + simpl length. rewrite <- !Nat.add_succ_comm. apply IH.
      destruct Hs as (H1 & H2 & H3). unfold balanced. simpl.
      rewrite !length_app. simpl. lia.
Qed.

Lemma fold_record_false model edges : forall s n m,
  balanced s n m ->
  balanced (fold_left (record_false cosine model) edges s)
    n (m + length (List.filter (scoreable cosine model) edges)).
Proof.
  induction edges as [|e edges IH]; intros s n m Hs; simpl.
  - by rewrite !Nat.add_0_r.
  - destruct (record_false_cases model s e) as [[-> ->]|[-> [x ->]]].
    + by apply IH.
    + simpl length. rewrite <- !Nat.add_succ_comm. apply IH.
      destruct Hs as (H1 & H2 & H3). unfold balanced. simpl.
      rewrite !length_app. simpl. lia.
Qed.

Lemma record_edges_counts model true_edges false_edges :
  balanced (record_edges cosine model true_edges false_edges)
    (length (List.filter (scoreable cosine model) true_edges))
    (length (List.filter (scoreable cosine model) true_edges)
     + length (List.filter (scoreable cosine model) false_edges)).
Proof.
  unfold record_edges. apply fold_record_false.
  apply (fold_record_true model true_edges (mkRecorded [] [] 0) 0 0).
  by unfold balanced.
Qed.

Lemma true_num_le_scored model true_edges false_edges :
  true_num (record_edges cosine model true_edges false_edges)
  <= length (prediction_list (record_edges cosine model true_edges false_edges)).
Proof.
  destruct (record_edges_counts model true_edges false_edges) as (-> & -> & _).
  lia.
Qed.

Lemma fold_record_true_closed model edges :
  forall s : recorded score,
  fold_left (record_true cosine model) edges s
  = mkRecorded (true_list s ++ replicate (length (scores_of cosine model edges)) 1)
      (prediction_list s ++ scores_of cosine model edges)
      (true_num s + length (scores_of cosine model edges)).
Proof.
  induction edges as [|e edges IH]; intros s.
  - simpl. rewrite !app_nil_r, Nat.add_0_r. by destruct s.
  - cbn [fold_left]. rewrite IH. unfold record_true, scores_of. cbn [omap list_omap].
    fold (scores_of cosine model edges).
    destruct (get_score cosine model _ _) as [x|]; [|done].
    cbn [true_list prediction_list true_num length replicate].
    rewrite <- !app_assoc. cbn [app]. f_equal. lia.
Qed.

Lemma fold_record_false_closed model edges :
  forall s : recorded score,
  fold_left (record_false cosine model) edges s
  = mkRecorded (true_list s ++ replicate (length (scores_of cosine model edges)) 0)
      (prediction_list s ++ scores_of cosine model edges)
      (true_num s).
Proof.
  induction edges as [|e edges IH]; intros s.
  - simpl. rewrite !app_nil_r. by destruct s.
  - cbn [fold_left]. rewrite IH. unfold record_false, scores_of. cbn [omap list_omap].
    fold (scores_of cosine model edges).
    destruct (get_score cosine model _ _) as [x|]; [|done].
    cbn [true_list prediction_list true_num length replicate].
    rewrite <- !app_assoc. done.
Qed.

(** With no true edge scored, every recorded label is 0. *)
Lemma labels_without_true_edge model true_edges false_edges :
  true_num (record_edges cosine model true_edges false_edges) = 0 ->
  true_list (record_edges cosine model true_edges false_edges)
  = replicate
      (length (prediction_list (record_edges cosine model true_edges false_edges))) 0.
Proof.
  unfold record_edges.
  rewrite fold_record_false_closed, fold_record_true_closed.
  cbn [true_list prediction_list true_num app]. intros H0.
  destruct (scores_of cosine model true_edges); [done|simpl in H0; lia].
Qed.

(** The index [-true_num] of the sorted scores. *)
Lemma py_index_from_end {A : Type} (l : list A) (k : nat) :
  1 <= k <= length l ->
  py_index l (- Z.of_nat k) = list_get l (length l - k).
Proof.
  intros Hk. unfold py_index, py_position.
  destruct (Z.ltb_spec (- Z.of_nat k) 0); [|lia].
  destruct (Z.ltb_spec (- Z.of_nat k + Z.of_nat (length l)) 0); [lia|].
  destruct (Z.leb_spec (Z.of_nat (length l)) (- Z.of_nat k + Z.of_nat (length l)));
    [lia|].
  simpl. f_equal. lia.
Qed.

Lemma py_index_minus_zero {A : Type} (l : list A) :
  py_index l (- Z.of_nat 0) = list_get l 0.
Proof.
  unfold py_index, py_position. simpl.
  destruct l; simpl; [done|].
  destruct (Z.leb_spec (Z.pos (Pos.of_succ_nat (length l))) 0); [lia|done].
Qed.

Lemma py_index_In {A : Type} (l : list A) (k : Z) (x : A) :
  py_index l k = Ok x -> In x l.
Proof.
  unfold py_index. destruct (py_position l k) as [i|e]; [|done].
  cbn [mbind result_bind]. unfold list_get.
  destruct (l !! i) as [a|] eqn:E; [|done]. intros [= <-].
  apply list_elem_of_In. by eapply list_elem_of_lookup_2.
Qed.

Lemma stable_insert_perm x l : Permutation (stable_insert score_leb x l) (x :: l).
Proof.
  induction l as [|y l IH]; simpl; [done|].
  destruct (score_leb x y); [done|].
  rewrite IH. apply perm_swap.
Qed.

Lemma stable_ascending_perm l : Permutation (stable_ascending score_leb l) l.
Proof.
  induction l as [|x l IH]; simpl; [done|].
  rewrite stable_insert_perm. by constructor.
Qed.

Lemma list_sort_length l :
  python_sort score_leb list_sort -> length (list_sort l) = length l.
Proof. intros (Hp & _). apply Permutation_length, Hp. Qed.

(** C8. When either node of a pair is missing from the lookup,
    [get_score] returns [None] without raising, and [evaluate] leaves the
    edge out: with the edge among the true edges or among the false
    edges, the recorded labels, the recorded scores and [true_num] are
    those recorded without it, and so is the result of [evaluate]. *)
Theorem C8_unscoreable_edge_is_skipped model node1 node2 :
  model !! node1 = None \/ model !! node2 = None ->
  get_score cosine model node1 node2 = None /\
  (forall before after false_edges,
     record_edges cosine model (before ++ (node1, node2) :: after) false_edges
     = record_edges cosine model (before ++ after) false_edges /\
     evaluate cosine score_leb list_sort sklearn_metrics model
       (before ++ (node1, node2) :: after) false_edges
     = evaluate cosine score_leb list_sort sklearn_metrics model
         (before ++ after) false_edges) /\
  (forall true_edges before after,
     record_edges cosine model true_edges (before ++ (node1, node2) :: after)
     = record_edges cosine model true_edges (before ++ after) /\
     evaluate cosine score_leb list_sort sklearn_metrics model
       true_edges (before ++ (node1, node2) :: after)
     = evaluate cosine score_leb list_sort sklearn_metrics model
         true_edges (before ++ after)).
Proof.
  intros Hmiss.
  pose proof (get_score_missing model node1 node2 Hmiss) as Hnone.
  assert (Hs : scoreable cosine model (node1, node2) = false).
  { unfold scoreable, py_str. simpl. by rewrite Hnone. }
  split; [done|]. split.
  - intros before after false_edges.
    pose proof (record_edges_skip_true model _ before after false_edges Hs) as E.
    split; [done|]. unfold evaluate, evaluate_locals. by rewrite E.
  - intros true_edges before after.
    pose proof (record_edges_skip_false model _ true_edges before after Hs) as E.
    split; [done|]. unfold evaluate, evaluate_locals. by rewrite E.
Qed.

Section Ordered.

Hypothesis Horder : float_order score_leb.

Let le (a b : score) : Prop := score_leb a b = true.

Lemma stable_insert_sorted x l :
  score_leb x x = true -> no_nan score_leb l ->
  StronglySorted le l -> StronglySorted le (stable_insert score_leb x l).
Proof.
  intros Hx Hl Hs. induction Hs as [|y l Hs IH Hy]; simpl.
  - repeat constructor.
  - destruct (score_leb x y) eqn:E.
    + constructor; [by constructor|].
      constructor; [done|].
      eapply Forall_impl; [exact Hy|]. intros z Hz. by eapply (proj1 Horder).
    + constructor; [apply IH; intros z Hz; apply Hl; by right|].
      rewrite (stable_insert_perm x l). constructor; [|done].
      destruct (proj2 Horder x y Hx) as [H'|H']; [apply Hl; by left|congruence|done].
Qed.

Lemma stable_ascending_sorted l :
  no_nan score_leb l -> StronglySorted le (stable_ascending score_leb l).
Proof.
  induction l as [|x l IH]; intros Hl; simpl; [constructor|].
  apply stable_insert_sorted.
  - apply Hl. by left.
  - intros z Hz. apply Hl. right.
    eapply Permutation_in; [apply stable_ascending_perm|done].
  - apply IH. intros z Hz. apply Hl. by right.
Qed.

(** A list with no NaN and no descent is already in stable ascending
    order. *)
Lemma stable_ascending_run l :
  no_nan score_leb l -> no_descent score_leb l = true ->
  stable_ascending score_leb l = l.
Proof.
  induction l as [|x l IH]; intros Hl Hrun; [done|].
  cbn [stable_ascending foldr]. fold (stable_ascending score_leb l).
  destruct l as [|y l']; [done|].
  cbn [no_descent] in Hrun. apply andb_true_iff in Hrun as [Hxy Hrun].
  rewrite IH; [|intros z Hz; apply Hl; by right|done].
  cbn [stable_insert].
  assert (E : score_leb x y = true); [|by rewrite E].
  apply negb_true_iff in Hxy. unfold score_lt in Hxy.
  destruct (proj2 Horder x y) as [H|H]; [apply Hl; by left|apply Hl; right; by left|done|].
  rewrite H in Hxy. simpl in Hxy. by apply negb_false_iff in Hxy.
Qed.

Lemma sample_sort_python_sort : python_sort score_leb (sample_sort score_leb).
Proof.
  unfold sample_sort. split; [|split].
  - intros l. destruct (no_descent score_leb l); [done|apply stable_ascending_perm].
  - intros l ->. done.
  - intros l Hl. destruct (no_descent score_leb l) eqn:E; [|done].
    symmetry. by apply stable_ascending_run.
Qed.

Lemma count_above_bound t l1 l2 :
  StronglySorted le (l1 ++ t :: l2) ->
  count_above score_leb t (l1 ++ t :: l2) <= length l2.
Proof.
  intros Hs. unfold count_above. rewrite List.filter_app. simpl.
  assert (Ht : score_lt score_leb t t = false).
  { unfold score_lt. by destruct (score_leb t t). }
  rewrite Ht. rewrite length_app.
  assert (E : List.filter (fun z => score_lt score_leb t z) l1 = []).
  { apply filter_none. intros x Hx. apply list_elem_of_In in Hx.
    assert (Hle : le x t).
    { eapply StronglySorted_app_1_elem_of; [exact Hs|done|]. by left. }
    unfold score_lt. unfold le in Hle. rewrite Hle. apply andb_false_r. }
  rewrite E. simpl. apply filter_shorter.
Qed.

Lemma count_at_least_bound t l1 l2 :
  score_leb t t = true ->
  StronglySorted le (l1 ++ t :: l2) ->
  S (length l2) <= count_at_least score_leb t (l1 ++ t :: l2).
Proof.
  intros Ht Hs. unfold count_at_least. rewrite List.filter_app. simpl.
  rewrite Ht. rewrite length_app. simpl.
  assert (E : List.filter (fun z => score_leb t z) l2 = l2).
  { apply filter_all. intros x Hx.
    apply StronglySorted_app_1_r in Hs. inversion Hs as [|? ? _ Hall]; subst.
    rewrite List.Forall_forall in Hall. by apply Hall. }
  rewrite E. lia.
Qed.

Lemma count_above_perm t l l' :
  Permutation l l' -> count_above score_leb t l = count_above score_leb t l'.
Proof.
  intros H. unfold count_above.
  induction H; simpl; try done.
  - destruct (score_lt score_leb t x); simpl; congruence.
  - destruct (score_lt score_leb t x), (score_lt score_leb t y); simpl; congruence.
  - congruence.
Qed.

Lemma count_at_least_perm t l l' :
  Permutation l l' ->
  count_at_least score_leb t l = count_at_least score_leb t l'.
Proof.
  intros H. unfold count_at_least.
  induction H; simpl; try done.
  - destruct (score_leb t x); simpl; congruence.
  - destruct (score_leb t x), (score_leb t y); simpl; congruence.
  - congruence.
Qed.

(** The score [k] places before the end of the ascending arrangement of a
    list with no NaN is the k-th largest. *)
Lemma sorted_rank l k t :
  no_nan score_leb l ->
  1 <= k <= length l ->
  stable_ascending score_leb l !! (length l - k) = Some t ->
  kth_largest score_leb k l t.
Proof.
  intros Hl Hk Ht.
  pose proof (stable_ascending_perm l) as Hp.
  pose proof (stable_ascending_sorted l Hl) as Hs.
  pose proof (take_drop_middle _ _ _ Ht) as Hsplit.
  rewrite <- Hsplit in Hs.
  assert (Hlen : length (drop (S (length l - k)) (stable_ascending score_leb l)) = k - 1).
  { rewrite length_drop. rewrite (Permutation_length Hp). lia. }
  assert (Hin : In t l).
  { eapply Permutation_in; [exact Hp|].
    apply list_elem_of_In. eapply list_elem_of_lookup_2. exact Ht. }
  split; [done|].
  rewrite <- (count_above_perm t _ _ Hp), <- (count_at_least_perm t _ _ Hp).
  rewrite <- Hsplit.
  pose proof (count_above_bound _ _ _ Hs).
  pose proof (count_at_least_bound _ _ _ (Hl t Hin) Hs). lia.
Qed.

End Ordered.

(** C2, as the code has it. Whenever [evaluate] computes a threshold, the
    threshold is one of the recorded scores and the recorded edge at every
    position is predicted 1 when its score is at least the threshold and 0
    otherwise. When no recorded score is NaN and
    1 <= true_num <= number of recorded scores, a threshold is computed: it
    is the score found [true_num] places before the end of the recorded
    scores sorted in ascending order, that is the [true_num]-th largest of
    all recorded scores. *)
Theorem C2_threshold_is_rank_matched model true_edges false_edges :
  let s := record_edges cosine model true_edges false_edges in
  float_order score_leb ->
  python_sort score_leb list_sort ->
  (forall r,
     evaluate_locals cosine score_leb list_sort model true_edges false_edges = Ok r ->
     In (threshold r) (prediction_list s) /\
     forall i x, prediction_list s !! i = Some x ->
       y_pred r !! i = Some (if score_leb (threshold r) x then 1 else 0)) /\
  (no_nan score_leb (prediction_list s) ->
   1 <= true_num s ->
   true_num s <= length (prediction_list s) ->
   exists r,
     evaluate_locals cosine score_leb list_sort model true_edges false_edges = Ok r /\
     y_true r = true_list s /\ y_scores r = prediction_list s /\
     StronglySorted (fun a b => score_leb a b = true) (list_sort (prediction_list s)) /\
     Permutation (list_sort (prediction_list s)) (prediction_list s) /\
     list_sort (prediction_list s)
       !! (length (prediction_list s) - true_num s) = Some (threshold r) /\
     kth_largest score_leb (true_num s) (prediction_list s) (threshold r) /\
     length (y_pred r) = length (prediction_list s) /\
     (forall i x, prediction_list s !! i = Some x ->
        y_pred r !! i = Some (if score_leb (threshold r) x then 1 else 0))).
Proof.
  intros s Horder Hsort. split.
  - intros r. unfold evaluate_locals. fold s.
    destruct (py_index (list_sort (prediction_list s)) (- Z.of_nat (true_num s)))
      as [t|e] eqn:Et; [|done].
    cbn [mbind result_bind]. intros [= <-]. cbn [threshold y_pred]. split.
    + apply py_index_In in Et.
      eapply Permutation_in; [apply (proj1 Hsort)|done].
    + intros i x Hx. by rewrite list_lookup_fmap, Hx.
  - intros Hnan H1 H2. unfold evaluate_locals. fold s.
    pose proof (list_sort_length (prediction_list s) Hsort) as Hlen.
    rewrite py_index_from_end by (rewrite Hlen; lia).
    rewrite Hlen. unfold list_get.
    destruct (list_sort (prediction_list s)
                !! (length (prediction_list s) - true_num s)) as [t|] eqn:Et.
    2:{ apply lookup_ge_None in Et. rewrite Hlen in Et. lia. }
    eexists. split; [reflexivity|]. simpl.
    split; [done|]. split; [done|].
    rewrite (proj2 (proj2 Hsort) _ Hnan) in Et |- *.
    split; [by apply stable_ascending_sorted|].
    split; [apply stable_ascending_perm|].
    split; [done|]. split; [apply sorted_rank; [done|done|lia|done]|].
    split; [by rewrite length_map|].
    intros i x Hx. by rewrite list_lookup_fmap, Hx.
Qed.

(** C1, as the code has it. [evaluate] has no guard of its own on
    [true_num]: [true_num] never exceeds the number of recorded scores;
    when no score is recorded the index [-true_num] is out of range and
    [evaluate] ends with Python's [IndexError]; when [true_num] is 0 and
    some score is recorded the index [-0] reads the first sorted score as
    the threshold and raises nothing, the labels are all 0, and the result
    of [evaluate] is whatever the metrics of scikit-learn return or raise
    on them. With no NaN among the recorded scores that threshold is the
    smallest of them and every recorded edge is predicted 1. *)
Theorem C1_rank_index_is_unguarded model true_edges false_edges :
  let s := record_edges cosine model true_edges false_edges in
  python_sort score_leb list_sort ->
  true_num s <= length (prediction_list s) /\
  (prediction_list s = [] ->
     evaluate_locals cosine score_leb list_sort model true_edges false_edges
     = Raise IndexError /\
     evaluate cosine score_leb list_sort sklearn_metrics model true_edges false_edges
     = Raise IndexError) /\
  (true_num s = 0 -> prediction_list s <> [] ->
     exists t,
       list_sort (prediction_list s) !! 0 = Some t /\
       evaluate_locals cosine score_leb list_sort model true_edges false_edges
       = Ok (mkThresholded (true_list s) (prediction_list s) t
               (map (predict score_leb t) (prediction_list s))) /\
       true_list s = replicate (length (prediction_list s)) 0 /\
       evaluate cosine score_leb list_sort sklearn_metrics model true_edges false_edges
       = sklearn_metrics (true_list s) (prediction_list s)
           (map (predict score_leb t) (prediction_list s)) /\
       (float_order score_leb -> no_nan score_leb (prediction_list s) ->
        (forall x, In x (prediction_list s) -> score_leb t x = true) /\
        map (predict score_leb t) (prediction_list s)
        = map (fun _ => 1) (prediction_list s))).
Proof.
  intros s Hsort. split; [apply true_num_le_scored|]. split.
  - intros Hnil.
    assert (H0 : true_num s = 0).
    { pose proof (true_num_le_scored model true_edges false_edges) as H.
      fold s in H. rewrite Hnil in H. simpl in H. lia. }
    assert (Hsorted : list_sort (prediction_list s) = []).
    { apply Permutation_nil. symmetry. rewrite Hnil. apply (proj1 Hsort). }
    assert (E : evaluate_locals cosine score_leb list_sort model true_edges false_edges
                = Raise IndexError).
    { unfold evaluate_locals. fold s. by rewrite H0, Hsorted. }
    split; [done|]. unfold evaluate. by rewrite E.
  - intros H0 Hne.
    pose proof (proj1 Hsort (prediction_list s)) as Hp.
    destruct (list_sort (prediction_list s)) as [|t rest] eqn:E.
    { apply Permutation_nil in Hp. done. }
    exists t. split; [done|].
    assert (Hrun : evaluate_locals cosine score_leb list_sort model true_edges
                     false_edges
                   = Ok (mkThresholded (true_list s) (prediction_list s) t
                           (map (predict score_leb t) (prediction_list s)))).
    { unfold evaluate_locals. fold s. rewrite H0, E.
      by rewrite py_index_minus_zero. }
    split; [done|]. split; [by apply labels_without_true_edge|].
    split; [unfold evaluate; by rewrite Hrun|].
    intros Horder Hnan.
    assert (Hall : forall x, In x (prediction_list s) -> score_leb t x = true).
    { intros x Hx.
      pose proof (stable_ascending_sorted Horder (prediction_list s) Hnan) as Hs.
      rewrite <- (proj2 (proj2 Hsort) _ Hnan), E in Hs.
      apply (Permutation_in _ (Permutation_sym Hp)) in Hx.
      destruct Hx as [<-|Hx].
      - apply Hnan. eapply Permutation_in; [exact Hp|by left].
      - inversion Hs as [|? ? _ Hf]; subst.
        rewrite List.Forall_forall in Hf. by apply Hf. }
    split; [done|].
    apply map_ext_in. intros x Hx. unfold predict. by rewrite Hall.
Qed.

End EvaluatorFacts.

Lemma Z_leb_float_order : float_order Z.leb.
Proof.
  split.
  - intros a b c. rewrite !Z.leb_le. lia.
  - intros a b _ _. destruct (Z.leb_spec a b), (Z.leb_spec b a); auto; lia.
Qed.

Lemma Z_no_nan (l : list Z) : no_nan Z.leb l.
Proof. intros x _. apply Z.leb_refl. Qed.

Lemma sample_float_order : float_order sample_float_leb.
Proof.
  split.
  - intros [a|] [b|] [c|]; simpl; try done. rewrite !Z.leb_le. lia.
  - intros [a|] [b|]; simpl; try done. intros _ _.
    destruct (Z.leb_spec a b), (Z.leb_spec b a); auto; lia.
Qed.

Lemma C8_witness :
  (sample_model !! "a" = None \/ sample_model !! "z" = None) /\
  get_score sample_cosine sample_model "a" "z" = None /\
  record_edges sample_cosine sample_model ([("a", "b")] ++ ("a", "z") :: []) []
  = record_edges sample_cosine sample_model ([("a", "b")] ++ []) [].
Proof.
  assert (H : sample_model !! "a" = None \/ sample_model !! "z" = None)
    by (right; reflexivity).
  destruct (C8_unscoreable_edge_is_skipped (metrics := list nat)
              sample_cosine Z.leb (sample_sort Z.leb) sample_metrics
              sample_model "a" "z" H)
    as (H1 & H2 & _).
  split; [exact H|]. split; [exact H1|].
  exact (proj1 (H2 [("a", "b")] [] [])).
Defined.

Lemma C2_witness :
  float_order Z.leb /\
  python_sort Z.leb (sample_sort Z.leb) /\
  no_nan Z.leb [2; 6; 3; 1; 9]%Z /\
  1 <= true_num (record_edges sample_cosine sample_model
                   [("a", "b"); ("b", "c")] [("a", "c"); ("a", "a"); ("c", "c")]) /\
  (exists r,
     evaluate_locals sample_cosine Z.leb (sample_sort Z.leb) sample_model
       [("a", "b"); ("b", "c")] [("a", "c"); ("a", "a"); ("c", "c")] = Ok r /\
     kth_largest Z.leb 2 [2; 6; 3; 1; 9]%Z (threshold r)) /\
  float_order sample_float_leb /\
  python_sort sample_float_leb (sample_sort sample_float_leb) /\
  no_nan sample_float_leb [Finite (-1); Finite 1] /\
  exists r,
    evaluate_locals unit_cosine sample_float_leb (sample_sort sample_float_leb)
      zero_model [("a", "c")] [("a", "b")] = Ok r /\
    kth_largest sample_float_leb 1 [Finite (-1); Finite 1] (threshold r).
Proof.
  split; [exact Z_leb_float_order|].
  split; [exact (sample_sort_python_sort Z.leb Z_leb_float_order)|].
  split; [apply Z_no_nan|].
  split; [vm_compute; lia|].
  split.
  { destruct (C2_threshold_is_rank_matched sample_cosine Z.leb (sample_sort Z.leb)
                sample_model [("a", "b"); ("b", "c")]
                [("a", "c"); ("a", "a"); ("c", "c")] Z_leb_float_order
                (sample_sort_python_sort Z.leb Z_leb_float_order))
      as (_ & Hrank).
    destruct Hrank as (r & Hr & _ & _ & _ & _ & _ & Hk & _).
    - apply Z_no_nan.
    - vm_compute; lia.
    - vm_compute; lia.
    - exists r. split; [exact Hr|exact Hk]. }
  assert (Hnan : no_nan sample_float_leb [Finite (-1); Finite 1]).
  { intros y [<-|[<-|[]]]; reflexivity. }
  split; [exact sample_float_order|].
  split; [exact (sample_sort_python_sort sample_float_leb sample_float_order)|].
  split; [exact Hnan|].
  destruct (C2_threshold_is_rank_matched unit_cosine sample_float_leb
              (sample_sort sample_float_leb) zero_model [("a", "c")] [("a", "b")]
              sample_float_order
              (sample_sort_python_sort sample_float_leb sample_float_order))
    as (_ & Hrank).
  destruct Hrank as (r & Hr & _ & _ & _ & _ & _ & Hk & _).
  - exact Hnan.
  - vm_compute; lia.
  - vm_compute; lia.
  - exists r. split; [exact Hr|exact Hk].
Defined.

(** With the vectors a = [1], b = [2], c = [-1] and z = [0], the true edge
    (a, b) and the false edges (a, z) and (a, c), whatever [list.sort]
    does on other lists, the threshold is the last of the three recorded
    scores. *)
Lemma nan_keeps_the_run (list_sort : list sample_float -> list sample_float) :
  python_sort sample_float_leb list_sort ->
  evaluate_locals unit_cosine sample_float_leb list_sort
    zero_model [("a", "b")] [("a", "z"); ("a", "c")]
  = Ok (mkThresholded [1; 0; 0] [Finite 1; NaN; Finite (-1)] (Finite (-1)) [1; 0; 1]).
Proof.
  intros (_ & Hrun & _). unfold evaluate_locals.
  change (record_edges unit_cosine zero_model [("a", "b")] [("a", "z"); ("a", "c")])
    with (mkRecorded [1; 0; 0] [Finite 1; NaN; Finite (-1)] 1).
  cbn [prediction_list true_num true_list].
  rewrite Hrun by reflexivity. reflexivity.
Qed.

(** C2 fails on the code when a recorded score is NaN. With the vectors
    a = [1], b = [2], c = [-1] and z = [0], the true edge (a, b) and the
    false edges (a, z) and (a, c), the recorded scores are 1.0, nan and
    -1.0 and [true_num] is 1. No score compares below the score before it,
    so [list.sort] leaves the list as it is; the threshold, read one place
    before the end, is -1.0, the smallest score and not the largest: one
    score is strictly above it, and two edges are predicted positive. *)
Lemma C2_counterexample :
  record_edges unit_cosine zero_model [("a", "b")] [("a", "z"); ("a", "c")]
  = mkRecorded [1; 0; 0] [Finite 1; NaN; Finite (-1)] 1 /\
  no_descent sample_float_leb [Finite 1; NaN; Finite (-1)] = true /\
  evaluate_locals unit_cosine sample_float_leb (sample_sort sample_float_leb)
    zero_model [("a", "b")] [("a", "z"); ("a", "c")]
  = Ok (mkThresholded [1; 0; 0] [Finite 1; NaN; Finite (-1)] (Finite (-1)) [1; 0; 1]) /\
  count_above sample_float_leb (Finite (-1)) [Finite 1; NaN; Finite (-1)] = 1.
Proof. repeat split; reflexivity. Qed.

(** C1 fails on the code. With no edge scored, [evaluate] indexes an empty
    list and ends with the [IndexError] of that index, before any metric
    is computed. With no true edge and one scoreable false edge,
    [true_num] is 0 and lines 279 to 286 raise nothing: the threshold is
    read at index [-0] and the edge is predicted positive. *)
Lemma C1_counterexample :
  evaluate sample_cosine Z.leb (sample_sort Z.leb) sample_metrics sample_model [] []
  = Raise IndexError /\
  true_num (record_edges sample_cosine sample_model [] [("a", "b")]) = 0 /\
  evaluate_locals sample_cosine Z.leb (sample_sort Z.leb) sample_model [] [("a", "b")]
  = Ok (mkThresholded [0] [2%Z] 2%Z [1]).
Proof. repeat split; reflexivity. Qed.

Lemma C1_witness :
  python_sort Z.leb (sample_sort Z.leb) /\
  prediction_list (record_edges sample_cosine sample_model [("a", "z")] []) = [] /\
  evaluate sample_cosine Z.leb (sample_sort Z.leb) sample_metrics sample_model
    [("a", "z")] []
  = Raise IndexError /\
  true_num (record_edges sample_cosine sample_model [] [("a", "b"); ("a", "a")]) = 0 /\
  exists t,
    evaluate_locals sample_cosine Z.leb (sample_sort Z.leb) sample_model
      [] [("a", "b"); ("a", "a")]
    = Ok (mkThresholded [0; 0] [2; 1]%Z t [1; 1]).
Proof.
  pose proof (sample_sort_python_sort Z.leb Z_leb_float_order) as Hsort.
  pose proof (C1_rank_index_is_unguarded (metrics := list nat)
                sample_cosine Z.leb (sample_sort Z.leb) sample_metrics
                sample_model [("a", "z")] [] Hsort) as (_ & Hraise & _).
  pose proof (C1_rank_index_is_unguarded (metrics := list nat)
                sample_cosine Z.leb (sample_sort Z.leb) sample_metrics
                sample_model [] [("a", "b"); ("a", "a")] Hsort) as (_ & _ & Hzero).
  split; [exact Hsort|].
  split; [reflexivity|]. split; [exact (proj2 (Hraise eq_refl))|].
  split; [reflexivity|].
  destruct (Hzero eq_refl) as (t & _ & Ht & _ & _ & Hall); [by vm_compute|].
  exists t. rewrite Ht.
  destruct (Hall Z_leb_float_order (Z_no_nan _)) as [_ Hpred].
  rewrite Hpred. reflexivity.
Defined.

(** ** The training pairs *)

Lemma for_each_cons {A S : Type} (x : A) (xs : list A) (body : A -> S -> result S)
    (s : S) :
  for_each (x :: xs) body s = body x s ≫= for_each xs body.
Proof. reflexivity. Qed.

Lemma for_each_app {A S : Type} (xs ys : list A) (body : A -> S -> result S) (s : S) :
  for_each (xs ++ ys) body s = for_each xs body s ≫= for_each ys body.
Proof.
  revert s. induction xs as [|x xs IH]; intros s; [done|].
  cbn [app]. rewrite !for_each_cons.
  destruct (body x s) as [s'|e]; [|done]. cbn [mbind result_bind]. apply IH.
Qed.

Lemma for_each_map_append {A A' B : Type} (g : A' -> A) (xs : list A')
    (body : A -> list B -> result (list B)) (f : A' -> list B) :
  (forall x s, In x xs -> body (g x) s = Ok (s ++ f x)) ->
  forall s, for_each (map g xs) body s = Ok (s ++ flat_map f xs).
Proof.
  induction xs as [|x xs IH]; intros H s; simpl.
  - by rewrite app_nil_r.
  - rewrite (H x s) by (simpl; auto). simpl.
    rewrite IH by (intros; apply H; simpl; auto).
    by rewrite app_assoc.
Qed.

Lemma for_each_append {A B : Type} (xs : list A)
    (body : A -> list B -> result (list B)) (f : A -> list B) :
  (forall x s, In x xs -> body x s = Ok (s ++ f x)) ->
  forall s, for_each xs body s = Ok (s ++ flat_map f xs).
Proof.
  intros H s. rewrite <- (map_id xs) at 1.
  by apply (for_each_map_append (fun x => x)).
Qed.

Lemma py_range_of_nat (a b : Z) :
  (0 <= a)%Z ->
  py_range a b = map Z.of_nat (seq (Z.to_nat a) (Z.to_nat (b - a))).
Proof.
  intros Ha. unfold py_range.
  generalize (Z.to_nat (b - a)) as n. intros n.
  rewrite <- (Nat.add_0_l (Z.to_nat a)) at 1.
  assert (G : forall k, map (fun i => (a + Z.of_nat i)%Z) (seq k n)
              = map Z.of_nat (seq (k + Z.to_nat a) n)).
  { induction n as [|n IH]; intros k; simpl; [done|].
    f_equal; [lia|]. apply (IH (S k)). }
  apply (G 0).
Qed.

Lemma py_index_of_nat {A : Type} (l : list A) (i : nat) :
  i < length l -> py_index l (Z.of_nat i) = list_get l i.
Proof.
  intros Hi. unfold py_index, py_position. cbv zeta.
  assert (E1 : (Z.of_nat i <? 0)%Z = false) by lia.
  assert (E2 : (Z.of_nat (length l) <=? Z.of_nat i)%Z = false) by lia.
  rewrite E1. cbv iota. rewrite E1, E2. simpl. by rewrite Nat2Z.id.
Qed.

Lemma vocab_index_of vocab word :
  is_Some (vocab !! word) -> vocab_index vocab word = Ok (index_of vocab word).
Proof.
  intros [v Hv]. unfold vocab_index, index_of, dict_get. by rewrite Hv.
Qed.

Lemma pairs_at_spec vocab layer walk i j pairs :
  (forall word, In word walk -> is_Some (vocab !! word)) ->
  i < length walk ->
  pairs_at vocab layer walk (Z.of_nat i) (Z.of_nat j) pairs
  = Ok (pairs ++ window_pairs_at vocab layer walk i j).
Proof.
  intros Hv Hi. unfold pairs_at, window_pairs_at.
  assert (Hget : forall k, k < length walk -> exists w,
            walk !! k = Some w /\ py_index walk (Z.of_nat k) = Ok w /\
            vocab_index vocab w = Ok (index_of vocab w)).
  { intros k Hk. destruct (lookup_lt_is_Some_2 walk k Hk) as [w Hw].
    exists w. split; [done|]. split.
    - rewrite py_index_of_nat by done. unfold list_get. by rewrite Hw.
    - apply vocab_index_of, Hv. apply list_elem_of_In.
      eapply list_elem_of_lookup_2. exact Hw. }
  destruct (Hget i Hi) as (w & Hw & Hpw & Hvw).
  assert (Hleft :
    (if (Z.of_nat i - Z.of_nat j >=? 0)%Z
     then w0 ← py_index walk (Z.of_nat i); c ← vocab_index vocab w0;
          w' ← py_index walk (Z.of_nat i - Z.of_nat j);
          c' ← vocab_index vocab w'; Ok (pairs ++ [(c, c', layer)])
     else Ok pairs)
    = Ok (pairs ++
          (if j <=? i then
             match walk !! i, walk !! (i - j) with
             | Some w, Some w' => [(index_of vocab w, index_of vocab w', layer)]
             | _, _ => []
             end
           else []))).
  { destruct (Nat.leb_spec j i) as [Hji|Hji].
    - destruct (Z.geb_spec (Z.of_nat i - Z.of_nat j) 0); [|lia].
      destruct (Hget (i - j)) as (w' & Hw' & Hpw' & Hvw'); [lia|].
      replace (Z.of_nat i - Z.of_nat j)%Z with (Z.of_nat (i - j)) by lia.
      rewrite Hpw. simpl. rewrite Hvw. simpl. rewrite Hpw'. simpl.
      rewrite Hvw'. simpl. by rewrite Hw, Hw'.
    - destruct (Z.geb_spec (Z.of_nat i - Z.of_nat j) 0); [lia|].
      by rewrite app_nil_r. }
  rewrite Hleft. simpl.
  destruct (Nat.ltb_spec (i + j) (length walk)) as [Hij|Hij].
  - destruct (Z.ltb_spec (Z.of_nat i + Z.of_nat j) (Z.of_nat (length walk))); [|lia].
    destruct (Hget (i + j) Hij) as (w' & Hw' & Hpw' & Hvw').
    replace (Z.of_nat i + Z.of_nat j)%Z with (Z.of_nat (i + j)) by lia.
    rewrite Hpw. simpl. rewrite Hvw. simpl. rewrite Hpw'. simpl.
    rewrite Hvw'. simpl. rewrite Hw, Hw'. by rewrite app_assoc.
  - destruct (Z.ltb_spec (Z.of_nat i + Z.of_nat j) (Z.of_nat (length walk))); [lia|].
    by rewrite app_nil_r.
Qed.

Lemma pairs_of_walk_spec vocab skip_window layer walk pairs :
  (forall word, In word walk -> is_Some (vocab !! word)) ->
  pairs_of_walk vocab skip_window layer walk pairs
  = Ok (pairs ++ window_pairs_of_walk vocab (Z.to_nat skip_window) layer walk).
Proof.
  intros Hv. unfold pairs_of_walk, window_pairs_of_walk.
  rewrite (py_range_of_nat 0) by lia.
  rewrite (py_range_of_nat 1) by lia.
  replace (Z.to_nat (Z.of_nat (length walk) - 0)) with (length walk) by lia.
  replace (Z.to_nat (skip_window + 1 - 1)) with (Z.to_nat skip_window) by lia.
  change (Z.to_nat 0) with 0. change (Z.to_nat 1) with 1.
  apply for_each_map_append. intros i s Hi.
  apply in_seq in Hi.
  apply for_each_map_append. intros j s' _.
  apply pairs_at_spec; [done|lia].
Qed.

Lemma in_enumerate {A : Type} (xs : list A) (k : nat) (x : A) :
  In (k, x) (enumerate xs) <-> xs !! k = Some x.
Proof.
  unfold enumerate.
  assert (G : forall a, In (k, x) (zip (seq a (length xs)) xs)
                        <-> a <= k /\ xs !! (k - a) = Some x).
  { induction xs as [|y xs IH]; intros a; simpl.
    - split; [done|]. by intros [_ ?].
    - rewrite IH. split.
      + intros [[= -> ->]|[Hle Hk]].
        * split; [lia|]. by rewrite Nat.sub_diag.
        * split; [lia|]. by replace (k - a) with (S (k - S a)) by lia.
      + intros [Hle Hk]. destruct (decide (k = a)) as [->|Hne].
        * left. rewrite Nat.sub_diag in Hk. simpl in Hk. congruence.
        * right. split; [lia|].
          by replace (k - a) with (S (k - S a)) in Hk by lia. }
  rewrite G, Nat.sub_0_r. split; [by intros [_ ?]|]. split; [lia|done].
Qed.

Lemma in_window_pairs_at vocab layer walk i j c x l :
  In (c, x, l) (window_pairs_at vocab layer walk i j) <->
  l = layer /\ exists wi wc,
    walk !! i = Some wi /\
    ((j <= i /\ walk !! (i - j) = Some wc) \/ walk !! (i + j) = Some wc) /\
    c = index_of vocab wi /\ x = index_of vocab wc.
Proof.
  unfold window_pairs_at. rewrite in_app_iff. split.
  - intros [H|H].
    + destruct (Nat.leb_spec j i); [|done].
      destruct (walk !! i) as [wi|] eqn:Ei; [|done].
      destruct (walk !! (i - j)) as [wc|] eqn:Ec; [|done].
      destruct H as [[= <- <- <-]|[]]. split; [done|]. exists wi, wc. auto.
    + destruct (Nat.ltb_spec (i + j) (length walk)); [|done].
      destruct (walk !! i) as [wi|] eqn:Ei; [|done].
      destruct (walk !! (i + j)) as [wc|] eqn:Ec; [|done].
      destruct H as [[= <- <- <-]|[]]. split; [done|]. exists wi, wc. auto.
  - intros (-> & wi & wc & Hi & [[Hji Hc]|Hc] & -> & ->).
    + left. destruct (Nat.leb_spec j i); [|lia]. rewrite Hi, Hc. simpl. auto.
    + right. apply lookup_lt_Some in Hc as Hlt.
      destruct (Nat.ltb_spec (i + j) (length walk)); [|lia].
      rewrite Hi, Hc. simpl. auto.
Qed.

Lemma in_window_pairs vocab half all_walks c x l :
  In (c, x, l) (window_pairs vocab half all_walks) <->
  exists walks walk i j wi wc,
    all_walks !! l = Some walks /\ In walk walks /\
    1 <= j <= half /\
    walk !! i = Some wi /\
    ((j <= i /\ walk !! (i - j) = Some wc) \/ walk !! (i + j) = Some wc) /\
    c = index_of vocab wi /\ x = index_of vocab wc.
Proof.
  unfold window_pairs, window_pairs_of_walk. rewrite in_flat_map. split.
  - intros ([layer walks] & Hl & H). apply in_enumerate in Hl.
    apply in_flat_map in H as (walk & Hw & H).
    apply in_flat_map in H as (i & Hi & H).
    apply in_flat_map in H as (j & Hj & H).
    apply in_seq in Hj.
    apply in_window_pairs_at in H as (-> & wi & wc & H1 & H2 & H3 & H4).
    exists walks, walk, i, j, wi, wc. repeat split; auto; lia.
  - intros (walks & walk & i & j & wi & wc & Hl & Hw & Hj & Hi & Hc & -> & ->).
    exists (l, walks). split; [by apply in_enumerate|].
    apply in_flat_map. exists walk. split; [done|].
    apply in_flat_map. exists i. split.
    { apply in_seq. apply lookup_lt_Some in Hi. lia. }
    apply in_flat_map. exists j. split; [apply in_seq; lia|].
    apply in_window_pairs_at. split; [done|]. exists wi, wc. auto.
Qed.

Lemma generate_pairs_spec all_walks vocab window_size num_workers :
  walks_in_vocab vocab all_walks ->
  generate_pairs all_walks vocab window_size num_workers
  = Ok (window_pairs vocab (Z.to_nat (window_size / 2)) all_walks).
Proof.
  intros Hv. unfold generate_pairs, window_pairs.
  rewrite <- (app_nil_l (flat_map _ _)).
  apply for_each_append. intros [layer walks] s Hl.
  apply in_enumerate in Hl.
  apply for_each_append. intros walk s' Hw.
  apply pairs_of_walk_spec. intros word Hword.
  eapply Hv; [|exact Hw|exact Hword].
  apply list_elem_of_In. eapply list_elem_of_lookup_2. exact Hl.
Qed.

(** C6. With half = windowSize // 2 and every word of the walks in the
    vocabulary, [generate_pairs] returns the triples of the window rule, in
    the order of the layers, walks, positions and distances: a triple
    (c, x, l) is emitted exactly when some walk of layer l has, at some
    position i and for some distance j in [1, half], a word of index c at i
    and a word of index x at i - j (with i - j >= 0) or at i + j (within the
    walk), so that both words come from one walk of one layer; on the walk
    [a, b, c] in layer 0 with windowSize 2 the result is the four triples
    (a, b, 0), (b, a, 0), (b, c, 0), (c, b, 0). *)
Theorem C6_generate_pairs_is_the_window_rule (vocab : gmap string Vocab) :
  (forall all_walks window_size num_workers,
     walks_in_vocab vocab all_walks ->
     exists pairs,
       generate_pairs all_walks vocab window_size num_workers = Ok pairs /\
       pairs = window_pairs vocab (Z.to_nat (window_size / 2)) all_walks /\
       forall c x l,
         In (c, x, l) pairs <->
         exists walks walk i j wi wc,
           all_walks !! l = Some walks /\ In walk walks /\
           (1 <= j /\ (Z.of_nat j <= window_size / 2)%Z) /\
           walk !! i = Some wi /\
           ((j <= i /\ walk !! (i - j) = Some wc) \/ walk !! (i + j) = Some wc) /\
           c = index_of vocab wi /\ x = index_of vocab wc) /\
  (forall a b c va vb vc num_workers,
     vocab !! a = Some va -> vocab !! b = Some vb -> vocab !! c = Some vc ->
     generate_pairs [[[a; b; c]]] vocab 2 num_workers
     = Ok [(index va, index vb, 0); (index vb, index va, 0);
           (index vb, index vc, 0); (index vc, index vb, 0)]).
Proof.
  split.
  - intros all_walks window_size num_workers Hv. eexists. split; [by apply generate_pairs_spec|].
    split; [done|]. intros c x l. rewrite in_window_pairs.
    split; intros (walks & walk & i & j & wi & wc & H1 & H2 & H3 & H);
      exists walks, walk, i, j, wi, wc; (split; [done|]); (split; [done|]);
      (split; [|done]); lia.
  - intros a b c va vb vc num_workers Ha Hb Hc.
    rewrite generate_pairs_spec.
    + change (Z.to_nat (2 / 2)) with 1.
      unfold window_pairs, enumerate, window_pairs_of_walk, window_pairs_at.
      simpl. unfold index_of. by rewrite Ha, Hb, Hc.
    + intros walks walk word [<-|[]] [<-|[]] [<-|[<-|[<-|[]]]]; eauto.
Qed.

Lemma sample_walk_in_vocab : walks_in_vocab sample_vocab [[["a"; "b"; "c"]]].
Proof.
  intros walks walk word [<-|[]] [<-|[]] [<-|[<-|[<-|[]]]]; by eexists.
Qed.

Lemma C6_witness :
  walks_in_vocab sample_vocab [[["a"; "b"; "c"]]] /\
  (exists pairs,
     generate_pairs [[["a"; "b"; "c"]]] sample_vocab 2 16 = Ok pairs /\
     pairs = window_pairs sample_vocab 1 [[["a"; "b"; "c"]]]) /\
  generate_pairs [[["a"; "b"; "c"]]] sample_vocab 2 16
  = Ok [(0, 1, 0); (1, 0, 0); (1, 2, 0); (2, 1, 0)].
Proof.
  destruct (C6_generate_pairs_is_the_window_rule sample_vocab) as [Hgen Hex].
  split; [exact sample_walk_in_vocab|]. split.
  - destruct (Hgen [[["a"; "b"; "c"]]] 2%Z 16%Z sample_walk_in_vocab)
      as (pairs & H1 & H2 & _).
    exists pairs. split; [exact H1|exact H2].
  - exact (Hex "a" "b" "c" (mkVocab 2 0) (mkVocab 2 1) (mkVocab 1 2) 16%Z
             eq_refl eq_refl eq_refl).
Defined.

(** ** The vocabulary *)

Lemma fold_left_concat {A B : Type} (f : A -> B -> A) (ls : list (list B)) :
  forall a, fold_left (fun a l => fold_left f l a) ls a = fold_left f (concat ls) a.
Proof.
  induction ls as [|l ls IH]; intros a; simpl; [done|].
  by rewrite fold_left_app, IH.
Qed.

Lemma count_all_tokens all_walks :
  count_all all_walks
  = fold_left (fun d word => counter_incr word d) (tokens all_walks) [].
Proof.
  unfold count_all, tokens.
  change count_walks with (fun a l => fold_left count_walk l a).
  rewrite (fold_left_concat count_walk).
  change count_walk
    with (fun a l => fold_left (fun d word => counter_incr word d) l a).
  by rewrite (fold_left_concat (fun d word => counter_incr word d)).
Qed.

Lemma counter_incr_get word d w :
  counter_get (counter_incr word d) w
  = counter_get d w + (if decide (word = w) then 1 else 0).
Proof.
  induction d as [|[k v] d IH]; simpl.
  - destruct (decide (word = w)); done.
  - destruct (decide (k = word)) as [->|Hk]; simpl.
    + destruct (decide (word = w)); lia.
    + destruct (decide (k = w)) as [->|Hw]; [|done].
      destruct (decide (word = w)); [congruence|lia].
Qed.

Lemma counter_incr_keys word d w :
  In w (map fst (counter_incr word d)) <-> In w (map fst d) \/ w = word.
Proof.
  induction d as [|[k v] d IH]; simpl.
  - naive_solver.
  - destruct (decide (k = word)) as [->|Hk]; simpl; [naive_solver|].
    rewrite IH. tauto.
Qed.

Lemma counter_incr_NoDup word d :
  List.NoDup (map fst d) -> List.NoDup (map fst (counter_incr word d)).
Proof.
  induction d as [|[k v] d IH]; simpl; intros Hd.
  - repeat constructor. by intros [].
  - inversion Hd as [|? ? Hk Hd']; subst.
    destruct (decide (k = word)) as [->|Hne]; simpl; [by constructor|].
    constructor; [|by apply IH].
    rewrite counter_incr_keys. naive_solver.
Qed.

Lemma occurrences_cons word x l :
  occurrences word (x :: l)
  = (if decide (x = word) then 1 else 0) + occurrences word l.
Proof.
  unfold occurrences. simpl.
  destruct (decide (x = word)) as [->|Hne].
  - by rewrite bool_decide_eq_true_2.
  - by rewrite bool_decide_eq_false_2.
Qed.

Lemma count_fold_spec toks : forall d,
  List.NoDup (map fst d) ->
  List.NoDup (map fst (fold_left (fun d word => counter_incr word d) toks d)) /\
  (forall w, counter_get (fold_left (fun d word => counter_incr word d) toks d) w
             = counter_get d w + occurrences w toks) /\
  (forall w, In w (map fst (fold_left (fun d word => counter_incr word d) toks d))
             <-> In w (map fst d) \/ In w toks).
Proof.
  induction toks as [|t toks IH]; intros d Hd; simpl.
  - split; [done|]. split; [intros; unfold occurrences; simpl; lia|tauto].
  - destruct (IH (counter_incr t d) (counter_incr_NoDup t d Hd)) as (H1 & H2 & H3).
    split; [done|]. split.
    + intros w. rewrite H2, counter_incr_get, occurrences_cons. lia.
    + intros w. rewrite H3, counter_incr_keys. naive_solver.
Qed.

(** The first loop over the counter creates one entry per key, with the
    count of the key. *)
Lemma first_indices_fold raw : forall (vocab : gmap string Vocab) index2word,
  List.NoDup (map fst raw) ->
  let r := fold_left
             (fun '(vocab, index2word) '(word, v) =>
                (<[word := mkVocab v (length index2word)]> vocab,
                 index2word ++ [word]))
             raw (vocab, index2word) in
  snd r = index2word ++ map fst raw /\
  (forall w, In w (map fst raw) ->
     count <$> (fst r !! w) = Some (counter_get raw w)) /\
  (forall w, ~ In w (map fst raw) -> fst r !! w = vocab !! w).
Proof.
  induction raw as [|[k v] raw IH]; intros vocab index2word Hd; simpl.
  - split; [by rewrite app_nil_r|]. split; [by intros w []|done].
  - inversion Hd as [|? ? Hk Hd']; subst.
    destruct (IH (<[k := mkVocab v (length index2word)]> vocab)
                 (index2word ++ [k]) Hd') as (H1 & H2 & H3).
    split; [by rewrite H1, <- app_assoc|]. split.
    + intros w [->|Hw].
      * rewrite H3 by done. rewrite lookup_insert_eq. simpl.
        by destruct (decide (w = w)).
      * rewrite H2 by done.
        destruct (decide (k = w)) as [->|Hne]; [done|done].
    + intros w Hw. rewrite H3 by tauto.
      rewrite lookup_insert_ne; [done|]. intros ->. tauto.
Qed.

Lemma mapM_ok {A B : Type} (f : A -> result B) (g : A -> B) (l : list A) :
  (forall x, In x l -> f x = Ok (g x)) -> mapM f l = Ok (map g l).
Proof.
  induction l as [|x l IH]; intros H; simpl; [done|].
  rewrite (H x) by (simpl; auto). simpl.
  rewrite IH by (intros; apply H; simpl; auto). done.
Qed.

Lemma insert_desc_perm {A : Type} (x : nat * A) l :
  Permutation (insert_desc x l) (x :: l).
Proof.
  induction l as [|y l IH]; simpl; [done|].
  destruct (fst y <=? fst x); [done|].
  rewrite IH. apply perm_swap.
Qed.

Lemma sort_desc_perm {A : Type} (l : list (nat * A)) : Permutation (sort_desc l) l.
Proof.
  induction l as [|x l IH]; simpl; [done|].
  rewrite insert_desc_perm. by constructor.
Qed.

Lemma insert_desc_sorted {A : Type} (x : nat * A) l :
  StronglySorted (fun a b => fst b <= fst a) l ->
  StronglySorted (fun a b => fst b <= fst a) (insert_desc x l).
Proof.
  induction 1 as [|y l Hl IH Hy]; simpl.
  - repeat constructor.
  - destruct (Nat.leb_spec (fst y) (fst x)) as [Hle|Hlt].
    + constructor; [by constructor|].
      constructor; [done|].
      eapply Forall_impl; [exact Hy|]. simpl. intros z Hz. lia.
    + constructor; [done|].
      rewrite (insert_desc_perm x l). constructor; [lia|done].
Qed.

Lemma sort_desc_sorted {A : Type} (l : list (nat * A)) :
  StronglySorted (fun a b => fst b <= fst a) (sort_desc l).
Proof.
  induction l as [|x l IH]; simpl; [constructor|].
  by apply insert_desc_sorted.
Qed.

Lemma set_index_ok (vocab : gmap string Vocab) i w v :
  vocab !! w = Some v ->
  set_index (i, w) vocab = Ok (<[w := mkVocab (count v) i]> vocab).
Proof. intros Hv. unfold set_index, dict_get. simpl. by rewrite Hv. Qed.

(** The last loop gives every word its position and keeps its count. *)
Lemma for_each_set_index l : forall vocab : gmap string Vocab,
  List.NoDup (map snd l) ->
  (forall iw, In iw l -> is_Some (vocab !! snd iw)) ->
  exists vocab' : gmap string Vocab,
    for_each l set_index vocab = Ok vocab' /\
    (forall i w, In (i, w) l -> exists v,
       vocab !! w = Some v /\ vocab' !! w = Some (mkVocab (count v) i)) /\
    (forall w, ~ In w (map snd l) -> vocab' !! w = vocab !! w).
Proof.
  induction l as [|[i w] l IH]; intros vocab Hd Hin; simpl.
  - exists vocab. split; [done|]. split; [by intros ? ? []|done].
  - inversion Hd as [|? ? Hw Hd']; subst.
    destruct (Hin (i, w)) as [v Hv]; [simpl; auto|]. simpl in Hv.
    rewrite (set_index_ok vocab i w v Hv). simpl.
    destruct (IH (<[w := mkVocab (count v) i]> vocab) Hd') as (vocab' & H1 & H2 & H3).
    { intros iw Hiw. destruct (decide (w = snd iw)) as [->|Hne].
      - rewrite lookup_insert_eq. by eexists.
      - rewrite lookup_insert_ne by done. apply Hin. simpl. auto. }
    exists vocab'. split; [done|]. split.
    + intros j w' [[= -> ->]|Hj].
      * exists v. split; [done|]. rewrite H3 by done. apply lookup_insert_eq.
      * destruct (H2 j w' Hj) as (v1 & Hv1 & Hv1').
        assert (w <> w').
        { intros ->. apply Hw. apply in_map_iff. by exists (j, w'). }
        rewrite lookup_insert_ne in Hv1 by done. eauto.
    + intros w' Hw'. rewrite H3 by tauto.
      rewrite lookup_insert_ne; [done|]. intros ->. tauto.
Qed.

Lemma snd_enumerate {A : Type} (l : list A) : map snd (enumerate l) = l.
Proof.
  unfold enumerate. apply snd_zip. by rewrite length_seq.
Qed.

(** What [generate_vocab] returns, word by word and position by position. *)
Lemma generate_vocab_spec all_walks :
  exists (vocab : gmap string Vocab) (index2word : list string),
    generate_vocab all_walks = Ok (vocab, index2word) /\
    List.NoDup index2word /\
    (forall w, In w index2word <-> In w (tokens all_walks)) /\
    (forall i w, index2word !! i = Some w ->
       vocab !! w = Some (mkVocab (occurrences w (tokens all_walks)) i)) /\
    (forall w, ~ In w index2word -> vocab !! w = None) /\
    (forall i j wi wj, i < j -> index2word !! i = Some wi -> index2word !! j = Some wj ->
       occurrences wj (tokens all_walks) <= occurrences wi (tokens all_walks)).
Proof.
  unfold generate_vocab.
  destruct (count_fold_spec (tokens all_walks) [] (List.NoDup_nil _))
    as (Hnd & Hget & Hkeys).
  rewrite <- count_all_tokens in Hnd, Hget, Hkeys.
  set (toks := tokens all_walks) in *.
  set (raw := count_all all_walks) in *.
  pose proof (first_indices_fold raw ∅ [] Hnd) as Hfirst.
  change (fold_left _ raw (∅, [])) with (first_indices raw) in Hfirst.
  destruct (first_indices raw) as [vocab0 i2w0]. simpl in Hfirst.
  destruct Hfirst as (-> & Hcount & Hnone).
  set (key := fun w : string => (occurrences w toks, w)).
  assert (Hdict : forall w, In w (map fst raw) -> exists v,
            vocab0 !! w = Some v /\ count v = occurrences w toks).
  { intros w Hw. specialize (Hcount w Hw).
    destruct (vocab0 !! w) as [v|]; [|done]. exists v. split; [done|].
    simpl in Hcount. injection Hcount as ->. rewrite Hget. simpl. lia. }
  unfold sort_by_count.
  rewrite (mapM_ok _ key).
  2:{ intros w Hw. destruct (Hdict w Hw) as (v & Hv & Hc).
      unfold dict_get. rewrite Hv. simpl. unfold key. by rewrite Hc. }
  simpl.
  set (sorted := sort_desc (map key (map fst raw))).
  assert (Hperm : Permutation sorted (map key (map fst raw)))
    by apply sort_desc_perm.
  assert (Hsorted : StronglySorted (fun a b => fst b <= fst a) sorted)
    by apply sort_desc_sorted.
  assert (Hkeyed : forall p, In p sorted -> p = key (snd p)).
  { intros p Hp. apply (Permutation_in _ Hperm) in Hp.
    apply in_map_iff in Hp as (w & <- & _). done. }
  assert (Hperm2 : Permutation (map snd sorted) (map fst raw)).
  { rewrite Hperm. rewrite map_map. simpl. by rewrite map_id. }
  set (i2w := map snd sorted) in *.
  assert (Hnd2 : List.NoDup i2w).
  { eapply Permutation_NoDup; [symmetry; exact Hperm2|exact Hnd]. }
  assert (Hmem : forall w, In w i2w <-> In w toks).
  { intros w. split.
    - intros H. apply (Permutation_in _ Hperm2) in H.
      apply Hkeys in H as [[]|H]. done.
    - intros H. apply (Permutation_in _ (Permutation_sym Hperm2)).
      apply Hkeys. by right. }
  destruct (for_each_set_index (enumerate i2w) vocab0) as (vocab' & Hrun & Hset & Hrest).
  { by rewrite snd_enumerate. }
  { intros [i w] Hiw. apply in_enumerate in Hiw. simpl.
    destruct (Hdict w) as (v & Hv & _); [|by eexists].
    apply (Permutation_in _ Hperm2). apply list_elem_of_In.
    eapply list_elem_of_lookup_2. exact Hiw. }
  rewrite Hrun. simpl. exists vocab', i2w.
  split; [done|]. split; [done|]. split; [done|]. split; [|split].
  - intros i w Hiw. destruct (Hset i w) as (v & Hv & Hv'); [by apply in_enumerate|].
    rewrite Hv'. destruct (Hdict w) as (v2 & Hv2 & Hc2).
    { apply (Permutation_in _ Hperm2). apply list_elem_of_In.
      eapply list_elem_of_lookup_2. exact Hiw. }
    rewrite Hv in Hv2. injection Hv2 as ->. by rewrite Hc2.
  - intros w Hw. rewrite Hrest by (by rewrite snd_enumerate).
    rewrite Hnone; [apply lookup_empty|].
    intros Hin. apply Hw. by apply (Permutation_in _ (Permutation_sym Hperm2)).
  - intros i j wi wj Hij Hi Hj. unfold i2w in Hi, Hj.
    rewrite list_lookup_fmap in Hi, Hj.
    destruct (sorted !! i) as [pi|] eqn:Ei; [|done].
    destruct (sorted !! j) as [pj|] eqn:Ej; [|done].
    simpl in Hi, Hj. injection Hi as <-. injection Hj as <-.
    pose proof (take_drop_middle _ _ _ Ei) as Hsplit.
    rewrite <- Hsplit in Hsorted.
    apply StronglySorted_app_1_r in Hsorted.
    inversion Hsorted as [|? ? _ Hall]; subst.
    rewrite List.Forall_forall in Hall.
    assert (Hin : In pj (drop (S i) sorted)).
    { apply list_elem_of_In. apply list_elem_of_lookup. exists (j - S i).
      rewrite lookup_drop. by replace (S i + (j - S i)) with j by lia. }
    specialize (Hall pj Hin).
    rewrite (Hkeyed pi), (Hkeyed pj) in Hall.
    + exact Hall.
    + apply list_elem_of_In. eapply list_elem_of_lookup_2. exact Ej.
    + apply list_elem_of_In. eapply list_elem_of_lookup_2. exact Ei.
Qed.

Lemma vocab_size (vocab : gmap string Vocab) (index2word : list string) :
  List.NoDup index2word ->
  (forall w, In w index2word -> is_Some (vocab !! w)) ->
  (forall w, ~ In w index2word -> vocab !! w = None) ->
  size vocab = length index2word.
Proof.
  intros Hnd Hin Hout.
  rewrite <- size_dom.
  assert (E : dom vocab = list_to_set index2word).
  { apply set_eq. intros w. rewrite elem_of_dom, elem_of_list_to_set.
    rewrite list_elem_of_In. split.
    - intros Hs. destruct (decide (w ∈ index2word)) as [H|H].
      + by apply list_elem_of_In.
      + rewrite list_elem_of_In in H. rewrite (Hout w H) in Hs.
        by destruct Hs.
    - apply Hin. }
  rewrite E. apply size_list_to_set. by apply NoDup_ListNoDup.
Qed.

(** C4. [generate_vocab] returns, for every collection of walks, a
    vocabulary whose keys are the words of the walks, each with a count
    equal to its number of occurrences over all walks of all layers; the
    indices are below |V|, every position below |V| is the index of a word,
    two words never share an index, a word with a larger count has a
    smaller index, and [index2word] read at the index of a word gives the
    word back. *)
Theorem C4_generate_vocab_counts_and_ranks (all_walks : list (list (list string))) :
  exists (vocab : gmap string Vocab) (index2word : list string),
    generate_vocab all_walks = Ok (vocab, index2word) /\
    (forall w, In w (tokens all_walks) ->
       exists v, vocab !! w = Some v /\
                 count v = occurrences w (tokens all_walks)) /\
    (forall w, ~ In w (tokens all_walks) -> vocab !! w = None) /\
    length index2word = size vocab /\
    (forall w v, vocab !! w = Some v ->
       index v < size vocab /\ index2word !! index v = Some w) /\
    (forall i, i < size vocab ->
       exists w v, index2word !! i = Some w /\ vocab !! w = Some v /\ index v = i) /\
    (forall u v cu cv, vocab !! u = Some cu -> vocab !! v = Some cv ->
       index cu = index cv -> u = v) /\
    (forall u v cu cv, vocab !! u = Some cu -> vocab !! v = Some cv ->
       count cv < count cu -> index cu < index cv).
Proof.
  destruct (generate_vocab_spec all_walks)
    as (vocab & i2w & Hrun & Hnd & Hmem & Hpos & Hout & Hord).
  exists vocab, i2w. split; [done|].
  assert (Hat : forall w v, vocab !! w = Some v ->
            i2w !! index v = Some w /\
            count v = occurrences w (tokens all_walks)).
  { intros w v Hv. destruct (decide (w ∈ i2w)) as [H|H].
    - apply list_elem_of_lookup in H as [i Hi].
      rewrite (Hpos i w Hi) in Hv. injection Hv as <-. simpl. done.
    - rewrite list_elem_of_In in H. rewrite (Hout w H) in Hv. done. }
  assert (Hsize : size vocab = length i2w).
  { apply vocab_size; [done| |done].
    intros w Hw. apply list_elem_of_In, list_elem_of_lookup in Hw as [i Hi].
    rewrite (Hpos i w Hi). by eexists. }
  split; [|split; [|split; [|split; [|split; [|split]]]]].
  - intros w Hw. apply Hmem in Hw.
    apply list_elem_of_In, list_elem_of_lookup in Hw as [i Hi].
    eexists. split; [by apply (Hpos i w)|done].
  - intros w Hw. apply Hout. by rewrite Hmem.
  - done.
  - intros w v Hv. destruct (Hat w v Hv) as [Hi _]. split; [|done].
    rewrite Hsize. by apply lookup_lt_Some in Hi.
  - intros i Hi. rewrite Hsize in Hi.
    destruct (lookup_lt_is_Some_2 i2w i Hi) as [w Hw].
    exists w. eexists. split; [done|]. split; [by apply Hpos|done].
  - intros u v cu cv Hu Hv Heq.
    destruct (Hat u cu Hu) as [Hiu _]. destruct (Hat v cv Hv) as [Hiv _].
    rewrite Heq in Hiu. congruence.
  - intros u v cu cv Hu Hv Hlt.
    destruct (Hat u cu Hu) as [Hiu Hcu]. destruct (Hat v cv Hv) as [Hiv Hcv].
    destruct (Nat.lt_trichotomy (index cu) (index cv)) as [H|[H|H]]; [done| |].
    + rewrite H in Hiu. assert (u = v) by congruence. subst.
      rewrite Hu in Hv. injection Hv as ->. lia.
    + pose proof (Hord _ _ _ _ H Hiv Hiu). lia.
Qed.

Lemma C4_witness :
  exists (vocab : gmap string Vocab) (index2word : list string),
    generate_vocab [[["a"; "b"; "a"]; ["b"; "c"]]] = Ok (vocab, index2word) /\
    (exists v, vocab !! "c" = Some v /\
       count v = occurrences "c" (tokens [[["a"; "b"; "a"]; ["b"; "c"]]])) /\
    (forall cu cv, vocab !! "a" = Some cu -> vocab !! "c" = Some cv ->
       count cv < count cu -> index cu < index cv).
Proof.
  destruct (C4_generate_vocab_counts_and_ranks [[["a"; "b"; "a"]; ["b"; "c"]]])
    as (vocab & i2w & Hrun & Hcount & _ & _ & _ & _ & _ & Hrank).
  exists vocab, i2w. split; [exact Hrun|]. split.
  - apply Hcount. simpl. auto 10.
  - exact (Hrank "a" "c").
Defined.

(** ** The neighbor table *)

Lemma cell_set_cell (nb : list (list (list nat))) i r row l i' r' :
  nb !! i = Some row -> r < length row ->
  cell (<[i := <[r := l]> row]> nb) i' r'
  = if decide (i' = i /\ r' = r) then Some l else cell nb i' r'.
Proof.
  intros Hrow Hr. unfold cell.
  assert (Hi : i < length nb) by (by eapply lookup_lt_Some).
  destruct (decide (i' = i)) as [->|Hne].
  - rewrite list_lookup_insert_eq by done. simpl. rewrite Hrow. simpl.
    destruct (decide (r' = r)) as [->|Hne'].
    + rewrite list_lookup_insert_eq by done.
      by destruct (decide (i = i /\ r = r)) as [|[]].
    + rewrite list_lookup_insert_ne by done.
      by destruct (decide (i = i /\ r' = r)) as [[]|].
  - rewrite list_lookup_insert_ne by done.
    by destruct (decide (i' = i /\ r' = r)) as [[]|].
Qed.

Lemma shaped_set_cell n c (nb : list (list (list nat))) i r row l :
  shaped n c nb -> nb !! i = Some row ->
  shaped n c (<[i := <[r := l]> row]> nb).
Proof.
  intros [Hn Hc] Hrow. split; [by rewrite length_insert|].
  intros i' row' H'. destruct (decide (i' = i)) as [->|Hne].
  - rewrite list_lookup_insert_eq in H' by (by eapply lookup_lt_Some).
    injection H' as <-. rewrite length_insert. by eapply Hc.
  - rewrite list_lookup_insert_ne in H' by done. by eapply Hc.
Qed.

Lemma shaped_cell n c (nb : list (list (list nat))) i r :
  shaped n c nb -> i < n -> r < c ->
  exists row l, nb !! i = Some row /\ row !! r = Some l /\ cell nb i r = Some l.
Proof.
  intros [Hn Hc] Hi Hr.
  destruct (lookup_lt_is_Some_2 nb i) as [row Hrow]; [lia|].
  destruct (lookup_lt_is_Some_2 row r) as [l Hl]; [by rewrite (Hc i row)|].
  exists row, l. unfold cell. rewrite Hrow. simpl. done.
Qed.

Lemma append_at_spec n c (nb : list (list (list nat))) i r v :
  shaped n c nb -> i < n -> r < c ->
  exists nb' l,
    append_at nb i r v = Ok nb' /\ shaped n c nb' /\
    cell nb i r = Some l /\
    forall i' r', cell nb' i' r'
                  = if decide (i' = i /\ r' = r) then Some (l ++ [v])
                    else cell nb i' r'.
Proof.
  intros Hs Hi Hr.
  destruct (shaped_cell n c nb i r Hs Hi Hr) as (row & l & Hrow & Hl & Hcell).
  exists (<[i := <[r := l ++ [v]]> row]> nb), l.
  split; [|split; [|split]].
  - unfold append_at, list_get. rewrite Hrow. simpl. by rewrite Hl.
  - by apply shaped_set_cell.
  - done.
  - intros i' r'. apply cell_set_cell; [done|]. by eapply lookup_lt_Some.
Qed.

Lemma add_raw_edge_spec n c vocab r edge (nb : list (list (list nat))) :
  shaped n c nb -> r < c ->
  indexed_below vocab n (fst edge) -> indexed_below vocab n (snd edge) ->
  exists nb',
    add_raw_edge vocab r edge nb = Ok nb' /\ shaped n c nb' /\
    forall i r', cell nb' i r'
                 = if decide (r' = r)
                   then (fun l => l ++ edge_entries vocab i edge) <$> cell nb i r'
                   else cell nb i r'.
Proof.
  intros Hs Hr (vx & Hvx & Hix) (vy & Hvy & Hiy).
  destruct (append_at_spec n c nb (index vx) r (index vy) Hs Hix Hr)
    as (nb1 & l1 & Hrun1 & Hs1 & Hl1 & Hcell1).
  destruct (append_at_spec n c nb1 (index vy) r (index vx) Hs1 Hiy Hr)
    as (nb2 & l2 & Hrun2 & Hs2 & Hl2 & Hcell2).
  exists nb2. split; [|split; [done|]].
  - unfold add_raw_edge, vocab_index, dict_get. rewrite Hvx, Hvy. simpl.
    rewrite Hrun1. simpl. done.
  - intros i r'. rewrite Hcell2, Hcell1. rewrite Hcell1 in Hl2.
    unfold edge_entries, index_of. rewrite Hvx, Hvy.
    destruct (decide (r' = r)) as [->|Hne].
    2:{ destruct (decide (i = index vy /\ r' = r)) as [[]|]; [done|].
        destruct (decide (i = index vx /\ r' = r)) as [[]|]; done. }
    destruct (decide (index vx = i)) as [Hx|Hx], (decide (index vy = i)) as [Hy|Hy].
    + subst i. rewrite Hy in *.
      destruct (decide (index vx = index vx /\ r = r)) as [_|[]]; [|done].
      injection Hl2 as <-. rewrite Hl1. simpl. by rewrite <- app_assoc.
    + subst i.
      destruct (decide (index vx = index vy /\ r = r)) as [[]|_]; [congruence|].
      destruct (decide (index vx = index vx /\ r = r)) as [_|[]]; [|done].
      rewrite Hl1. simpl. by rewrite ?app_nil_r.
    + subst i.
      destruct (decide (index vy = index vy /\ r = r)) as [_|[]]; [|done].
      destruct (decide (index vy = index vx /\ r = r)) as [[]|_]; [congruence|].
      by rewrite Hl2.
    + destruct (decide (i = index vy /\ r = r)) as [[]|_]; [congruence|].
      destruct (decide (i = index vx /\ r = r)) as [[]|_]; [congruence|].
      destruct (cell nb i r); simpl; [|done]. by rewrite ?app_nil_r.
Qed.

Lemma accumulate_spec n c vocab r g : forall nb : list (list (list nat)),
  shaped n c nb -> r < c ->
  (forall x y, In (x, y) g -> indexed_below vocab n x /\ indexed_below vocab n y) ->
  exists nb',
    for_each g (add_raw_edge vocab r) nb = Ok nb' /\ shaped n c nb' /\
    forall i r', cell nb' i r'
                 = if decide (r' = r)
                   then (fun l => l ++ raw_entries vocab g i) <$> cell nb i r'
                   else cell nb i r'.
Proof.
  induction g as [|[x y] g IH]; intros nb Hs Hr Hg; simpl.
  - exists nb. split; [done|]. split; [done|]. intros i r'.
    destruct (decide (r' = r)); [|done].
    destruct (cell nb i r'); simpl; [|done]. by rewrite app_nil_r.
  - destruct (Hg x y) as [Hx Hy]; [simpl; auto|].
    destruct (add_raw_edge_spec n c vocab r (x, y) nb Hs Hr Hx Hy)
      as (nb1 & Hrun1 & Hs1 & Hcell1).
    destruct (IH nb1 Hs1 Hr) as (nb2 & Hrun2 & Hs2 & Hcell2).
    { intros x' y' H'. apply Hg. simpl. auto. }
    exists nb2. rewrite Hrun1. simpl. split; [done|]. split; [done|].
    intros i r'. rewrite Hcell2, Hcell1.
    destruct (decide (r' = r)); [|done].
    destruct (cell nb i r'); simpl; [|done]. by rewrite <- app_assoc.
Qed.

Section NeighborFacts.

Context {rng : Type}.
Variable next : rng -> nat * rng.

Lemma random_choice_spec a size : forall st,
  a <> [] ->
  exists xs st',
    random_choice rng next a size st = Ok (xs, st') /\
    length xs = size /\ forall x, In x xs -> In x a.
Proof.
  induction size as [|size IH]; intros st Ha; simpl.
  - exists [], st. split; [done|]. split; [done|]. by intros x [].
  - destruct a as [|a0 a'] eqn:Ea; [done|]. rewrite <- Ea in *.
    destruct (next st) as [raw st1].
    assert (Hlt : raw mod length a < length a).
    { apply Nat.mod_upper_bound. rewrite Ea. simpl. lia. }
    destruct (lookup_lt_is_Some_2 a _ Hlt) as [x Hx].
    destruct (IH st1 Ha) as (xs & st2 & Hrun & Hlen & Hin).
    exists (x :: xs), st2. unfold list_get. rewrite Hx. simpl.
    rewrite Hrun. simpl. split; [done|]. split; [by rewrite Hlen|].
    intros y [<-|Hy]; [|by apply Hin].
    apply list_elem_of_In. eapply list_elem_of_lookup_2. exact Hx.
Qed.

Lemma reconcile_spec n c r neighbor_samples i (nb : list (list (list nat))) st :
  shaped n c nb -> i < n -> r < c ->
  exists nb' st' acc final,
    reconcile rng next r neighbor_samples i (nb, st) = Ok (nb', st') /\
    shaped n c nb' /\
    cell nb i r = Some acc /\ cell nb' i r = Some final /\
    reconciled i neighbor_samples acc final /\
    forall i' r', ~ (i' = i /\ r' = r) -> cell nb' i' r' = cell nb i' r'.
Proof.
  intros Hs Hi Hr.
  destruct (shaped_cell n c nb i r Hs Hi Hr) as (row & acc & Hrow & Hacc & Hcell).
  assert (Hrlen : r < length row) by (by eapply lookup_lt_Some).
  assert (Hset : forall l,
    shaped n c (<[i := <[r := l]> row]> nb) /\
    cell (<[i := <[r := l]> row]> nb) i r = Some l /\
    forall i' r', ~ (i' = i /\ r' = r) ->
      cell (<[i := <[r := l]> row]> nb) i' r' = cell nb i' r').
  { intros l. split; [by apply shaped_set_cell|]. split.
    - rewrite (cell_set_cell nb i r row l i r Hrow Hrlen).
      by destruct (decide (i = i /\ r = r)) as [|[]].
    - intros i' r' Hne. rewrite (cell_set_cell nb i r row l i' r' Hrow Hrlen).
      by destruct (decide (i' = i /\ r' = r)). }
  unfold reconcile, list_get. rewrite Hrow. simpl. rewrite Hacc. simpl.
  destruct (Nat.eqb_spec (length acc) 0) as [H0|H0].
  { destruct (Hset (replicate neighbor_samples i)) as (H1 & H2 & H3).
    eexists _, st, acc, _. split; [done|].
    split; [done|]. split; [done|]. split; [done|]. split; [|done].
    unfold reconciled. rewrite length_replicate.
    split; [done|]. split; [done|]. split; [lia|]. split.
    - intros <-. destruct acc; [done|simpl in H0; lia].
    - lia. }
  assert (Hne : acc <> []) by (intros ->; simpl in H0; lia).
  destruct (Nat.ltb_spec (length acc) neighbor_samples) as [Hlt|Hge].
  { destruct (random_choice_spec acc (neighbor_samples - length acc) st Hne)
      as (extra & st' & Hrun & Hlen & Hin).
    rewrite Hrun. simpl.
    destruct (Hset (acc ++ extra)) as (H1 & H2 & H3).
    eexists _, st', acc, _. split; [done|].
    split; [done|]. split; [done|]. split; [done|]. split; [|done].
    unfold reconciled. rewrite length_app, Hlen.
    split; [lia|]. split; [lia|]. split; [|split; lia].
    intros _. exists extra. done. }
  destruct (Nat.ltb_spec neighbor_samples (length acc)) as [Hgt|Hle].
  { destruct (random_choice_spec acc neighbor_samples st Hne)
      as (sample & st' & Hrun & Hlen & Hin).
    rewrite Hrun. simpl.
    destruct (Hset sample) as (H1 & H2 & H3).
    eexists _, st', acc, _. split; [done|].
    split; [done|]. split; [done|]. split; [done|]. split; [|done].
    unfold reconciled.
    split; [done|]. split; [lia|]. split; [lia|]. split; [lia|done]. }
  exists nb, st, acc, acc. split; [done|].
  split; [done|]. split; [done|]. split; [done|]. split; [|done].
  unfold reconciled.
  split; [lia|]. split; [lia|]. split; [lia|]. split; [done|lia].
Qed.

Lemma reconcile_all_spec n c r neighbor_samples :
  forall (nodes : list nat) (nb : list (list (list nat))) st,
  shaped n c nb -> r < c -> List.NoDup nodes -> (forall i, In i nodes -> i < n) ->
  exists nb' st',
    for_each nodes (reconcile rng next r neighbor_samples) (nb, st) = Ok (nb', st') /\
    shaped n c nb' /\
    (forall i, In i nodes -> exists acc final,
       cell nb i r = Some acc /\ cell nb' i r = Some final /\
       reconciled i neighbor_samples acc final) /\
    (forall i' r', ~ (In i' nodes /\ r' = r) -> cell nb' i' r' = cell nb i' r').
Proof.
  induction nodes as [|i nodes IH]; intros nb st Hs Hr Hnd Hlt.
  - exists nb, st. split; [done|]. split; [done|]. split; [by intros i []|done].
  - inversion Hnd as [|? ? Hi Hnd']; subst.
    destruct (reconcile_spec n c r neighbor_samples i nb st Hs) as
      (nb1 & st1 & acc & final & Hrun1 & Hs1 & Hacc & Hfinal & Hrec & Hrest1);
      [apply Hlt; simpl; auto|done|].
    destruct (IH nb1 st1 Hs1 Hr Hnd') as (nb2 & st2 & Hrun2 & Hs2 & Hrec2 & Hrest2).
    { intros j Hj. apply Hlt. simpl. auto. }
    exists nb2, st2. rewrite for_each_cons, Hrun1.
    split; [exact Hrun2|]. split; [done|]. split.
    + intros j [<-|Hj].
      * exists acc, final. split; [done|]. split; [|done].
        rewrite Hrest2; [done|]. by intros [H _].
      * destruct (Hrec2 j Hj) as (acc' & final' & Ha & Hf & Hr').
        exists acc', final'. split; [|done].
        rewrite <- Ha. symmetry. apply Hrest1. intros [-> _]. done.
    + intros i' r' Hne. rewrite Hrest2.
      * apply Hrest1. intros [-> ->]. apply Hne. simpl. auto.
      * intros [H ->]. apply Hne. simpl. auto.
Qed.

Lemma types_loop_spec network_data vocab n edge_types neighbor_samples :
  neighbors_input network_data vocab n edge_types ->
  forall (types : list nat) (nb : list (list (list nat))) st,
  shaped n (length edge_types) nb -> List.NoDup types ->
  (forall r, In r types -> r < length edge_types) ->
  (forall r i, In r types -> i < n -> cell nb i r = Some []) ->
  exists nb' st',
    for_each types
      (neighbors_of_type rng next network_data vocab n edge_types neighbor_samples)
      (nb, st) = Ok (nb', st') /\
    shaped n (length edge_types) nb' /\
    (forall r i edge_type g, In r types -> i < n ->
       edge_types !! r = Some edge_type -> network_data !! edge_type = Some g ->
       exists final, cell nb' i r = Some final /\
         reconciled i neighbor_samples (raw_entries vocab g i) final) /\
    (forall i r, ~ In r types -> cell nb' i r = cell nb i r).
Proof.
  intros Hinput. induction types as [|r types IH]; intros nb st Hs Hnd Hlt Hempty.
  - exists nb, st. split; [done|]. split; [done|]. split; [|done].
    by intros r i et g [].
  - inversion Hnd as [|? ? Hr Hnd']; subst.
    assert (Hrc : r < length edge_types) by (apply Hlt; simpl; auto).
    destruct (lookup_lt_is_Some_2 edge_types r Hrc) as [et Het].
    destruct (Hinput r et Het) as (g & Hg & Hedges).
    destruct (accumulate_spec n (length edge_types) vocab r g nb Hs Hrc Hedges)
      as (nb1 & Hrun1 & Hs1 & Hcell1).
    destruct (reconcile_all_spec n (length edge_types) r neighbor_samples
                (seq 0 n) nb1 st Hs1 Hrc) as (nb2 & st2 & Hrun2 & Hs2 & Hrec2 & Hrest2).
    { apply NoDup_ListNoDup, NoDup_seq. }
    { intros i Hi. apply in_seq in Hi. lia. }
    destruct (IH nb2 st2 Hs2 Hnd') as (nb3 & st3 & Hrun3 & Hs3 & Hrec3 & Hrest3).
    { intros r' Hr'. apply Hlt. simpl. auto. }
    { intros r' i Hr' Hi. rewrite Hrest2.
      - rewrite Hcell1. destruct (decide (r' = r)) as [->|_]; [done|].
        apply Hempty; simpl; auto.
      - intros [_ ->]. done. }
    exists nb3, st3. split.
    { assert (Hstep : neighbors_of_type rng next network_data vocab n edge_types
                        neighbor_samples r (nb, st) = Ok (nb2, st2)).
      { unfold neighbors_of_type, list_get, dict_get. rewrite Het. simpl.
        rewrite Hg. simpl. rewrite Hrun1. exact Hrun2. }
      rewrite for_each_cons, Hstep. exact Hrun3. }
    split; [done|]. split.
    + intros r' i et' g' [<-|Hr'] Hi Het' Hg'.
      * rewrite Het in Het'. injection Het' as <-.
        rewrite Hg in Hg'. injection Hg' as <-.
        destruct (Hrec2 i) as (acc & final & Hacc & Hfinal & Hrec).
        { apply in_seq. lia. }
        exists final. rewrite Hrest3 by done. split; [done|].
        rewrite Hcell1 in Hacc. destruct (decide (r = r)); [|done].
        rewrite (Hempty r i) in Hacc by (simpl; auto). simpl in Hacc.
        injection Hacc as <-. done.
      * by eapply Hrec3.
    + intros i r' Hr'.
      assert (r' <> r) by (intros ->; apply Hr'; simpl; auto).
      rewrite Hrest3 by (intros H'; apply Hr'; simpl; auto).
      rewrite Hrest2 by (by intros [_ ->]).
      rewrite Hcell1. by destruct (decide (r' = r)).
Qed.

Lemma fresh_table n c :
  shaped n c (replicate n (replicate c ([] : list nat))) /\
  forall i r, i < n -> r < c ->
    cell (replicate n (replicate c ([] : list nat))) i r = Some [].
Proof.
  split; [split|].
  - apply length_replicate.
  - intros i row Hrow. apply lookup_replicate in Hrow as [-> _].
    apply length_replicate.
  - intros i r Hi Hr. unfold cell.
    rewrite lookup_replicate_2 by done. simpl. by rewrite lookup_replicate_2.
Qed.

Lemma generate_neighbors_spec network_data vocab n edge_types neighbor_samples st :
  neighbors_input network_data vocab n edge_types ->
  exists table st',
    generate_neighbors rng next network_data vocab n edge_types neighbor_samples st
    = Ok (table, st') /\
    shaped n (length edge_types) table /\
    forall r i edge_type g, i < n ->
      edge_types !! r = Some edge_type -> network_data !! edge_type = Some g ->
      exists final, cell table i r = Some final /\
        reconciled i neighbor_samples (raw_entries vocab g i) final.
Proof.
  intros Hinput. unfold generate_neighbors.
  destruct (fresh_table n (length edge_types)) as [Hs Hcell].
  destruct (types_loop_spec network_data vocab n edge_types neighbor_samples Hinput
              (seq 0 (length edge_types)) _ st Hs) as (table & st' & Hrun & Hs' & Hrec & _).
  - apply NoDup_ListNoDup, NoDup_seq.
  - intros r Hr. apply in_seq in Hr. lia.
  - intros r i Hr Hi. apply Hcell; [done|]. apply in_seq in Hr. lia.
  - exists table, st'. split; [done|]. split; [done|].
    intros r i et g Hi Het Hg. eapply Hrec; [|done|exact Het|exact Hg].
    apply in_seq. apply lookup_lt_Some in Het. lia.
Qed.

Lemma raw_entries_duplicates vocab x y k i :
  index_of vocab x = i -> index_of vocab y <> i ->
  raw_entries vocab (replicate k (x, y)) i = replicate k (index_of vocab y).
Proof.
  intros Hx Hy. unfold raw_entries. induction k as [|k IH]; simpl; [done|].
  rewrite IH. unfold edge_entries. simpl.
  destruct (decide (index_of vocab x = i)); [|done].
  destruct (decide (index_of vocab y = i)); done.
Qed.

Lemma accumulate_fresh n c vocab r g i :
  r < c -> i < n ->
  (forall x y, In (x, y) g -> indexed_below vocab n x /\ indexed_below vocab n y) ->
  exists nb,
    for_each g (add_raw_edge vocab r) (replicate n (replicate c [])) = Ok nb /\
    cell nb i r = Some (raw_entries vocab g i).
Proof.
  intros Hr Hi Hg. destruct (fresh_table n c) as [Hs Hcell].
  destruct (accumulate_spec n c vocab r g _ Hs Hr Hg) as (nb & Hrun & _ & Hnb).
  exists nb. split; [done|]. rewrite Hnb, Hcell by done.
  by destruct (decide (r = r)).
Qed.

(** C3. On an input whose edge types are keys of the network data and
    whose edge end points are in the vocabulary with an index below
    [num_nodes], and with [neighbor_samples >= 1], [generate_neighbors]
    returns a table in which the list of every node [i] and edge-type
    position [r] has exactly [neighbor_samples] entries. The entries
    accumulated for [i] are one group per raw edge occurrence, so that k
    copies of one edge to the same neighbor give k entries. With no
    accumulated entry the list is [neighbor_samples] copies of [i]; with
    fewer than [neighbor_samples] it is the accumulated entries followed
    by entries that all occur among them; with exactly
    [neighbor_samples] it is the accumulated entries themselves; with
    more, every entry of the list occurs among them. *)
Theorem C3_generate_neighbors_fixed_size network_data vocab num_nodes edge_types
    neighbor_samples st :
  1 <= neighbor_samples ->
  neighbors_input network_data vocab num_nodes edge_types ->
  exists table st',
    generate_neighbors rng next network_data vocab num_nodes edge_types
      neighbor_samples st = Ok (table, st') /\
    (forall r i edge_type g, i < num_nodes ->
       edge_types !! r = Some edge_type -> network_data !! edge_type = Some g ->
       (exists nb,
          for_each g (add_raw_edge vocab r)
            (replicate num_nodes (replicate (length edge_types) [])) = Ok nb /\
          cell nb i r = Some (raw_entries vocab g i)) /\
       exists final,
         cell table i r = Some final /\
         reconciled i neighbor_samples (raw_entries vocab g i) final) /\
    (forall x y k i, index_of vocab x = i -> index_of vocab y <> i ->
       raw_entries vocab (replicate k (x, y)) i = replicate k (index_of vocab y)).
Proof.
  intros _ Hinput.
  destruct (generate_neighbors_spec network_data vocab num_nodes edge_types
              neighbor_samples st Hinput) as (table & st' & Hrun & _ & Hrec).
  exists table, st'. split; [done|]. split.
  - intros r i et g Hi Het Hg. split; [|by eapply Hrec].
    apply accumulate_fresh; [by eapply lookup_lt_Some|done|].
    destruct (Hinput r et Het) as (g' & Hg' & Hedges).
    rewrite Hg in Hg'. by injection Hg' as <-.
  - intros x y k i. apply raw_entries_duplicates.
Qed.

Lemma all_equal_replicate (l : list nat) (i : nat) :
  (forall x, In x l -> x = i) -> l = replicate (length l) i.
Proof.
  induction l as [|a l IH]; intros H; simpl; [done|].
  rewrite (H a) by (simpl; auto). f_equal. apply IH.
  intros x Hx. apply H. simpl. auto.
Qed.

Lemma raw_entries_untouched vocab g i :
  (forall a b, In (a, b) g -> index_of vocab a <> i /\ index_of vocab b <> i) ->
  raw_entries vocab g i = [].
Proof.
  unfold raw_entries. induction g as [|[a b] g IH]; intros H; simpl; [done|].
  rewrite IH by (intros; apply H; simpl; auto).
  destruct (H a b) as [Ha Hb]; [simpl; auto|].
  unfold edge_entries. simpl.
  destruct (decide (index_of vocab a = i)); [done|].
  destruct (decide (index_of vocab b = i)); done.
Qed.

Lemma seq_middle (i n : nat) :
  i < n -> seq 0 n = seq 0 i ++ i :: seq (S i) (n - S i).
Proof.
  intros H. replace n with (i + S (n - S i)) at 1 by lia.
  by rewrite List.seq_app.
Qed.

(** The reconciliation of a list that holds the index of its node twice. *)
Lemma reconcile_two_entries n c r neighbor_samples i (nb : list (list (list nat))) st :
  shaped n c nb -> i < n -> r < c -> cell nb i r = Some [i; i] ->
  exists nb' st' final,
    reconcile rng next r neighbor_samples i (nb, st) = Ok (nb', st') /\
    shaped n c nb' /\
    cell nb' i r = Some final /\ final = replicate neighbor_samples i /\
    (forall i' r', ~ (i' = i /\ r' = r) -> cell nb' i' r' = cell nb i' r') /\
    (neighbor_samples = 2 -> nb' = nb /\ st' = st) /\
    (2 < neighbor_samples ->
       exists extra,
         random_choice rng next [i; i] (neighbor_samples - 2) st = Ok (extra, st') /\
         final = [i; i] ++ extra) /\
    (neighbor_samples < 2 ->
       exists sample,
         random_choice rng next [i; i] neighbor_samples st = Ok (sample, st') /\
         final = sample).
Proof.
  intros Hs Hi Hr Hcell.
  destruct (shaped_cell n c nb i r Hs Hi Hr) as (row & acc & Hrow & Hacc & Hcell').
  rewrite Hcell in Hcell'. injection Hcell' as <-.
  assert (Hrlen : r < length row) by (by eapply lookup_lt_Some).
  assert (Hset : forall l,
    shaped n c (<[i := <[r := l]> row]> nb) /\
    cell (<[i := <[r := l]> row]> nb) i r = Some l /\
    forall i' r', ~ (i' = i /\ r' = r) ->
      cell (<[i := <[r := l]> row]> nb) i' r' = cell nb i' r').
  { intros l. split; [by apply shaped_set_cell|]. split.
    - rewrite (cell_set_cell nb i r row l i r Hrow Hrlen).
      by destruct (decide (i = i /\ r = r)) as [|[]].
    - intros i' r' Hne. rewrite (cell_set_cell nb i r row l i' r' Hrow Hrlen).
      by destruct (decide (i' = i /\ r' = r)). }
  assert (Hmem : forall l, (forall y, In y l -> In y [i; i]) ->
                           l = replicate (length l) i).
  { intros l Hl. apply all_equal_replicate. intros y Hy.
    destruct (Hl y Hy) as [<-|[<-|[]]]; done. }
  unfold reconcile, list_get. rewrite Hrow. cbn [mbind result_bind]. rewrite Hacc.
  cbn [mbind result_bind]. change (length [i; i]) with 2.
  change (2 =? 0) with false. cbv iota.
  destruct (Nat.ltb_spec 2 neighbor_samples) as [Hlt|Hge].
  { destruct (random_choice_spec [i; i] (neighbor_samples - 2) st)
      as (extra & st' & Hrun & Hlen & Hin); [done|].
    rewrite Hrun. cbn [mbind result_bind].
    destruct (Hset ([i; i] ++ extra)) as (H1 & H2 & H3).
    eexists _, st', _. split; [done|]. split; [done|]. split; [done|].
    split; [|split; [done|split; [lia|split; [|lia]]]].
    - rewrite (Hmem extra Hin), Hlen. cbn [app].
      replace neighbor_samples with (S (S (neighbor_samples - 2))) at 2 by lia.
      done.
    - intros _. by exists extra. }
  destruct (Nat.ltb_spec neighbor_samples 2) as [Hlt|Hge'].
  { destruct (random_choice_spec [i; i] neighbor_samples st)
      as (sample & st' & Hrun & Hlen & Hin); [done|].
    rewrite Hrun. cbn [mbind result_bind].
    destruct (Hset sample) as (H1 & H2 & H3).
    eexists _, st', _. split; [done|]. split; [done|]. split; [done|].
    split; [|split; [done|split; [lia|split; [lia|]]]].
    - by rewrite (Hmem sample Hin), Hlen.
    - intros _. by exists sample. }
  assert (neighbor_samples = 2) as -> by lia.
  exists nb, st, [i; i]. split; [done|]. split; [done|]. split; [done|].
  split; [done|]. split; [done|]. split; [done|]. split; lia.
Qed.

(** C10. A raw self-loop (x, x) of type [r] appends the index of x twice
    to the candidate list of x for [r], whatever the list holds. In the run
    of [generate_neighbors], when it is the only edge of that type touching
    the index of x, the list holds exactly these two entries at the moment
    it is reconciled: the reconciliation does not take the branch of an
    empty list; it leaves the two entries when [neighbor_samples] is 2 and
    otherwise draws from them, which moves the random source on; and the
    final list of [neighbor_samples] entries holds nothing but the index of
    x. *)
Theorem C10_self_loop_is_counted_twice network_data vocab num_nodes edge_types
    neighbor_samples st r edge_type before after x vx :
  neighbors_input network_data vocab num_nodes edge_types ->
  edge_types !! r = Some edge_type ->
  network_data !! edge_type = Some (before ++ (x, x) :: after) ->
  vocab !! x = Some vx ->
  (forall a b, In (a, b) (before ++ after) ->
     index_of vocab a <> index vx /\ index_of vocab b <> index vx) ->
  let i := index vx in
  let step :=
    neighbors_of_type rng next network_data vocab num_nodes edge_types
      neighbor_samples in
  (forall nb l,
     shaped num_nodes (length edge_types) nb -> cell nb i r = Some l ->
     exists nb',
       add_raw_edge vocab r (x, x) nb = Ok nb' /\
       cell nb' i r = Some (l ++ [i; i])) /\
  exists table st' nb0 st0 nb1 nb2 st2 nb3 st3 nb4 st4,
    generate_neighbors rng next network_data vocab num_nodes edge_types
      neighbor_samples st = Ok (table, st') /\
    for_each (seq 0 r) step
      (replicate num_nodes (replicate (length edge_types) []), st) = Ok (nb0, st0) /\
    for_each (before ++ (x, x) :: after) (add_raw_edge vocab r) nb0 = Ok nb1 /\
    for_each (seq 0 i) (reconcile rng next r neighbor_samples) (nb1, st0)
    = Ok (nb2, st2) /\
    cell nb2 i r = Some [i; i] /\
    reconcile rng next r neighbor_samples i (nb2, st2) = Ok (nb3, st3) /\
    (neighbor_samples = 2 -> nb3 = nb2 /\ st3 = st2) /\
    (2 < neighbor_samples ->
       exists extra,
         random_choice rng next [i; i] (neighbor_samples - 2) st2 = Ok (extra, st3) /\
         cell nb3 i r = Some ([i; i] ++ extra)) /\
    (neighbor_samples < 2 ->
       exists sample,
         random_choice rng next [i; i] neighbor_samples st2 = Ok (sample, st3) /\
         cell nb3 i r = Some sample) /\
    for_each (seq (S i) (num_nodes - S i)) (reconcile rng next r neighbor_samples)
      (nb3, st3) = Ok (nb4, st4) /\
    for_each (seq (S r) (length edge_types - S r)) step (nb4, st4) = Ok (table, st') /\
    cell table i r = Some (replicate neighbor_samples i).
Proof.
  intros Hinput Het Hg Hvx Hother i step.
  set (n := num_nodes) in *. set (c := length edge_types) in *.
  set (g := before ++ (x, x) :: after) in *.
  assert (Hix : index_of vocab x = i) by (unfold index_of; by rewrite Hvx).
  assert (Hraw : raw_entries vocab g i = [i; i]).
  { unfold g, raw_entries. rewrite flat_map_app. simpl.
    fold (raw_entries vocab before i). fold (raw_entries vocab after i).
    rewrite !raw_entries_untouched.
    - unfold edge_entries. simpl. rewrite Hix.
      by destruct (decide (i = i)).
    - intros a b H. apply Hother. apply in_app_iff. auto.
    - intros a b H. apply Hother. apply in_app_iff. auto. }
  destruct (Hinput r edge_type Het) as (g' & Hg' & Hedges).
  rewrite Hg in Hg'. injection Hg' as <-.
  assert (Hxn : indexed_below vocab n x).
  { destruct (Hedges x x) as [H _]; [apply in_app_iff; simpl; auto|done]. }
  assert (Hi : i < n).
  { destruct Hxn as (v & Hv & Hlt). rewrite Hvx in Hv. by injection Hv as <-. }
  assert (Hr : r < c) by (by eapply lookup_lt_Some).
  split.
  { intros nb l Hs Hl.
    destruct (add_raw_edge_spec n c vocab r (x, x) nb Hs Hr Hxn Hxn)
      as (nb' & Hrun & _ & Hcell).
    exists nb'. split; [done|]. rewrite Hcell.
    destruct (decide (r = r)); [|done]. rewrite Hl. simpl. f_equal. f_equal.
    unfold edge_entries. simpl. rewrite Hix. by destruct (decide (i = i)). }
  destruct (fresh_table n c) as [Hs Hfresh].
  (* the edge types before r *)
  destruct (types_loop_spec network_data vocab n edge_types neighbor_samples Hinput
              (seq 0 r) _ st Hs) as (nb0 & st0 & Hrun0 & Hs0 & _ & Hrest0).
  { apply NoDup_ListNoDup, NoDup_seq. }
  { intros r' Hr'. apply in_seq in Hr'. lia. }
  { intros r' i' Hr' Hi'. apply Hfresh; [done|]. apply in_seq in Hr'. lia. }
  assert (Hempty0 : forall i' r', i' < n -> r <= r' < c -> cell nb0 i' r' = Some []).
  { intros i' r' Hi' Hr'. rewrite Hrest0.
    - apply Hfresh; [done|lia].
    - intros H. apply in_seq in H. lia. }
  (* the raw edges of type r *)
  destruct (accumulate_spec n c vocab r g nb0 Hs0 Hr Hedges)
    as (nb1 & Hrun1 & Hs1 & Hcell1).
  (* the nodes before i *)
  destruct (reconcile_all_spec n c r neighbor_samples (seq 0 i) nb1 st0 Hs1 Hr)
    as (nb2 & st2 & Hrun2 & Hs2 & _ & Hrest2).
  { apply NoDup_ListNoDup, NoDup_seq. }
  { intros j Hj. apply in_seq in Hj. lia. }
  assert (Hcell2 : cell nb2 i r = Some [i; i]).
  { rewrite Hrest2 by (intros [H _]; apply in_seq in H; lia).
    rewrite Hcell1. destruct (decide (r = r)); [|done].
    rewrite Hempty0 by lia. simpl. by rewrite Hraw. }
  (* node i *)
  destruct (reconcile_two_entries n c r neighbor_samples i nb2 st2 Hs2 Hi Hr Hcell2)
    as (nb3 & st3 & final & Hrun3 & Hs3 & Hcell3 & Hfinal & Hrest3 & Hsame & Hfew & Hmany).
  (* the nodes after i *)
  destruct (reconcile_all_spec n c r neighbor_samples (seq (S i) (n - S i)) nb3 st3
              Hs3 Hr) as (nb4 & st4 & Hrun4 & Hs4 & _ & Hrest4).
  { apply NoDup_ListNoDup, NoDup_seq. }
  { intros j Hj. apply in_seq in Hj. lia. }
  assert (Hcell4 : cell nb4 i r = Some final).
  { rewrite Hrest4; [done|]. intros [H _]. apply in_seq in H. lia. }
  assert (Hother4 : forall i' r', r' <> r -> cell nb4 i' r' = cell nb0 i' r').
  { intros i' r' Hne.
    rewrite Hrest4 by (by intros [_ ->]). rewrite Hrest3 by (by intros [_ ->]).
    rewrite Hrest2 by (by intros [_ ->]). rewrite Hcell1.
    by destruct (decide (r' = r)). }
  (* the iteration of type r *)
  assert (Hstep : step r (nb0, st0) = Ok (nb4, st4)).
  { unfold step, neighbors_of_type, list_get, dict_get. rewrite Het.
    cbn [mbind result_bind]. rewrite Hg. cbn [mbind result_bind].
    fold g. rewrite Hrun1. cbn [mbind result_bind].
    rewrite (seq_middle i n Hi), for_each_app, Hrun2. cbn [mbind result_bind].
    rewrite for_each_cons, Hrun3. cbn [mbind result_bind]. exact Hrun4. }
  (* the edge types after r *)
  destruct (types_loop_spec network_data vocab n edge_types neighbor_samples Hinput
              (seq (S r) (c - S r)) nb4 st4 Hs4)
    as (table & st' & Hrun5 & _ & _ & Hrest5).
  { apply NoDup_ListNoDup, NoDup_seq. }
  { intros r' Hr'. apply in_seq in Hr'. lia. }
  { intros r' i' Hr' Hi'. apply in_seq in Hr'.
    rewrite Hother4 by lia. apply Hempty0; [done|lia]. }
  exists table, st', nb0, st0, nb1, nb2, st2, nb3, st3, nb4, st4.
  split.
  { unfold generate_neighbors. cbv zeta. fold c n.
    rewrite (seq_middle r c Hr), for_each_app.
    unfold step in *. rewrite Hrun0. cbn [mbind result_bind].
    rewrite for_each_cons, Hstep. cbn [mbind result_bind]. exact Hrun5. }
  split; [exact Hrun0|]. split; [exact Hrun1|]. split; [exact Hrun2|].
  split; [exact Hcell2|]. split; [exact Hrun3|]. split; [exact Hsame|].
  split.
  { intros H. destruct (Hfew H) as (extra & He & ->). exists extra. done. }
  split.
  { intros H. destruct (Hmany H) as (sample & He & ->). exists sample. done. }
  split; [exact Hrun4|]. split; [exact Hrun5|].
  rewrite Hrest5 by (intros H; apply in_seq in H; lia).
  by rewrite Hcell4, Hfinal.
Qed.

End NeighborFacts.

Lemma sample_neighbors_input : neighbors_input sample_network sample_vocab 3 ["t"].
Proof.
  intros [|r] edge_type H; [|done]. injection H as <-.
  exists [("a", "b"); ("c", "c")]. split; [reflexivity|].
  intros x y [[= <- <-]|[[= <- <-]|[]]]; split; eexists;
    (split; [reflexivity|simpl; lia]).
Qed.

Lemma C3_witness :
  1 <= 3 /\ neighbors_input sample_network sample_vocab 3 ["t"] /\
  exists table st',
    generate_neighbors nat sample_next sample_network sample_vocab 3 ["t"] 3 0
    = Ok (table, st') /\
    exists final,
      cell table 0 0 = Some final /\
      reconciled 0 3 (raw_entries sample_vocab [("a", "b"); ("c", "c")] 0) final.
Proof.
  split; [lia|]. split; [exact sample_neighbors_input|].
  destruct (C3_generate_neighbors_fixed_size sample_next sample_network sample_vocab
              3 ["t"] 3 0) as (table & st' & Hrun & Hcells & _).
  - lia.
  - exact sample_neighbors_input.
  - exists table, st'. split; [exact Hrun|].
    exact (proj2 (Hcells 0 0 "t" [("a", "b"); ("c", "c")]
                    (Nat.lt_0_succ 2) eq_refl eq_refl)).
Defined.

Lemma C10_witness :
  neighbors_input sample_network sample_vocab 3 ["t"] /\
  (forall a b, In (a, b) ([("a", "b")] ++ []) ->
     index_of sample_vocab a <> 2 /\ index_of sample_vocab b <> 2) /\
  exists table st' nb2 st2 nb3 st3,
    generate_neighbors nat sample_next sample_network sample_vocab 3 ["t"] 3 0
    = Ok (table, st') /\
    cell nb2 2 0 = Some [2; 2] /\
    reconcile nat sample_next 0 3 2 (nb2, st2) = Ok (nb3, st3) /\
    cell table 2 0 = Some (replicate 3 2).
Proof.
  assert (Hother : forall a b, In (a, b) ([("a", "b")] ++ []) ->
            index_of sample_vocab a <> 2 /\ index_of sample_vocab b <> 2).
  { intros a b [[= <- <-]|[]]. vm_compute. split; lia. }
  split; [exact sample_neighbors_input|]. split; [exact Hother|].
  pose proof (C10_self_loop_is_counted_twice sample_next sample_network sample_vocab
                3 ["t"] 3 0 0 "t" [("a", "b")] [] "c" (mkVocab 1 2)
                sample_neighbors_input eq_refl eq_refl eq_refl Hother) as H.
  cbv zeta in H.
  destruct H as (_ & table & st' & nb0 & st0 & nb1 & nb2 & st2 & nb3 & st3 & nb4 & st4
                 & Hrun & _ & _ & _ & Hcell2 & Hrec & _ & _ & _ & _ & _ & Hcell).
  exists table, st', nb2, st2, nb3, st3.
  split; [exact Hrun|]. split; [exact Hcell2|]. split; [exact Hrec|exact Hcell].
Defined.

(** ** The persisted walk corpus *)

Lemma string_app_cons c (s t : string) : String c s +:+ t = String c (s +:+ t).
Proof. reflexivity. Qed.

Lemma string_app_nil_l (t : string) : "" +:+ t = t.
Proof. reflexivity. Qed.

Lemma string_app_nil_r (s : string) : s +:+ "" = s.
Proof. induction s as [|c s IH]; [done|]. by rewrite string_app_cons, IH. Qed.

Lemma string_app_assoc (a b c : string) : (a +:+ b) +:+ c = a +:+ (b +:+ c).
Proof.
  induction a as [|x a IH]; [done|]. by rewrite !string_app_cons, IH.
Qed.

Lemma py_split_lstrip s : py_split (py_lstrip s) = py_split s.
Proof.
  induction s as [|c s IH]; simpl; [done|].
  destruct (py_isspace c) eqn:E; [done|]. simpl. by rewrite E.
Qed.

Lemma py_rstrip_head c s c' r :
  py_rstrip (String c s) = String c' r -> c' = c.
Proof.
  simpl. destruct (py_rstrip s); [destruct (py_isspace c)|]; congruence.
Qed.

Lemma py_split_rstrip s : py_split (py_rstrip s) = py_split s.
Proof.
  induction s as [|c s IH]; [done|].
  cbn [py_rstrip]. destruct (py_rstrip s) as [|c2 r] eqn:Er.
  - simpl in IH. cbn [py_split]. rewrite <- IH.
    destruct (py_isspace c) eqn:Ec; [done|].
    cbn [py_split]. rewrite Ec.
    destruct s as [|c' s']; [done|]. by destruct (py_isspace c').
  - destruct s as [|c' s']; [done|].
    apply py_rstrip_head in Er as Hc. subst c2.
    cbn [py_split] in *. destruct (py_isspace c) eqn:Ec; [done|].
    destruct (py_isspace c') eqn:Ec'; by rewrite IH.
Qed.

Lemma py_split_strip s : py_split (py_strip s) = py_split s.
Proof. unfold py_strip. by rewrite py_split_rstrip, py_split_lstrip. Qed.

(** A clean token followed by nothing or by white space is one field. *)
Lemma py_split_token t rest :
  clean_token t ->
  (rest = "" \/ exists c r, rest = String c r /\ py_isspace c = true) ->
  py_split (t +:+ rest) = t :: py_split rest.
Proof.
  intros [Hne Hns] Hrest. induction t as [|c t IH]; [done|].
  simpl in Hns. apply andb_true_iff in Hns as [Hc Ht].
  apply negb_true_iff in Hc.
  rewrite string_app_cons. cbn [py_split]. rewrite Hc.
  destruct t as [|c2 t'].
  - rewrite string_app_nil_l.
    destruct Hrest as [->|(c' & r & -> & Hc')]; [done|]. by rewrite Hc'.
  - rewrite string_app_cons. rewrite string_app_cons in IH.
    simpl in Ht. apply andb_true_iff in Ht as [Hc2 Ht'].
    rewrite (proj1 (negb_true_iff _) Hc2).
    rewrite IH; [done|done|]. simpl. by rewrite Hc2, Ht'.
Qed.

Lemma py_split_join toks rest :
  toks <> [] -> clean_walk toks ->
  (rest = "" \/ exists c r, rest = String c r /\ py_isspace c = true) ->
  py_split (py_join " " toks +:+ rest) = toks ++ py_split rest.
Proof.
  intros Hne Hclean Hrest. induction toks as [|t toks IH]; [done|].
  cbn [py_join]. destruct toks as [|t2 toks'].
  - rewrite py_split_token; [done| |done]. apply Hclean. simpl. auto.
  - rewrite !string_app_assoc. rewrite py_split_token.
    + change (" " +:+ ?x) with (String " "%char x). cbn [py_split].
      change (py_isspace " ") with true. cbn iota.
      rewrite IH; [done|done|]. intros t' Ht'. apply Hclean. simpl. auto.
    + apply Hclean. simpl. auto.
    + right. eexists _, _. split; [reflexivity|done].
Qed.

Lemma py_lines_line body rest :
  no_eol body = true ->
  py_lines (body +:+ newline +:+ rest) = (body +:+ newline) :: py_lines rest.
Proof.
  intros Hb. induction body as [|c body IH].
  - done.
  - simpl in Hb. apply andb_true_iff in Hb as [Hc Hb].
    apply andb_true_iff in Hc as [Hn Hr].
    apply negb_true_iff in Hn, Hr.
    rewrite !string_app_cons. cbn [py_lines]. rewrite Hn, Hr.
    by rewrite (IH Hb).
Qed.

Lemma no_space_no_eol t : no_space t = true -> no_eol t = true.
Proof.
  induction t as [|c t IH]; simpl; [done|].
  intros H. apply andb_true_iff in H as [Hc Ht]. rewrite (IH Ht).
  apply negb_true_iff in Hc.
  destruct (Ascii.eqb_spec c "010"%char) as [->|_]; [done|].
  destruct (Ascii.eqb_spec c "013"%char) as [->|_]; done.
Qed.

Lemma no_eol_app a b : no_eol (a +:+ b) = no_eol a && no_eol b.
Proof.
  induction a as [|c a IH]; [done|].
  rewrite string_app_cons. simpl. rewrite IH. by rewrite !andb_assoc.
Qed.

Lemma no_eol_join toks : clean_walk toks -> no_eol (py_join " " toks) = true.
Proof.
  intros Hclean. induction toks as [|t toks IH]; [done|].
  assert (Ht : no_eol t = true).
  { apply no_space_no_eol. apply (Hclean t). simpl. auto. }
  cbn [py_join]. destruct toks as [|t2 toks']; [done|].
  rewrite !no_eol_app, Ht, IH; [done|].
  intros t' Ht'. apply Hclean. simpl. auto.
Qed.

Lemma py_lstrip_clean t : clean_token t -> py_lstrip t = t.
Proof.
  intros [Hne Hns]. destruct t as [|c t]; [done|].
  simpl in *. apply andb_true_iff in Hns as [Hc _].
  apply negb_true_iff in Hc. by rewrite Hc.
Qed.

Lemma py_rstrip_clean t : clean_token t -> py_rstrip t = t.
Proof.
  intros [Hne Hns]. induction t as [|c t IH]; [done|].
  simpl in Hns. apply andb_true_iff in Hns as [Hc Ht].
  apply negb_true_iff in Hc. cbn [py_rstrip].
  destruct t as [|c2 t'].
  - simpl. by rewrite Hc.
  - rewrite IH; [done|done|done].
Qed.

Lemma py_strip_clean t : clean_token t -> py_strip t = t.
Proof.
  intros Ht. unfold py_strip. by rewrite py_lstrip_clean, py_rstrip_clean.
Qed.

Lemma int_digits_uint d : forall acc,
  int_digits (Z.of_nat acc) true (NilEmpty.string_of_uint d)
  = Some (Z.of_nat (Nat.of_uint_acc d acc)).
Proof.
  induction d; intros acc; [done|..];
    cbn [NilEmpty.string_of_uint int_digits Nat.of_uint_acc];
    rewrite Nat.tail_mul_spec, <- IHd;
    match goal with
    | |- context [digit_of ?c] =>
        let v := eval vm_compute in (digit_of c) in change (digit_of c) with v
    end; cbv iota; f_equal; lia.
Qed.

Lemma string_of_uint_no_space d : no_space (NilEmpty.string_of_uint d) = true.
Proof.
  induction d; [done|..]; cbn [NilEmpty.string_of_uint no_space]; by rewrite IHd.
Qed.

Lemma to_uint_nonnil n : Nat.to_uint n <> Nil.
Proof.
  rewrite <- (Unsigned.of_to n) at 1. rewrite Unsigned.to_of.
  apply DecimalFacts.unorm_nonnil.
Qed.

Lemma str_of_nat_clean n : clean_token (str_of_nat n).
Proof.
  unfold str_of_nat. split; [|apply string_of_uint_no_space].
  pose proof (to_uint_nonnil n). by destruct (Nat.to_uint n).
Qed.

Lemma int_isspace_isspace c : int_isspace c = true -> py_isspace c = true.
Proof. destruct c as [[] [] [] [] [] [] [] []]; vm_compute; congruence. Qed.

Lemma int_strip_clean t : clean_token t -> int_rstrip (int_lstrip t) = t.
Proof.
  intros [Hne Hns].
  assert (Hl : int_lstrip t = t).
  { destruct t as [|c t]; [done|]. simpl in *.
    apply andb_true_iff in Hns as [Hc _]. apply negb_true_iff in Hc.
    destruct (int_isspace c) eqn:E; [|done].
    apply int_isspace_isspace in E. congruence. }
  rewrite Hl. clear Hl. induction t as [|c t IH]; [done|].
  simpl in Hns. apply andb_true_iff in Hns as [Hc Ht].
  apply negb_true_iff in Hc.
  assert (Hi : int_isspace c = false).
  { destruct (int_isspace c) eqn:E; [|done].
    apply int_isspace_isspace in E. congruence. }
  cbn [int_rstrip]. destruct t as [|c2 t'].
  - simpl. by rewrite Hi.
  - rewrite IH; [done|done|done].
Qed.

Lemma py_int_str_of_nat n : py_int (str_of_nat n) = Ok (Z.of_nat n).
Proof.
  unfold py_int. rewrite int_strip_clean by apply str_of_nat_clean.
  unfold str_of_nat. pose proof (to_uint_nonnil n) as Hnn.
  rewrite <- (Unsigned.of_to n) at 2. unfold Nat.of_uint.
  destruct (Nat.to_uint n) as [|d|d|d|d|d|d|d|d|d|d]; [done|..];
    cbn [NilEmpty.string_of_uint];
    change 0%Z with (Z.of_nat 0);
    match goal with
    | |- context [int_digits _ false (String ?c ?r)] =>
        change (int_digits (Z.of_nat 0) false (String c r))
          with (int_digits (Z.of_nat 0) true (String c r))
    end;
    match goal with
    | |- context [int_digits _ true (String ?c (NilEmpty.string_of_uint ?d'))] =>
        change (String c (NilEmpty.string_of_uint d'))
          with (NilEmpty.string_of_uint
                  ltac:(match c with
                        | "0"%char => exact (D0 d') | "1"%char => exact (D1 d')
                        | "2"%char => exact (D2 d') | "3"%char => exact (D3 d')
                        | "4"%char => exact (D4 d') | "5"%char => exact (D5 d')
                        | "6"%char => exact (D6 d') | "7"%char => exact (D7 d')
                        | "8"%char => exact (D8 d') | "9"%char => exact (D9 d')
                        end))
    end;
    by rewrite int_digits_uint.
Qed.

Lemma py_position_of_nat {A : Type} (l : list A) (i : nat) :
  py_position l (Z.of_nat i)
  = if i <? length l then Ok i else Raise IndexError.
Proof.
  unfold py_position. cbv zeta.
  assert (E1 : (Z.of_nat i <? 0)%Z = false) by (apply Z.ltb_ge; lia).
  rewrite E1. cbv iota. rewrite E1. cbn [orb].
  destruct (Nat.ltb_spec i (length l)), (Z.leb_spec (Z.of_nat (length l)) (Z.of_nat i));
    try lia; [by rewrite Nat2Z.id|done].
Qed.

Lemma grow_layers (layer_id : nat) (all_walks : list (list (list string))) :
  (if (Z.of_nat layer_id >=? Z.of_nat (length all_walks))%Z
   then all_walks ++ [[]] else all_walks)
  = if length all_walks <=? layer_id then all_walks ++ [[]] else all_walks.
Proof.
  rewrite Z.geb_leb.
  destruct (Z.leb_spec (Z.of_nat (length all_walks)) (Z.of_nat layer_id)),
           (Nat.leb_spec (length all_walks) layer_id); try lia; done.
Qed.

Lemma load_line_walk_line layer_id walk all_walks :
  clean_walk walk ->
  load_line (walk_line layer_id walk) all_walks
  = load_entry (layer_id, walk) all_walks.
Proof.
  intros Hclean. unfold load_line, walk_line, load_entry. cbv zeta.
  rewrite py_split_strip.
  assert (Hmap : map py_str walk = walk) by apply map_id.
  rewrite Hmap.
  rewrite py_split_join.
  2:{ done. }
  2:{ intros t [<-|Ht]; [apply str_of_nat_clean|by apply Hclean]. }
  2:{ right. eexists _, _. split; [reflexivity|done]. }
  change (py_split newline) with (@nil string). rewrite app_nil_r.
  change (py_index (str_of_nat layer_id :: walk) 0) with (Ok (str_of_nat layer_id)).
  cbn [mbind result_bind]. rewrite py_int_str_of_nat. cbn [mbind result_bind].
  change (drop 1 (str_of_nat layer_id :: walk)) with walk.
  cbn [fst snd]. unfold add_walk.
  rewrite grow_layers, py_position_of_nat.
  destruct (Nat.leb_spec (length all_walks) layer_id) as [Hge|Hlt].
  - rewrite length_app. simpl length.
    destruct (Nat.ltb_spec layer_id (length all_walks + 1)) as [Hlt'|Hge'].
    + assert (layer_id = length all_walks) as -> by lia.
      rewrite Nat.leb_refl. cbn [mbind result_bind]. unfold list_get.
      rewrite lookup_app_r by lia. rewrite Nat.sub_diag. simpl.
      rewrite (proj2 (lookup_ge_None all_walks (length all_walks))) by lia.
      rewrite <- (Nat.add_0_r (length all_walks)) at 1.
      by rewrite insert_app_r.
    + destruct (Nat.leb_spec layer_id (length all_walks)); [lia|done].
  - destruct (Nat.ltb_spec layer_id (length all_walks)); [|lia].
    destruct (Nat.leb_spec layer_id (length all_walks)); [|lia].
    cbn [mbind result_bind]. unfold list_get.
    destruct (lookup_lt_is_Some_2 all_walks layer_id Hlt) as [layer El].
    by rewrite El.
Qed.

Lemma py_lines_corpus entries :
  (forall e, In e entries -> clean_walk (snd e)) ->
  py_lines (corpus_lines entries)
  = map (fun e => walk_line (fst e) (snd e)) entries.
Proof.
  induction entries as [|[k walk] entries IH]; intros Hclean; [done|].
  cbn [corpus_lines map fst snd]. unfold walk_line at 1.
  rewrite string_app_assoc, py_lines_line.
  - rewrite IH; [done|]. intros e He. apply Hclean. simpl. auto.
  - apply no_eol_join. intros t [<-|Ht]; [apply str_of_nat_clean|].
    rewrite map_id in Ht. apply (Hclean (k, walk)); simpl; auto.
Qed.

Lemma load_walks_corpus entries :
  (forall e, In e entries -> clean_walk (snd e)) ->
  load_walks (corpus_lines entries) = for_each entries load_entry [].
Proof.
  intros Hclean. unfold load_walks. rewrite py_lines_corpus by done.
  generalize (@nil (list (list string))).
  induction entries as [|[k walk] entries IH]; intros aw; [done|].
  cbn [map fst snd]. rewrite !for_each_cons.
  rewrite load_line_walk_line by (apply (Hclean (k, walk)); simpl; auto).
  destruct (load_entry (k, walk) aw) as [aw'|e]; [|done].
  cbn [mbind result_bind]. apply IH. intros e He. apply Hclean. simpl. auto.
Qed.

Lemma corpus_lines_app a b :
  corpus_lines (a ++ b) = corpus_lines a +:+ corpus_lines b.
Proof.
  induction a as [|[k walk] a IH]; [done|].
  cbn [app corpus_lines]. by rewrite IH, string_app_assoc.
Qed.

Lemma save_layer layer_id walks : forall f,
  fold_left (fun f walk => f +:+ walk_line layer_id walk) walks f
  = f +:+ corpus_lines (map (fun walk => (layer_id, walk)) walks).
Proof.
  induction walks as [|walk walks IH]; intros f; simpl.
  - by rewrite string_app_nil_r.
  - by rewrite IH, string_app_assoc.
Qed.

Lemma save_walks_lines all_walks :
  save_walks all_walks = corpus_lines (corpus_entries all_walks).
Proof.
  unfold save_walks, corpus_entries.
  rewrite <- (string_app_nil_l (corpus_lines _)).
  generalize "". generalize (enumerate all_walks). intros es.
  induction es as [|[k walks] es IH]; intros f; simpl.
  - by rewrite string_app_nil_r.
  - by rewrite save_layer, IH, corpus_lines_app, string_app_assoc.
Qed.

Lemma load_entry_existing (all_walks : list (list (list string))) k walk layer :
  all_walks !! k = Some layer ->
  load_entry (k, walk) all_walks = Ok (<[k := layer ++ [walk]]> all_walks).
Proof.
  intros El. unfold load_entry, add_walk. cbn [fst snd]. rewrite El.
  apply lookup_lt_Some in El.
  destruct (Nat.leb_spec k (length all_walks)); [done|lia].
Qed.

Lemma load_entry_new (all_walks : list (list (list string))) walk :
  load_entry (length all_walks, walk) all_walks = Ok (all_walks ++ [[walk]]).
Proof.
  unfold load_entry, add_walk. cbn [fst snd]. rewrite Nat.leb_refl.
  by rewrite (proj2 (lookup_ge_None all_walks (length all_walks))) by lia.
Qed.

Lemma load_entry_beyond (all_walks : list (list (list string))) k walk :
  length all_walks < k -> load_entry (k, walk) all_walks = Raise IndexError.
Proof.
  intros Hk. unfold load_entry. cbn [fst snd].
  destruct (Nat.leb_spec k (length all_walks)); [lia|done].
Qed.

(** The lines of one layer, read after the layers before it. *)
Lemma load_layer_rest (before : list (list (list string))) layer_id :
  length before = layer_id ->
  forall walks layer,
    for_each (map (fun walk => (layer_id, walk)) walks) load_entry (before ++ [layer])
    = Ok (before ++ [layer ++ walks]).
Proof.
  intros Hlen. induction walks as [|walk walks IH]; intros layer.
  - by rewrite app_nil_r.
  - cbn [map]. rewrite for_each_cons.
    rewrite (load_entry_existing _ layer_id walk layer).
    2:{ rewrite lookup_app_r by lia. by rewrite Hlen, Nat.sub_diag. }
    cbn [mbind result_bind].
    rewrite <- Hlen at 1. rewrite <- (Nat.add_0_r (length before)).
    rewrite insert_app_r. simpl. rewrite IH. by rewrite <- app_assoc.
Qed.

Lemma load_layer (before : list (list (list string))) layer_id walks :
  length before = layer_id -> walks <> [] ->
  for_each (map (fun walk => (layer_id, walk)) walks) load_entry before
  = Ok (before ++ [walks]).
Proof.
  intros Hlen Hne. destruct walks as [|walk walks]; [done|].
  cbn [map]. rewrite for_each_cons. rewrite <- Hlen at 1.
  rewrite load_entry_new. cbn [mbind result_bind].
  by rewrite (load_layer_rest before layer_id Hlen).
Qed.

Lemma load_layers layers : forall (before : list (list (list string))),
  (forall walks, In walks layers -> walks <> []) ->
  for_each
    (flat_map (fun '(layer_id, walks) => map (fun walk => (layer_id, walk)) walks)
       (zip (seq (length before) (length layers)) layers))
    load_entry before
  = Ok (before ++ layers).
Proof.
  induction layers as [|walks layers IH]; intros before Hne.
  - by rewrite app_nil_r.
  - cbn [length seq zip zip_with flat_map]. rewrite for_each_app.
    rewrite load_layer; [|done|apply Hne; simpl; auto].
    cbn [mbind result_bind].
    replace (S (length before)) with (length (before ++ [walks]))
      by (rewrite length_app; simpl; lia).
    rewrite IH by (intros; apply Hne; simpl; auto).
    by rewrite <- app_assoc.
Qed.

Lemma corpus_entries_clean all_walks :
  (forall walks walk, In walks all_walks -> In walk walks -> clean_walk walk) ->
  forall e, In e (corpus_entries all_walks) -> clean_walk (snd e).
Proof.
  intros Hclean e He. unfold corpus_entries in He.
  apply in_flat_map in He as ([k walks] & Hk & He).
  apply in_map_iff in He as (walk & <- & Hw). simpl.
  apply in_enumerate in Hk. eapply Hclean; [|exact Hw].
  apply list_elem_of_In. eapply list_elem_of_lookup_2. exact Hk.
Qed.

(** Every layer index read so far is below the number of layers. *)
Lemma load_entries_bound entries : forall before all_walks,
  for_each entries load_entry before = Ok all_walks ->
  length before <= length all_walks /\
  forall e, In e entries -> fst e < length all_walks.
Proof.
  induction entries as [|[k walk] entries IH]; intros before all_walks Hrun.
  - injection Hrun as <-. split; [done|]. by intros e [].
  - rewrite for_each_cons in Hrun.
    destruct (Nat.leb_spec k (length before)) as [Hk|Hk].
    2:{ by rewrite load_entry_beyond in Hrun. }
    assert (Hstep : load_entry (k, walk) before = Ok (add_walk k walk before)).
    { unfold load_entry. cbn [fst snd].
      destruct (Nat.leb_spec k (length before)); [done|lia]. }
    rewrite Hstep in Hrun. cbn [mbind result_bind] in Hrun.
    destruct (IH _ _ Hrun) as [Hlen Hin].
    assert (Hgrow : length before <= length (add_walk k walk before) /\
                    k < length (add_walk k walk before)).
    { unfold add_walk. destruct (before !! k) as [layer|] eqn:El.
      - rewrite length_insert. apply lookup_lt_Some in El. lia.
      - rewrite length_app. simpl. lia. }
    split; [lia|]. intros e [<-|He]; [simpl; lia|by apply Hin].
Qed.

(** C5, as the code has it. For every collection of walks in which every
    layer has at least one walk and every token is non-empty and free of
    white space, [load_walks] on the file [save_walks] wrote returns the
    collection itself: the same layers, the same walks, in the same
    order. *)
Theorem C5_save_load_round_trip (all_walks : list (list (list string))) :
  (forall walks, In walks all_walks -> walks <> []) ->
  (forall walks walk, In walks all_walks -> In walk walks -> clean_walk walk) ->
  load_walks (save_walks all_walks) = Ok all_walks.
Proof.
  intros Hne Hclean.
  rewrite save_walks_lines, load_walks_corpus by (by apply corpus_entries_clean).
  unfold corpus_entries, enumerate. by apply (load_layers all_walks []).
Qed.

(** C5 fails on the code for a layer without walks, which writes no line,
    and for a token that is empty or has white space in it, which does not
    come back as one field. *)
Lemma C5_counterexample :
  load_walks (save_walks [[]; [["d"]]]) = Raise IndexError /\
  load_walks (save_walks [[["a"]]; []]) = Ok [[["a"]]] /\
  load_walks (save_walks [[["a b"]]]) = Ok [[["a"; "b"]]] /\
  load_walks (save_walks [[[""]]]) = Ok [[[]]].
Proof. repeat split; reflexivity. Qed.

Lemma C5_witness :
  load_walks (save_walks [[["a"; "b"]; ["c"]]; [["d"]]])
  = Ok [[["a"; "b"]; ["c"]]; [["d"]]].
Proof.
  apply C5_save_load_round_trip.
  - intros walks [<-|[<-|[]]]; discriminate.
  - intros walks walk [<-|[<-|[]]].
    + intros [<-|[<-|[]]] t.
      * intros [<-|[<-|[]]]; (split; [discriminate|reflexivity]).
      * intros [<-|[]]; (split; [discriminate|reflexivity]).
    + intros [<-|[]] t [<-|[]]. split; [discriminate|reflexivity].
Defined.




(** * Further properties *)

(** ** The adjacency structure, continued *)

(** X1. The mapping [get_G_from_edges] returns is symmetric, v is in
    adjacency[u] exactly when u is in adjacency[v], and its keys are exactly
    the nodes that occur in some input pair. *)
Theorem X1_adjacency_symmetric_keys_are_end_points (edges : list (string * string)) :
  (forall u v, v ∈ adjacency (get_G_from_edges edges) u <->
               u ∈ adjacency (get_G_from_edges edges) v) /\
  (forall u, is_Some (get_G_from_edges edges !! u) <->
             exists v, In (u, v) edges \/ In (v, u) edges).
Proof.
  split.
  - intros u v. rewrite !adjacency_spec. tauto.
  - intros u. split.
    + intros [s Hs]. destruct (inhabited_sets_get_G edges u s Hs) as [x Hx].
      exists x. apply adjacency_spec. unfold adjacency. by rewrite Hs.
    + intros [v Hv]. apply adjacency_spec in Hv. unfold adjacency in Hv.
      destruct (get_G_from_edges edges !! u); [by eexists|]. simpl in Hv. set_solver.
Qed.

(** X2. The mapping does not depend on the order of the input pairs nor on
    the orientation of a pair: a permutation of the edges, and the edges
    with both ends swapped, build the same mapping. *)
Theorem X2_get_G_from_edges_order_and_orientation
    (edges edges' : list (string * string)) :
  Permutation edges edges' ->
  get_G_from_edges edges' = get_G_from_edges edges /\
  get_G_from_edges (map (fun e => (snd e, fst e)) edges) = get_G_from_edges edges.
Proof.
  intros Hp. split.
  - apply get_G_from_edges_ext. intros w x.
    pose proof (Permutation_sym Hp) as Hp'.
    split; intros [H|H].
    + left. exact (Permutation_in _ Hp' H).
    + right. exact (Permutation_in _ Hp' H).
    + left. exact (Permutation_in _ Hp H).
    + right. exact (Permutation_in _ Hp H).
  - apply get_G_from_edges_ext. intros w x. rewrite !in_map_iff. split.
    + intros [([a b] & Heq & H)|([a b] & Heq & H)];
        simpl in Heq; injection Heq as <- <-; auto.
    + intros [H|H]; [right; by exists (w, x)|left; by exists (x, w)].
Qed.

Lemma X2_witness :
  Permutation [("a", "b"); ("c", "a")] [("c", "a"); ("a", "b")] /\
  get_G_from_edges [("c", "a"); ("a", "b")] = get_G_from_edges [("a", "b"); ("c", "a")].
Proof.
  split; [apply perm_swap|].
  exact (proj1 (X2_get_G_from_edges_order_and_orientation
                  [("a", "b"); ("c", "a")] [("c", "a"); ("a", "b")]
                  (perm_swap _ _ _))).
Defined.

(** ** The evaluator, continued *)

Section EvaluatorMore.

Context {vector score : Type}.
Variable cosine : vector -> vector -> result score.
Variable score_leb : score -> score -> bool.
Variable list_sort : list score -> list score.

(** X3. After the two loops of [evaluate], the recorded scores are the
    scores of the scoreable true edges followed by those of the scoreable
    false edges, each in input order; the recorded labels are as many 1 as
    there are scored true edges followed by as many 0 as there are scored
    false edges; [true_num] is the number of scored true edges. *)
Theorem X3_recorded_scores_and_labels (model : gmap string vector)
    (true_edges false_edges : list (string * string)) :
  record_edges cosine model true_edges false_edges
  = mkRecorded
      (replicate (length (scores_of cosine model true_edges)) 1
       ++ replicate (length (scores_of cosine model false_edges)) 0)
      (scores_of cosine model true_edges ++ scores_of cosine model false_edges)
      (length (scores_of cosine model true_edges)).
Proof.
  unfold record_edges.
  by rewrite fold_record_false_closed, fold_record_true_closed.
Qed.





End EvaluatorMore.


(** ** The training pairs, continued *)

Lemma for_each_unchanged {A S : Type} (xs : list A) (body : A -> S -> result S) :
  (forall x s, In x xs -> body x s = Ok s) ->
  forall s, for_each xs body s = Ok s.
Proof.
  induction xs as [|x xs IH]; intros H s; [done|].
  rewrite for_each_cons, (H x s) by (simpl; auto). cbn [mbind result_bind].
  apply IH. intros. apply H. simpl. auto.
Qed.

(** X5. A window size below 2 gives no pair at all, whatever the walks and
    the vocabulary (no word is looked up), and a window size 2k + 1 gives
    what the window size 2k gives. *)
Theorem X5_window_size_halved (all_walks : list (list (list string)))
    (vocab : gmap string Vocab) (num_workers : Z) :
  (forall window_size, (window_size < 2)%Z ->
     generate_pairs all_walks vocab window_size num_workers = Ok []) /\
  (forall k, generate_pairs all_walks vocab (2 * k + 1) num_workers
             = generate_pairs all_walks vocab (2 * k) num_workers).
Proof.
  split.
  - intros window_size Hw. unfold generate_pairs. cbv zeta.
    assert (Hhalf : (window_size / 2 <= 0)%Z).
    { apply Z.lt_succ_r. apply Z.div_lt_upper_bound; lia. }
    apply for_each_unchanged. intros [layer walks] s _.
    apply for_each_unchanged. intros walk s' _.
    unfold pairs_of_walk. apply for_each_unchanged. intros i s'' _.
    unfold py_range.
    replace (Z.to_nat (window_size / 2 + 1 - 1)) with 0 by lia. done.
  - intros k. unfold generate_pairs. cbv zeta.
    replace ((2 * k + 1) / 2)%Z with k.
    + replace (2 * k / 2)%Z with k; [done|].
      symmetry. rewrite Z.mul_comm. apply Z.div_mul. lia.
    + apply (Z.div_unique _ _ _ 1); lia.
Qed.

Lemma X5_witness :
  (1 < 2)%Z /\
  generate_pairs [[["a"; "b"; "c"]]] sample_vocab 1 16 = Ok [] /\
  generate_pairs [[["a"; "b"; "c"]]] sample_vocab (2 * 1 + 1) 16
  = generate_pairs [[["a"; "b"; "c"]]] sample_vocab (2 * 1) 16.
Proof.
  destruct (X5_window_size_halved [[["a"; "b"; "c"]]] sample_vocab 16) as [H1 H2].
  split; [lia|]. split; [apply H1; lia|apply H2].
Defined.

(** X6. The pairs are emitted in both directions: with every word of the
    walks in the vocabulary, the triple (c, x, l) is among the pairs exactly
    when (x, c, l) is. *)
Theorem X6_pairs_are_symmetric (all_walks : list (list (list string)))
    (vocab : gmap string Vocab) (window_size num_workers : Z) :
  walks_in_vocab vocab all_walks ->
  exists pairs,
    generate_pairs all_walks vocab window_size num_workers = Ok pairs /\
    forall c x l, In (c, x, l) pairs <-> In (x, c, l) pairs.
Proof.
  intros Hv. eexists. split; [by apply generate_pairs_spec|].
  assert (Hhalf : forall c x l,
    In (c, x, l) (window_pairs vocab (Z.to_nat (window_size / 2)) all_walks) ->
    In (x, c, l) (window_pairs vocab (Z.to_nat (window_size / 2)) all_walks)).
  { intros c x l. rewrite !in_window_pairs.
    intros (walks & walk & i & j & wi & wc & Hl & Hw & Hj & Hi & Hc & -> & ->).
    destruct Hc as [[Hji Hc]|Hc].
    - exists walks, walk, (i - j), j, wc, wi.
      repeat (split; [done|]). split; [|done]. right.
      by replace (i - j + j) with i by lia.
    - exists walks, walk, (i + j), j, wc, wi.
      repeat (split; [done|]). split; [|done]. left. split; [lia|].
      by replace (i + j - j) with i by lia. }
  intros c x l. split; apply Hhalf.
Qed.

Lemma X6_witness :
  walks_in_vocab sample_vocab [[["a"; "b"; "c"]]] /\
  exists pairs,
    generate_pairs [[["a"; "b"; "c"]]] sample_vocab 2 16 = Ok pairs /\
    (In (0, 1, 0) pairs <-> In (1, 0, 0) pairs).
Proof.
  split; [exact sample_walk_in_vocab|].
  destruct (X6_pairs_are_symmetric [[["a"; "b"; "c"]]] sample_vocab 2 16
              sample_walk_in_vocab) as (pairs & Hrun & Hsym).
  exists pairs. split; [exact Hrun|apply Hsym].
Defined.

(** ** The pipeline of [generate] *)

Lemma in_tokens all_walks walks walk (word : string) :
  In walks all_walks -> In walk walks -> In word walk -> In word (tokens all_walks).
Proof.
  intros H1 H2 H3. unfold tokens.
  apply in_concat. exists walk. split; [|done].
  apply in_concat. exists walks. done.
Qed.

Lemma generate_vocab_indexed all_walks (vocab : gmap string Vocab) index2word :
  generate_vocab all_walks = Ok (vocab, index2word) ->
  forall w, In w (tokens all_walks) ->
    exists v, vocab !! w = Some v /\ index v < length index2word /\
              index2word !! index v = Some w.
Proof.
  intros Hrun w Hw.
  destruct (generate_vocab_spec all_walks)
    as (vocab' & i2w & Hrun' & _ & Hmem & Hpos & _).
  rewrite Hrun in Hrun'. injection Hrun' as <- <-.
  apply Hmem in Hw. apply list_elem_of_In, list_elem_of_lookup in Hw as [i Hi].
  eexists. split; [by apply (Hpos i w)|]. simpl.
  split; [by eapply lookup_lt_Some|done].
Qed.

Lemma pairs_after_vocab all_walks (vocab : gmap string Vocab) index2word
    window_size num_workers :
  generate_vocab all_walks = Ok (vocab, index2word) ->
  generate_pairs all_walks vocab window_size num_workers
  = Ok (window_pairs vocab (Z.to_nat (window_size / 2)) all_walks) /\
  forall c x l,
    In (c, x, l) (window_pairs vocab (Z.to_nat (window_size / 2)) all_walks) ->
    c < length index2word /\ x < length index2word /\ l < length all_walks.
Proof.
  intros Hrun.
  assert (Hidx : forall walks walk word,
            In walks all_walks -> In walk walks -> In word walk ->
            is_Some (vocab !! word) /\ index_of vocab word < length index2word).
  { intros walks walk word H1 H2 H3.
    destruct (generate_vocab_indexed _ _ _ Hrun word (in_tokens _ _ _ _ H1 H2 H3))
      as (v & Hv & Hlt & _).
    unfold index_of. rewrite Hv. split; [by eexists|done]. }
  split.
  - apply generate_pairs_spec. intros walks walk word H1 H2 H3.
    by destruct (Hidx walks walk word H1 H2 H3).
  - intros c x l Hin. apply in_window_pairs in Hin
      as (walks & walk & i & j & wi & wc & Hl & Hw & _ & Hi & Hc & -> & ->).
    assert (Hwalks : In walks all_walks).
    { apply list_elem_of_In. eapply list_elem_of_lookup_2. exact Hl. }
    assert (Hwi : In wi walk).
    { apply list_elem_of_In. eapply list_elem_of_lookup_2. exact Hi. }
    assert (Hwc : In wc walk).
    { destruct Hc as [[_ Hc]|Hc]; apply list_elem_of_In;
        eapply list_elem_of_lookup_2; exact Hc. }
    split; [by destruct (Hidx walks walk wi)|].
    split; [by destruct (Hidx walks walk wc)|].
    by eapply lookup_lt_Some.
Qed.

(** X7. Given a walk file that loads, [generate] never fails afterwards:
    the vocabulary built from the loaded walks knows every word
    [generate_pairs] looks up. It returns the vocabulary and [index2word]
    of the loaded walks and the pairs of the window rule, writes no file and
    leaves the walker alone; every center and context index of a pair is
    below the length of [index2word] and every layer index is below the
    number of layers. *)
Theorem X7_generate_from_walk_file (walker_state : Type)
    (simulate_walks :
       gmap string (gset string) -> option (gmap string string) -> Z -> Z -> Z ->
       option string -> walker_state -> result (list (list string) * walker_state))
    (read_file : string -> result string)
    (network_data : list (string * list (string * string)))
    (num_walks walk_length : Z) (schema : option string) (file_name : string)
    (window_size num_workers : Z) (path content : string)
    (all_walks : list (list (list string))) (st : walker_state) :
  read_file path = Ok content ->
  load_walks content = Ok all_walks ->
  exists vocab index2word,
    generate_vocab all_walks = Ok (vocab, index2word) /\
    generate walker_state simulate_walks read_file network_data num_walks
      walk_length schema file_name window_size num_workers (Some path) st
    = Ok (vocab, index2word,
          window_pairs vocab (Z.to_nat (window_size / 2)) all_walks, [], st) /\
    forall c x l,
      In (c, x, l) (window_pairs vocab (Z.to_nat (window_size / 2)) all_walks) ->
      c < length index2word /\ x < length index2word /\ l < length all_walks.
Proof.
  intros Hread Hload.
  destruct (generate_vocab_spec all_walks) as (vocab & i2w & Hrun & _).
  destruct (pairs_after_vocab all_walks vocab i2w window_size num_workers Hrun)
    as [Hpairs Hbound].
  exists vocab, i2w. split; [done|]. split; [|done].
  unfold generate. rewrite Hread. cbn [mbind result_bind]. rewrite Hload.
  cbn [mbind result_bind]. rewrite Hrun. cbn [mbind result_bind].
  by rewrite Hpairs.
Qed.

Lemma X7_witness :
  sample_read_file "walks.txt" = Ok sample_walk_file /\
  load_walks sample_walk_file = Ok [[["a"; "b"]; ["c"]]; [["d"]]] /\
  exists vocab index2word,
    generate nat sample_simulate_walks sample_read_file [] 20 10 None "data" 5 16
      (Some "walks.txt") 0
    = Ok (vocab, index2word,
          window_pairs vocab (Z.to_nat (5 / 2)) [[["a"; "b"]; ["c"]]; [["d"]]], [], 0).
Proof.
  split; [reflexivity|]. split; [reflexivity|].
  destruct (X7_generate_from_walk_file nat sample_simulate_walks sample_read_file
              [] 20 10 None "data" 5 16 "walks.txt" sample_walk_file
              [[["a"; "b"]; ["c"]]; [["d"]]] 0 eq_refl eq_refl)
    as (vocab & i2w & _ & Hrun & _).
  exists vocab, i2w. exact Hrun.
Defined.

Lemma load_saved_walks (all_walks : list (list (list string))) :
  (forall walks, In walks all_walks -> walks <> []) ->
  (forall walks walk, In walks all_walks -> In walk walks -> clean_walk walk) ->
  load_walks (save_walks all_walks) = Ok all_walks.
Proof.
  intros Hne Hclean.
  rewrite save_walks_lines, load_walks_corpus by (by apply corpus_entries_clean).
  unfold corpus_entries, enumerate. by apply (load_layers all_walks []).
Qed.

(** X8. Without a walk file, [generate] writes the generated walks to
    file_name/walks.txt and nothing else; when every layer has a walk and
    every node identifier of the walks is non-empty and free of white
    space, running [generate] again on that file, whatever the walker and
    the other arguments but the window size, returns the same vocabulary,
    the same [index2word] and the same pairs. *)
Theorem X8_generate_saves_what_it_can_reload (walker_state : Type)
    (simulate_walks :
       gmap string (gset string) -> option (gmap string string) -> Z -> Z -> Z ->
       option string -> walker_state -> result (list (list string) * walker_state))
    (read_file : string -> result string)
    (network_data : list (string * list (string * string)))
    (num_walks walk_length : Z) (schema : option string) (file_name : string)
    (window_size num_workers : Z)
    (all_walks : list (list (list string))) (st st' : walker_state) :
  generate_walks walker_state simulate_walks read_file network_data num_walks
    walk_length schema file_name num_workers st = Ok (all_walks, st') ->
  exists vocab index2word pairs,
    generate walker_state simulate_walks read_file network_data num_walks
      walk_length schema file_name window_size num_workers None st
    = Ok (vocab, index2word, pairs,
          [(file_name +:+ "/walks.txt", save_walks all_walks)], st') /\
    ((forall walks, In walks all_walks -> walks <> []) ->
     (forall walks walk, In walks all_walks -> In walk walks -> clean_walk walk) ->
     forall (read_file' : string -> result string) network_data' num_walks'
            walk_length' schema' file_name' num_workers' path st'',
       read_file' path = Ok (save_walks all_walks) ->
       generate walker_state simulate_walks read_file' network_data' num_walks'
         walk_length' schema' file_name' window_size num_workers' (Some path) st''
       = Ok (vocab, index2word, pairs, [], st'')).
Proof.
  intros Hwalks.
  destruct (generate_vocab_spec all_walks) as (vocab & i2w & Hrun & _).
  destruct (pairs_after_vocab all_walks vocab i2w window_size num_workers Hrun)
    as [Hpairs _].
  exists vocab, i2w, (window_pairs vocab (Z.to_nat (window_size / 2)) all_walks).
  split.
  - unfold generate. rewrite Hwalks. cbn [mbind result_bind]. rewrite Hrun.
    cbn [mbind result_bind]. by rewrite Hpairs.
  - intros Hne Hclean read_file' nd' nw' wl' sch' fn' nwk' path st'' Hread.
    destruct (pairs_after_vocab all_walks vocab i2w window_size nwk' Hrun)
      as [Hpairs' _].
    unfold generate. rewrite Hread. cbn [mbind result_bind].
    rewrite load_saved_walks by done. cbn [mbind result_bind]. rewrite Hrun.
    cbn [mbind result_bind]. by rewrite Hpairs'.
Qed.

Lemma X8_witness :
  generate_walks nat sample_simulate_walks sample_read_file sample_edges
    20 10 None "data" 16 0
  = Ok ([[["a"; "a"]; ["b"; "b"]]; [["c"; "c"]]], 2) /\
  exists vocab index2word pairs,
    generate nat sample_simulate_walks sample_read_file sample_edges
      20 10 None "data" 5 16 None 0
    = Ok (vocab, index2word, pairs,
          [("data" +:+ "/walks.txt",
            save_walks [[["a"; "a"]; ["b"; "b"]]; [["c"; "c"]]])], 2).
Proof.
  split; [reflexivity|].
  destruct (X8_generate_saves_what_it_can_reload nat sample_simulate_walks
              sample_read_file sample_edges 20 10 None "data" 5 16
              [[["a"; "a"]; ["b"; "b"]]; [["c"; "c"]]] 0 2 eq_refl)
    as (vocab & i2w & pairs & Hrun & _).
  exists vocab, i2w, pairs. exact Hrun.
Defined.

Lemma walk_layers_spec (walker_state : Type)
    (simulate_walks :
       gmap string (gset string) -> option (gmap string string) -> Z -> Z -> Z ->
       option string -> walker_state -> result (list (list string) * walker_state))
    (network_data : list (string * list (string * string)))
    (node_type : option (gmap string string)) (num_walks walk_length : Z)
    (schema : option string) (num_workers : Z) :
  forall (layers : list (nat * string)) before st all_walks st',
  for_each layers
    (walk_layer walker_state simulate_walks network_data node_type num_walks
       walk_length schema num_workers) (before, st) = Ok (all_walks, st') ->
  exists produced,
    all_walks = before ++ produced /\
    Forall2
      (fun layer walks =>
         exists edges s s',
           odict_get network_data (snd layer) = Ok edges /\
           simulate_walks (get_G_from_edges edges) node_type num_workers
             num_walks walk_length schema s = Ok (walks, s'))
      layers produced.
Proof.
  induction layers as [|layer layers IH]; intros before st all_walks st' Hrun.
  - injection Hrun as <- <-. exists []. split; [by rewrite app_nil_r|constructor].
  - rewrite for_each_cons in Hrun.
    destruct (walk_layer walker_state simulate_walks network_data node_type
                num_walks walk_length schema num_workers layer (before, st))
      as [[aw1 st1']|e] eqn:Estep; [|done].
    cbn [mbind result_bind] in Hrun.
    unfold walk_layer in Estep.
    destruct (odict_get network_data (snd layer)) as [edges|e] eqn:Eg; [|done].
    cbn [mbind result_bind] in Estep.
    destruct (simulate_walks (get_G_from_edges edges) node_type num_workers
                num_walks walk_length schema st) as [[walks st1]|e] eqn:Es; [|done].
    cbn [mbind result_bind] in Estep. injection Estep as <- <-.
    destruct (IH _ _ _ _ Hrun) as (produced & -> & Hall).
    exists (walks :: produced). split; [by rewrite <- app_assoc|].
    constructor; [|done]. exists edges, st, st1. done.
Qed.

(** X9. When [generate_walks] returns, it returns one layer of walks per
    edge type of the network data, in the order of the dict: each layer is
    what the walker returned for the adjacency structure
    [get_G_from_edges] builds from the edges of that type. Without a schema
    no file is read, so the result does not depend on the file system. *)
Theorem X9_generate_walks_one_layer_per_edge_type (walker_state : Type)
    (simulate_walks :
       gmap string (gset string) -> option (gmap string string) -> Z -> Z -> Z ->
       option string -> walker_state -> result (list (list string) * walker_state))
    (read_file : string -> result string)
    (network_data : list (string * list (string * string)))
    (num_walks walk_length : Z) (schema : option string) (file_name : string)
    (num_workers : Z) (st st' : walker_state)
    (all_walks : list (list (list string))) :
  generate_walks walker_state simulate_walks read_file network_data num_walks
    walk_length schema file_name num_workers st = Ok (all_walks, st') ->
  length all_walks = length network_data /\
  (exists node_type,
     (schema = None -> node_type = None) /\
     Forall2
       (fun edge_type walks =>
          exists edges s s',
            odict_get network_data edge_type = Ok edges /\
            simulate_walks (get_G_from_edges edges) node_type num_workers
              num_walks walk_length schema s = Ok (walks, s'))
       (map fst network_data) all_walks) /\
  (schema = None ->
   forall read_file' : string -> result string,
     generate_walks walker_state simulate_walks read_file' network_data num_walks
       walk_length schema file_name num_workers st = Ok (all_walks, st')).
Proof.
  intros Hrun. unfold generate_walks in Hrun.
  assert (Hlayers : exists node_type,
    (schema = None -> node_type = None) /\
    for_each (enumerate (map fst network_data))
      (walk_layer walker_state simulate_walks network_data node_type num_walks
         walk_length schema num_workers) ([], st) = Ok (all_walks, st')).
  { destruct schema as [sch|].
    - destruct (read_file (file_name +:+ "/node_type.txt")) as [content|e]; [|done].
      cbn [mbind result_bind] in Hrun.
      destruct (load_node_type content) as [nt|e]; [|done].
      exists (Some nt). split; [done|exact Hrun].
    - exists None. split; [done|exact Hrun]. }
  destruct Hlayers as (node_type & Hnone & Hloop).
  destruct (walk_layers_spec _ _ _ _ _ _ _ _ _ _ _ _ _ Hloop) as (produced & -> & Hall).
  cbn [app] in *.
  assert (Hall' : Forall2
       (fun edge_type walks =>
          exists edges s s',
            odict_get network_data edge_type = Ok edges /\
            simulate_walks (get_G_from_edges edges) node_type num_workers
              num_walks walk_length schema s = Ok (walks, s'))
       (map fst network_data) produced).
  { rewrite <- (snd_enumerate (map fst network_data)).
    apply Forall2_fmap_l. exact Hall. }
  split; [|split].
  - apply Forall2_length in Hall'. by rewrite length_map in Hall'.
  - exists node_type. done.
  - intros -> read_file'. unfold generate_walks. cbn [mbind result_bind].
    rewrite (Hnone eq_refl) in Hloop. exact Hloop.
Qed.

Lemma X9_witness :
  generate_walks nat sample_simulate_walks sample_read_file sample_edges
    20 10 None "data" 16 0
  = Ok ([[["a"; "a"]; ["b"; "b"]]; [["c"; "c"]]], 2) /\
  length [[["a"; "a"]; ["b"; "b"]]; [["c"; "c"]]] = length sample_edges.
Proof.
  split; [reflexivity|].
  exact (proj1 (X9_generate_walks_one_layer_per_edge_type nat sample_simulate_walks
                  sample_read_file sample_edges 20 10 None "data" 16 0 2
                  [[["a"; "a"]; ["b"; "b"]]; [["c"; "c"]]] eq_refl)).
Defined.

(** ** The vocabulary, continued *)

Lemma counter_incr_keys_old word (d : list (string * nat)) :
  In word (map fst d) -> map fst (counter_incr word d) = map fst d.
Proof.
  induction d as [|[k v] d IH]; simpl; [done|].
  intros [->|H].
  - by destruct (decide (word = word)).
  - destruct (decide (k = word)); [done|]. simpl. by rewrite IH.
Qed.

Lemma counter_incr_keys_new word (d : list (string * nat)) :
  ~ In word (map fst d) -> map fst (counter_incr word d) = map fst d ++ [word].
Proof.
  induction d as [|[k v] d IH]; simpl; [done|].
  intros H. destruct (decide (k = word)) as [->|Hne]; [tauto|].
  simpl. rewrite IH; [done|tauto].
Qed.

Lemma count_fold_keys_grow toks : forall d : list (string * nat),
  exists more,
    map fst (fold_left (fun d word => counter_incr word d) toks d)
    = map fst d ++ more /\
    forall w, In w more -> In w toks.
Proof.
  induction toks as [|t toks IH]; intros d; simpl.
  - exists []. split; [by rewrite app_nil_r|done].
  - destruct (IH (counter_incr t d)) as (more & Hk & Hin).
    destruct (in_dec string_dec t (map fst d)) as [Ht|Ht].
    + rewrite counter_incr_keys_old in Hk by done.
      exists more. split; [done|]. intros w Hw. right. by apply Hin.
    + rewrite counter_incr_keys_new in Hk by done.
      exists (t :: more). split; [by rewrite Hk, <- app_assoc|].
      intros w [<-|Hw]; [by left|right; by apply Hin].
Qed.

Lemma first_seen_precedes (pre post : list string) (u v : string) :
  ~ In v pre -> u <> v -> In v post ->
  precedes u v
    (map fst (fold_left (fun d word => counter_incr word d) (pre ++ u :: post) [])).
Proof.
  intros Hv Hne Hpost. rewrite fold_left_app. cbn [fold_left].
  set (d1 := fold_left (fun d word => counter_incr word d) pre []).
  destruct (count_fold_spec pre [] (List.NoDup_nil _)) as (_ & _ & Hkeys1).
  fold d1 in Hkeys1.
  assert (Hv1 : ~ In v (map fst d1)).
  { intros H. apply Hkeys1 in H as [[]|H]. done. }
  set (d2 := counter_incr u d1).
  assert (Hu2 : In u (map fst d2)) by (apply counter_incr_keys; auto).
  assert (Hv2 : ~ In v (map fst d2)).
  { intros H. apply counter_incr_keys in H as [H|H]; [done|congruence]. }
  destruct (count_fold_keys_grow post d2) as (more & Hk & Hin).
  destruct (count_fold_spec post d2) as (_ & _ & Hkeys).
  { apply counter_incr_NoDup.
    by destruct (count_fold_spec pre [] (List.NoDup_nil _)) as (H & _). }
  assert (Hvm : In v more).
  { assert (H : In v (map fst d2 ++ more)).
    { rewrite <- Hk. apply Hkeys. by right. }
    apply in_app_iff in H as [H|H]; done. }
  apply in_split in Hu2 as (a & b & Ha). apply in_split in Hvm as (c & e & Hc).
  exists a, (b ++ c), e. rewrite Hk, Ha, Hc.
  by rewrite <- !app_assoc.
Qed.

Lemma insert_desc_stable {A : Type} (c : nat) (x : nat * A) l :
  List.filter (fun p => fst p =? c) (insert_desc x l)
  = List.filter (fun p => fst p =? c) (x :: l).
Proof.
  induction l as [|y l IH]; [done|]. cbn [insert_desc].
  destruct (Nat.leb_spec (fst y) (fst x)) as [Hle|Hlt]; [done|].
  cbn [List.filter] in *. rewrite IH.
  destruct (Nat.eqb_spec (fst x) c), (Nat.eqb_spec (fst y) c); try done. lia.
Qed.

Lemma sort_desc_stable {A : Type} (c : nat) (l : list (nat * A)) :
  List.filter (fun p => fst p =? c) (sort_desc l)
  = List.filter (fun p => fst p =? c) l.
Proof.
  induction l as [|x l IH]; [done|].
  cbn [sort_desc foldr]. fold (sort_desc l). rewrite insert_desc_stable.
  cbn [List.filter]. by rewrite IH.
Qed.

Lemma filter_split {A : Type} (p : A -> bool) (l x y : list A) (a : A) :
  List.filter p l = x ++ a :: y ->
  exists l1 l2, l = l1 ++ a :: l2 /\ List.filter p l1 = x /\ List.filter p l2 = y.
Proof.
  revert x. induction l as [|b l IH]; intros x H; simpl in H.
  - by destruct x.
  - destruct (p b) eqn:Eb.
    + destruct x as [|x0 x].
      * injection H as -> Hy. exists [], l. done.
      * injection H as -> H. destruct (IH x H) as (l1 & l2 & -> & H1 & H2).
        exists (x0 :: l1), l2. simpl. by rewrite Eb, H1.
    + destruct (IH x H) as (l1 & l2 & -> & H1 & H2).
      exists (b :: l1), l2. simpl. by rewrite Eb.
Qed.

Lemma precedes_filter {A : Type} (p : A -> bool) (a b : A) (l : list A) :
  p a = true -> p b = true ->
  precedes a b l <-> precedes a b (List.filter p l).
Proof.
  intros Ha Hb. split.
  - intros (l1 & l2 & l3 & ->).
    rewrite List.filter_app. cbn [List.filter]. rewrite Ha.
    rewrite List.filter_app. cbn [List.filter]. rewrite Hb.
    by eexists _, _, _.
  - intros (x & y & z & H).
    apply filter_split in H as (l1 & r & -> & _ & H).
    apply filter_split in H as (l2 & l3 & -> & _ & _).
    by exists l1, l2, l3.
Qed.

Lemma precedes_map {A B : Type} (f : A -> B) (a b : A) (l : list A) :
  precedes a b l -> precedes (f a) (f b) (map f l).
Proof.
  intros (l1 & l2 & l3 & ->). exists (map f l1), (map f l2), (map f l3).
  by rewrite map_app, (map_cons f), map_app.
Qed.

Lemma precedes_positions {A : Type} (a b : A) (l : list A) :
  precedes a b l ->
  exists i j, i < j /\ l !! i = Some a /\ l !! j = Some b.
Proof.
  intros (l1 & l2 & l3 & ->).
  exists (length l1), (length l1 + S (length l2)). split; [lia|]. split.
  - by rewrite list_lookup_middle.
  - rewrite lookup_app_r by lia.
    replace (length l1 + S (length l2) - length l1) with (S (length l2)) by lia.
    simpl. by rewrite list_lookup_middle.
Qed.

Lemma generate_vocab_index2word all_walks (vocab : gmap string Vocab) index2word :
  generate_vocab all_walks = Ok (vocab, index2word) ->
  index2word
  = map snd (sort_desc (map (fun w => (occurrences w (tokens all_walks), w))
                          (map fst (count_all all_walks)))).
Proof.
  unfold generate_vocab.
  destruct (count_fold_spec (tokens all_walks) [] (List.NoDup_nil _))
    as (Hnd & Hget & Hkeys).
  rewrite <- count_all_tokens in Hnd, Hget, Hkeys.
  set (toks := tokens all_walks) in *.
  set (raw := count_all all_walks) in *.
  pose proof (first_indices_fold raw ∅ [] Hnd) as Hfirst.
  change (fold_left _ raw (∅, [])) with (first_indices raw) in Hfirst.
  destruct (first_indices raw) as [vocab0 i2w0]. simpl in Hfirst.
  destruct Hfirst as (-> & Hcount & Hnone).
  set (key := fun w : string => (occurrences w toks, w)).
  unfold sort_by_count.
  rewrite (mapM_ok _ key).
  2:{ intros w Hw. specialize (Hcount w Hw). unfold dict_get.
      destruct (vocab0 !! w) as [v|]; [|done]. simpl in *.
      injection Hcount as ->. unfold key. rewrite Hget. simpl. done. }
  cbn [mbind result_bind].
  destruct (for_each _ set_index vocab0) as [vocab'|e]; [|done].
  cbn [mbind result_bind]. by intros [= _ <-].
Qed.

(** X10. Words with equal counts are indexed in the order of their first
    occurrence: when u occurs in the walks before any occurrence of v (the
    walks read layer by layer, walk by walk) and both have the same count,
    [generate_vocab] gives u the smaller index. *)
Theorem X10_equal_counts_keep_first_seen_order (all_walks : list (list (list string))) :
  exists (vocab : gmap string Vocab) (index2word : list string),
    generate_vocab all_walks = Ok (vocab, index2word) /\
    forall pre post u v cu cv,
      tokens all_walks = pre ++ u :: post -> ~ In v pre -> u <> v ->
      vocab !! u = Some cu -> vocab !! v = Some cv -> count cu = count cv ->
      index cu < index cv.
Proof.
  destruct (generate_vocab_spec all_walks)
    as (vocab & i2w & Hrun & Hnd & Hmem & Hpos & Hout & _).
  exists vocab, i2w. split; [done|].
  intros pre post u v cu cv Htoks Hv Hne Hu Hcv Hc.
  assert (Hat : forall w c, vocab !! w = Some c ->
            In w (tokens all_walks) /\ i2w !! index c = Some w /\
            count c = occurrences w (tokens all_walks)).
  { intros w c Hw. destruct (in_dec string_dec w i2w) as [Hin|Hin].
    - split; [by apply Hmem|].
      apply list_elem_of_In, list_elem_of_lookup in Hin as [i Hi].
      rewrite (Hpos i w Hi) in Hw. by injection Hw as <-.
    - rewrite (Hout w Hin) in Hw. done. }
  destruct (Hat u cu Hu) as (_ & Hiu & Hcu).
  destruct (Hat v cv Hcv) as (Hvin & Hiv & Hcv').
  assert (Hpost : In v post).
  { rewrite Htoks in Hvin. apply in_app_iff in Hvin as [H|[H|H]]; done. }
  pose proof (first_seen_precedes pre post u v Hv Hne Hpost) as Hprec.
  rewrite <- Htoks, <- count_all_tokens in Hprec.
  set (key := fun w : string => (occurrences w (tokens all_walks), w)).
  apply (precedes_map key) in Hprec.
  apply (precedes_filter (fun p => fst p =? count cu)) in Hprec.
  2:{ unfold key. simpl. apply Nat.eqb_eq. done. }
  2:{ unfold key. simpl. apply Nat.eqb_eq. congruence. }
  rewrite <- sort_desc_stable in Hprec.
  apply precedes_filter in Hprec.
  2:{ unfold key. simpl. apply Nat.eqb_eq. done. }
  2:{ unfold key. simpl. apply Nat.eqb_eq. congruence. }
  apply (precedes_map snd) in Hprec. unfold key in Hprec. cbn [snd] in Hprec.
  rewrite <- (generate_vocab_index2word _ _ _ Hrun) in Hprec.
  apply precedes_positions in Hprec as (i & j & Hij & Hi & Hj).
  apply NoDup_ListNoDup in Hnd.
  assert (i = index cu) as <- by (eapply NoDup_lookup; eauto).
  assert (j = index cv) as <- by (eapply NoDup_lookup; eauto).
  done.
Qed.

Lemma X10_witness :
  exists (vocab : gmap string Vocab) (index2word : list string),
    generate_vocab [[["a"; "b"; "a"]; ["b"; "c"]]] = Ok (vocab, index2word) /\
    forall cu cv,
      vocab !! "a" = Some cu -> vocab !! "b" = Some cv -> count cu = count cv ->
      index cu < index cv.
Proof.
  destruct (X10_equal_counts_keep_first_seen_order [[["a"; "b"; "a"]; ["b"; "c"]]])
    as (vocab & i2w & Hrun & Hties).
  exists vocab, i2w. split; [exact Hrun|].
  intros cu cv. apply (Hties [] ["b"; "a"; "b"; "c"] "a" "b").
  - reflexivity.
  - intros [].
  - discriminate.
Defined.

(** ** The persisted walk corpus, continued *)

Lemma load_entries_layers entries : forall before all_walks,
  for_each entries load_entry before = Ok all_walks ->
  forall k,
    all_walks !! k
    = match before !! k with
      | Some layer => Some (layer ++ walks_of_layer k entries)
      | None => if k <? length all_walks then Some (walks_of_layer k entries) else None
      end.
Proof.
  induction entries as [|[k0 walk] entries IH]; intros before all_walks Hrun k.
  - injection Hrun as <-. unfold walks_of_layer. simpl.
    destruct (before !! k) as [layer|] eqn:El; [by rewrite app_nil_r|].
    apply lookup_ge_None in El. by destruct (Nat.ltb_spec k (length before)); [lia|].
  - rewrite for_each_cons in Hrun.
    destruct (Nat.leb_spec k0 (length before)) as [Hk0|Hk0].
    2:{ by rewrite load_entry_beyond in Hrun. }
    assert (Hsel : walks_of_layer k ((k0, walk) :: entries)
                   = if k0 =? k then walk :: walks_of_layer k entries
                     else walks_of_layer k entries).
    { unfold walks_of_layer. simpl. by destruct (k0 =? k). }
    rewrite Hsel.
    destruct (before !! k0) as [layer0|] eqn:E0.
    + rewrite (load_entry_existing _ _ _ _ E0) in Hrun.
      cbn [mbind result_bind] in Hrun. rewrite (IH _ _ Hrun k).
      apply lookup_lt_Some in E0 as Hlt0.
      destruct (Nat.eqb_spec k0 k) as [->|Hne].
      * rewrite list_lookup_insert_eq by done. rewrite E0.
        by rewrite <- app_assoc.
      * by rewrite list_lookup_insert_ne by done.
    + apply lookup_ge_None in E0.
      assert (k0 = length before) as -> by lia.
      rewrite load_entry_new in Hrun. cbn [mbind result_bind] in Hrun.
      rewrite (IH _ _ Hrun k).
      destruct (load_entries_bound _ _ _ Hrun) as [Hlen _].
      rewrite length_app in Hlen. simpl in Hlen.
      destruct (Nat.eqb_spec (length before) k) as [<-|Hne].
      * rewrite lookup_app_r by lia. rewrite Nat.sub_diag. simpl.
        rewrite (proj2 (lookup_ge_None before (length before))) by lia.
        by destruct (Nat.ltb_spec (length before) (length all_walks)); [|lia].
      * destruct (before !! k) as [layer|] eqn:Ek.
        -- rewrite lookup_app_l by (by eapply lookup_lt_Some). by rewrite Ek.
        -- apply lookup_ge_None in Ek.
           rewrite (proj2 (lookup_ge_None (before ++ [[walk]]) k)); [done|].
           rewrite length_app. simpl. lia.
Qed.

Lemma load_entries_inhabited entries : forall before all_walks,
  for_each entries load_entry before = Ok all_walks ->
  (forall layer, In layer before -> layer <> []) ->
  forall layer, In layer all_walks -> layer <> [].
Proof.
  induction entries as [|[k0 walk] entries IH]; intros before all_walks Hrun Hne.
  - by injection Hrun as <-.
  - rewrite for_each_cons in Hrun.
    destruct (load_entry (k0, walk) before) as [before'|e] eqn:Estep; [|done].
    cbn [mbind result_bind] in Hrun. apply (IH _ _ Hrun).
    unfold load_entry in Estep. cbn [fst snd] in Estep.
    destruct (k0 <=? length before); [|done]. injection Estep as <-.
    unfold add_walk. intros layer Hl.
    destruct (before !! k0) as [layer0|] eqn:E0.
    + apply list_elem_of_In, list_elem_of_lookup in Hl as [i Hi].
      destruct (decide (i = k0)) as [->|Hik].
      * rewrite list_lookup_insert_eq in Hi by (by eapply lookup_lt_Some).
        injection Hi as <-. by destruct layer0.
      * rewrite list_lookup_insert_ne in Hi by done.
        apply Hne. apply list_elem_of_In. by eapply list_elem_of_lookup_2.
    + apply in_app_iff in Hl as [Hl|[<-|[]]]; [by apply Hne|done].
Qed.

(** X11. When a file of well-formed lines loads, layer k of the result
    holds exactly the walks of the lines whose layer index is k, in the
    order of the lines, and no layer is empty. *)
Theorem X11_load_walks_groups_lines_by_layer
    (entries : list (nat * list string)) (all_walks : list (list (list string))) :
  (forall e, In e entries -> clean_walk (snd e)) ->
  load_walks (corpus_lines entries) = Ok all_walks ->
  (forall k, k < length all_walks ->
     all_walks !! k = Some (walks_of_layer k entries)) /\
  (forall layer, In layer all_walks -> layer <> []).
Proof.
  intros Hclean Hrun. rewrite load_walks_corpus in Hrun by done. split.
  - intros k Hk. rewrite (load_entries_layers _ _ _ Hrun k). simpl.
    by destruct (Nat.ltb_spec k (length all_walks)); [|lia].
  - apply (load_entries_inhabited _ _ _ Hrun). by intros layer [].
Qed.

Lemma X11_witness :
  load_walks (corpus_lines [(0, ["a"]); (1, ["b"]); (0, ["c"])])
  = Ok [[["a"]; ["c"]]; [["b"]]] /\
  [[["a"]; ["c"]]; [["b"]]] !! 0
  = Some (walks_of_layer 0 [(0, ["a"]); (1, ["b"]); (0, ["c"])]).
Proof.
  split; [reflexivity|].
  refine (proj1 (X11_load_walks_groups_lines_by_layer
                   [(0, ["a"]); (1, ["b"]); (0, ["c"])] [[["a"]; ["c"]]; [["b"]]] _ _)
            0 _).
  - intros e [<-|[<-|[<-|[]]]] t [<-|[]]; (split; [discriminate|reflexivity]).
  - reflexivity.
  - simpl. lia.
Defined.

Lemma py_lines_corpus_then entries tail :
  (forall e, In e entries -> clean_walk (snd e)) ->
  py_lines (corpus_lines entries +:+ tail)
  = map (fun e => walk_line (fst e) (snd e)) entries ++ py_lines tail.
Proof.
  induction entries as [|[k walk] entries IH]; intros Hclean; [done|].
  cbn [corpus_lines map fst snd]. unfold walk_line at 1.
  rewrite !string_app_assoc, py_lines_line.
  - rewrite IH; [done|]. intros e He. apply Hclean. simpl. auto.
  - apply no_eol_join. intros t [<-|Ht]; [apply str_of_nat_clean|].
    rewrite map_id in Ht. apply (Hclean (k, walk)); simpl; auto.
Qed.

Lemma load_walks_after entries (all_walks : list (list (list string))) line rest :
  (forall e, In e entries -> clean_walk (snd e)) ->
  no_eol line = true ->
  load_walks (corpus_lines entries) = Ok all_walks ->
  load_walks (corpus_lines entries +:+ line +:+ newline +:+ rest)
  = load_line (line +:+ newline) all_walks ≫= for_each (py_lines rest) load_line.
Proof.
  intros Hclean Hline Hrun. unfold load_walks in *.
  rewrite py_lines_corpus_then by done.
  rewrite py_lines_corpus in Hrun by done.
  rewrite py_lines_line by done.
  rewrite for_each_app, Hrun. cbn [mbind result_bind]. by rewrite for_each_cons.
Qed.

(** X12. A malformed line aborts the whole load, whatever follows it:
    after lines that load, an empty line ends [load_walks] with
    [IndexError], and a line whose first field is not an integer ends it
    with [ValueError]. *)
Theorem X12_malformed_line_aborts_the_load
    (entries : list (nat * list string)) (all_walks : list (list (list string)))
    (rest : string) :
  (forall e, In e entries -> clean_walk (snd e)) ->
  load_walks (corpus_lines entries) = Ok all_walks ->
  load_walks (corpus_lines entries +:+ newline +:+ rest) = Raise IndexError /\
  (forall first walk,
     clean_token first -> clean_walk walk -> py_int first = Raise ValueError ->
     load_walks (corpus_lines entries +:+ py_join " " (first :: walk) +:+ newline
                 +:+ rest) = Raise ValueError).
Proof.
  intros Hclean Hrun. split.
  - pose proof (load_walks_after entries all_walks "" rest Hclean eq_refl Hrun) as H.
    rewrite string_app_nil_l in H. rewrite H. done.
  - intros first walk Hfirst Hwalk Hint.
    assert (Hall : clean_walk (first :: walk)).
    { intros t [<-|Ht]; [done|by apply Hwalk]. }
    rewrite (load_walks_after entries all_walks _ rest Hclean
               (no_eol_join _ Hall) Hrun).
    unfold load_line. cbv zeta. rewrite py_split_strip.
    rewrite py_split_join; [|done|done|].
    2:{ right. eexists _, _. split; [reflexivity|done]. }
    change (py_split newline) with (@nil string). rewrite app_nil_r.
    change (py_index (first :: walk) 0) with (Ok first).
    cbn [mbind result_bind]. by rewrite Hint.
Qed.

Lemma X12_witness :
  load_walks (corpus_lines [(0, ["a"])]) = Ok [[["a"]]] /\
  load_walks (corpus_lines [(0, ["a"])] +:+ newline +:+ "0 b") = Raise IndexError /\
  load_walks (corpus_lines [(0, ["a"])] +:+ py_join " " ["x"; "b"] +:+ newline +:+ "")
  = Raise ValueError.
Proof.
  split; [reflexivity|].
  destruct (X12_malformed_line_aborts_the_load [(0, ["a"])] [[["a"]]] "0 b")
    as [Hblank _].
  { intros e [<-|[]] t [<-|[]]. split; [discriminate|reflexivity]. }
  { reflexivity. }
  split; [exact Hblank|].
  refine (proj2 (X12_malformed_line_aborts_the_load [(0, ["a"])] [[["a"]]] "" _ _)
            "x" ["b"] _ _ _).
  - intros e [<-|[]] t [<-|[]]. split; [discriminate|reflexivity].
  - reflexivity.
  - split; [discriminate|reflexivity].
  - intros t [<-|[]]. split; [discriminate|reflexivity].
  - reflexivity.
Defined.

(** ** The neighbor table, continued *)

Lemma in_raw_entries vocab g i j :
  In j (raw_entries vocab g i) <->
  exists x y, In (x, y) g /\
    ((index_of vocab x = i /\ index_of vocab y = j) \/
     (index_of vocab y = i /\ index_of vocab x = j)).
Proof.
  unfold raw_entries. rewrite in_flat_map. split.
  - intros ([x y] & Hg & Hj). exists x, y. split; [done|].
    unfold edge_entries in Hj. simpl in Hj. apply in_app_iff in Hj as [Hj|Hj].
    + destruct (decide (index_of vocab x = i)); [|done].
      destruct Hj as [<-|[]]. auto.
    + destruct (decide (index_of vocab y = i)); [|done].
      destruct Hj as [<-|[]]. auto.
  - intros (x & y & Hg & Hc). exists (x, y). split; [done|].
    unfold edge_entries. simpl. apply in_app_iff.
    destruct Hc as [[Hx <-]|[Hy <-]].
    + left. destruct (decide (index_of vocab x = i)); [|done]. simpl. auto.
    + right. destruct (decide (index_of vocab y = i)); [|done]. simpl. auto.
Qed.

Lemma reconciled_members i neighbor_samples acc final :
  reconciled i neighbor_samples acc final ->
  forall x, In x final -> (acc = [] /\ x = i) \/ In x acc.
Proof.
  intros (Hlen & Hnone & Hfew & Hsame & Hmany) x Hx.
  destruct acc as [|a acc'] eqn:Ea.
  - left. split; [done|]. rewrite Hnone in Hx by done.
    apply list_elem_of_In, elem_of_replicate in Hx. tauto.
  - right. rewrite <- Ea in *.
    assert (Hpos : 0 < length acc) by (rewrite Ea; simpl; lia).
    destruct (Nat.lt_trichotomy (length acc) neighbor_samples) as [H|[H|H]].
    + destruct Hfew as (extra & -> & _ & Hin); [lia|].
      apply in_app_iff in Hx as [Hx|Hx]; [done|by apply Hin].
    + by rewrite Hsame in Hx.
    + by apply Hmany.
Qed.

Section NeighborMore.

Context {rng : Type}.
Variable next : rng -> nat * rng.

(** X13. On an input [generate_neighbors] accepts, the table has
    [num_nodes] rows of one cell per edge type, every cell has
    [neighbor_samples] entries, and every entry is a node index below
    [num_nodes]. *)
Theorem X13_neighbor_table_shape_and_range network_data vocab num_nodes edge_types
    neighbor_samples (st : rng) :
  neighbors_input network_data vocab num_nodes edge_types ->
  exists table st',
    generate_neighbors rng next network_data vocab num_nodes edge_types
      neighbor_samples st = Ok (table, st') /\
    length table = num_nodes /\
    (forall i row, table !! i = Some row -> length row = length edge_types) /\
    (forall i row r final, table !! i = Some row -> row !! r = Some final ->
       length final = neighbor_samples /\ forall j, In j final -> j < num_nodes).
Proof.
  intros Hinput.
  destruct (generate_neighbors_spec next network_data vocab num_nodes edge_types
              neighbor_samples st Hinput) as (table & st' & Hrun & [Hn Hc] & Hrec).
  exists table, st'. split; [done|]. split; [done|]. split; [done|].
  intros i row r final Hrow Hfinal.
  assert (Hi : i < num_nodes) by (rewrite <- Hn; by eapply lookup_lt_Some).
  assert (Hr : r < length edge_types).
  { rewrite <- (Hc i row Hrow). by eapply lookup_lt_Some. }
  destruct (lookup_lt_is_Some_2 edge_types r Hr) as [et Het].
  destruct (Hinput r et Het) as (g & Hg & Hedges).
  destruct (Hrec r i et g Hi Het Hg) as (final' & Hcell & Hreconciled).
  unfold cell in Hcell. rewrite Hrow in Hcell. simpl in Hcell.
  rewrite Hfinal in Hcell. injection Hcell as <-.
  split; [by destruct Hreconciled|].
  intros j Hj.
  destruct (reconciled_members _ _ _ _ Hreconciled j Hj) as [[_ ->]|Hin]; [done|].
  apply in_raw_entries in Hin as (x & y & Hxy & Hc').
  destruct (Hedges x y Hxy) as [(vx & Hvx & Hlx) (vy & Hvy & Hly)].
  unfold index_of in Hc'. rewrite Hvx, Hvy in Hc'.
  destruct Hc' as [[_ <-]|[_ <-]]; done.
Qed.

(** X14. Every entry of the final list of node [i] for an edge type is
    the index of a node adjacent to a node of index [i] in the adjacency
    structure [get_G_from_edges] builds from the edges of that type; the
    only other entries are copies of [i] itself, for a node no edge of that
    type touches. *)
Theorem X14_sampled_entries_are_neighbors network_data vocab num_nodes edge_types
    neighbor_samples (st : rng) :
  neighbors_input network_data vocab num_nodes edge_types ->
  exists table st',
    generate_neighbors rng next network_data vocab num_nodes edge_types
      neighbor_samples st = Ok (table, st') /\
    forall r i edge_type g final j,
      i < num_nodes ->
      edge_types !! r = Some edge_type -> network_data !! edge_type = Some g ->
      cell table i r = Some final -> In j final ->
      (j = i /\ raw_entries vocab g i = []) \/
      (exists x y, y ∈ adjacency (get_G_from_edges g) x /\
                   index_of vocab x = i /\ index_of vocab y = j).
Proof.
  intros Hinput.
  destruct (generate_neighbors_spec next network_data vocab num_nodes edge_types
              neighbor_samples st Hinput) as (table & st' & Hrun & _ & Hrec).
  exists table, st'. split; [done|].
  intros r i et g final j Hi Het Hg Hcell Hj.
  destruct (Hrec r i et g Hi Het Hg) as (final' & Hcell' & Hreconciled).
  rewrite Hcell in Hcell'. injection Hcell' as <-.
  destruct (reconciled_members _ _ _ _ Hreconciled j Hj) as [[Hnil ->]|Hin]; [by left|].
  right. apply in_raw_entries in Hin as (x & y & Hxy & [[Hx Hy]|[Hy Hx]]).
  - exists x, y. split; [|done]. apply adjacency_spec. auto.
  - exists y, x. split; [|done]. apply adjacency_spec. auto.
Qed.

End NeighborMore.

Lemma X13_witness :
  neighbors_input sample_network sample_vocab 3 ["t"] /\
  exists table st',
    generate_neighbors nat sample_next sample_network sample_vocab 3 ["t"] 3 0
    = Ok (table, st') /\ length table = 3.
Proof.
  split; [exact sample_neighbors_input|].
  destruct (X13_neighbor_table_shape_and_range sample_next sample_network
              sample_vocab 3 ["t"] 3 0 sample_neighbors_input)
    as (table & st' & Hrun & Hlen & _).
  exists table, st'. split; [exact Hrun|exact Hlen].
Defined.

Lemma X14_witness :
  neighbors_input sample_network sample_vocab 3 ["t"] /\
  exists table st',
    generate_neighbors nat sample_next sample_network sample_vocab 3 ["t"] 3 0
    = Ok (table, st') /\
    forall final j, cell table 0 0 = Some final -> In j final ->
      (j = 0 /\ raw_entries sample_vocab [("a", "b"); ("c", "c")] 0 = []) \/
      (exists x y, y ∈ adjacency (get_G_from_edges [("a", "b"); ("c", "c")]) x /\
                   index_of sample_vocab x = 0 /\ index_of sample_vocab y = j).
Proof.
  split; [exact sample_neighbors_input|].
  destruct (X14_sampled_entries_are_neighbors sample_next sample_network
              sample_vocab 3 ["t"] 3 0 sample_neighbors_input)
    as (table & st' & Hrun & Hnb).
  exists table, st'. split; [exact Hrun|].
  intros final j. apply (Hnb 0 0 "t"); [lia|reflexivity|reflexivity].
Defined.

Lemma append_at_inv (nb nb' : list (list (list nat))) i r v :
  append_at nb i r v = Ok nb' -> i < length nb /\ length nb' = length nb.
Proof.
  unfold append_at, list_get. intros H.
  destruct (nb !! i) as [row|] eqn:Erow; [|done]. cbn [mbind result_bind] in H.
  destruct (row !! r) as [l|]; [|done]. cbn [mbind result_bind] in H.
  injection H as <-. split; [by eapply lookup_lt_Some|by rewrite length_insert].
Qed.

Lemma add_raw_edge_inv n c vocab r edge (nb nb' : list (list (list nat))) :
  shaped n c nb -> add_raw_edge vocab r edge nb = Ok nb' ->
  indexed_below vocab n (fst edge) /\ indexed_below vocab n (snd edge).
Proof.
  intros [Hn _] H. unfold add_raw_edge, vocab_index, dict_get in H.
  destruct (vocab !! fst edge) as [vx|] eqn:Ex; [|done].
  cbn [mbind result_bind] in H.
  destruct (vocab !! snd edge) as [vy|] eqn:Ey; [|done].
  cbn [mbind result_bind] in H.
  destruct (append_at nb (index vx) r (index vy)) as [nb1|e] eqn:E1; [|done].
  change (append_at nb1 (index vy) r (index vx) = Ok nb') in H.
  destruct (append_at_inv _ _ _ _ _ E1) as [Hx Hlen].
  destruct (append_at_inv _ _ _ _ _ H) as [Hy _].
  split; eexists; (split; [done|lia]).
Qed.

Lemma accumulate_inv n c vocab r g : forall nb nb' : list (list (list nat)),
  shaped n c nb -> r < c ->
  for_each g (add_raw_edge vocab r) nb = Ok nb' ->
  forall x y, In (x, y) g -> indexed_below vocab n x /\ indexed_below vocab n y.
Proof.
  induction g as [|e g IH]; intros nb nb' Hs Hr Hrun x y Hin; [done|].
  rewrite for_each_cons in Hrun.
  destruct (add_raw_edge vocab r e nb) as [nb1|err] eqn:E1; [|done].
  cbn [mbind result_bind] in Hrun.
  destruct (add_raw_edge_inv n c vocab r e nb nb1 Hs E1) as [Hx Hy].
  destruct Hin as [->|Hin]; [done|].
  destruct (add_raw_edge_spec n c vocab r e nb Hs Hr Hx Hy) as (nb1' & E1' & Hs1 & _).
  rewrite E1 in E1'. injection E1' as <-.
  by apply (IH nb1 nb' Hs1 Hr Hrun).
Qed.

Section NeighborInputs.

Context {rng : Type}.
Variable next : rng -> nat * rng.

Lemma types_loop_inv network_data vocab n edge_types neighbor_samples :
  forall (types : list nat) (nb : list (list (list nat))) (st : rng) out,
  shaped n (length edge_types) nb ->
  (forall r, In r types -> r < length edge_types) ->
  for_each types
    (neighbors_of_type rng next network_data vocab n edge_types neighbor_samples)
    (nb, st) = Ok out ->
  forall r edge_type, In r types -> edge_types !! r = Some edge_type ->
    exists g, network_data !! edge_type = Some g /\
      forall x y, In (x, y) g ->
        indexed_below vocab n x /\ indexed_below vocab n y.
Proof.
  induction types as [|r0 types IH]; intros nb st out Hs Hlt Hrun r et Hr Het; [done|].
  rewrite for_each_cons in Hrun.
  destruct (neighbors_of_type rng next network_data vocab n edge_types
              neighbor_samples r0 (nb, st)) as [[nb2 st2]|e] eqn:Estep; [|done].
  cbn [mbind result_bind] in Hrun.
  unfold neighbors_of_type, list_get, dict_get in Estep.
  destruct (edge_types !! r0) as [et0|] eqn:Et0; [|done].
  cbn [mbind result_bind] in Estep.
  destruct (network_data !! et0) as [g0|] eqn:Eg0; [|done].
  cbn [mbind result_bind] in Estep.
  destruct (for_each g0 (add_raw_edge vocab r0) nb) as [nb1|e] eqn:Eacc; [|done].
  cbn [mbind result_bind] in Estep.
  assert (Hr0 : r0 < length edge_types) by (apply Hlt; simpl; auto).
  pose proof (accumulate_inv _ _ _ _ _ _ _ Hs Hr0 Eacc) as Hedges.
  destruct Hr as [<-|Hr].
  - rewrite Et0 in Het. injection Het as <-. exists g0. done.
  - destruct (accumulate_spec n (length edge_types) vocab r0 g0 nb Hs Hr0 Hedges)
      as (nb1' & Eacc' & Hs1 & _).
    rewrite Eacc in Eacc'. injection Eacc' as <-.
    destruct (reconcile_all_spec next n (length edge_types) r0 neighbor_samples
                (seq 0 n) nb1 st Hs1 Hr0) as (nb2' & st2' & Erec & Hs2 & _).
    { apply NoDup_ListNoDup, NoDup_seq. }
    { intros i Hi. apply in_seq in Hi. lia. }
    rewrite Estep in Erec. injection Erec as <- <-.
    refine (IH nb2 st2 out Hs2 _ Hrun r et Hr Het).
    intros r' Hr'. apply Hlt. simpl. auto.
Qed.

(** X15. [generate_neighbors] returns a table exactly on the inputs whose
    edge types are all keys of the network data and whose edges have both
    end points in the vocabulary with an index below [num_nodes]; on every
    other input it raises. *)
Theorem X15_generate_neighbors_returns_iff_input_is_indexed network_data vocab
    num_nodes edge_types neighbor_samples (st : rng) :
  (exists table st',
     generate_neighbors rng next network_data vocab num_nodes edge_types
       neighbor_samples st = Ok (table, st')) <->
  neighbors_input network_data vocab num_nodes edge_types.
Proof.
  split.
  - intros (table & st' & Hrun) r et Het.
    unfold generate_neighbors in Hrun.
    destruct (fresh_table num_nodes (length edge_types)) as [Hs _].
    apply (types_loop_inv _ _ _ _ _ _ _ _ _ Hs) with (r := r) (edge_type := et)
      in Hrun; [done| | |done].
    + intros r' Hr'. apply in_seq in Hr'. lia.
    + apply in_seq. apply lookup_lt_Some in Het. lia.
  - intros Hinput.
    destruct (generate_neighbors_spec next network_data vocab num_nodes edge_types
                neighbor_samples st Hinput) as (table & st' & Hrun & _).
    by exists table, st'.
Qed.

End NeighborInputs.

(** ** The edge files *)

Lemma py_drop_last_newline s : py_drop_last (s +:+ newline) = s.
Proof.
  induction s as [|c s IH]; [done|].
  rewrite string_app_cons. cbn [py_drop_last]. rewrite IH.
  by destruct s.
Qed.

Lemma py_drop_last_snoc s c : py_drop_last (s +:+ String c "") = s.
Proof.
  induction s as [|c' s IH]; [done|].
  rewrite string_app_cons. cbn [py_drop_last]. rewrite IH.
  by destruct s.
Qed.

Lemma py_split_on_field t :
  no_sep t = true -> py_split_on " " t = [t].
Proof.
  induction t as [|c t IH]; [done|]. simpl. intros H.
  apply andb_true_iff in H as [H Ht]. apply andb_true_iff in H as [H _].
  apply andb_true_iff in H as [H _]. apply negb_true_iff in H.
  rewrite H, IH by done. done.
Qed.

Lemma py_split_on_cons t rest :
  no_sep t = true ->
  py_split_on " " (t +:+ " " +:+ rest) = t :: py_split_on " " rest.
Proof.
  induction t as [|c t IH]; intros H.
  - done.
  - simpl in H. apply andb_true_iff in H as [H Ht].
    apply andb_true_iff in H as [H _]. apply andb_true_iff in H as [H _].
    apply negb_true_iff in H.
    rewrite string_app_cons. cbn [py_split_on]. rewrite H, IH by done. done.
Qed.

Lemma no_sep_no_eol t : no_sep t = true -> no_eol t = true.
Proof.
  induction t as [|c t IH]; [done|]. simpl. intros H.
  apply andb_true_iff in H as [H Ht]. apply andb_true_iff in H as [H H3].
  apply andb_true_iff in H as [_ H2]. by rewrite H2, H3, IH.
Qed.

Lemma training_row_no_eol row : clean_row row -> no_eol (training_row_line row) = true.
Proof.
  intros (H1 & H2 & H3). unfold training_row_line.
  rewrite !no_eol_app.
  by rewrite (no_sep_no_eol _ H1), (no_sep_no_eol _ H2), (no_sep_no_eol _ H3).
Qed.

Lemma training_row_words row :
  clean_row row ->
  py_split_on " " (training_row_line row) = [fst (fst row); snd (fst row); snd row].
Proof.
  intros (H1 & H2 & H3). unfold training_row_line.
  rewrite py_split_on_cons by done. rewrite py_split_on_cons by done.
  by rewrite py_split_on_field.
Qed.

Lemma odict_mem_get {V : Type} (d : list (string * V)) k :
  odict_mem k d = true -> exists v, odict_get d k = Ok v.
Proof.
  induction d as [|[k' v] d IH]; simpl; [done|].
  destruct (decide (k' = k)); [by eexists|done].
Qed.

Lemma odict_get_set {V : Type} (d : list (string * V)) k v :
  odict_get (odict_set k v d) k = Ok v.
Proof.
  induction d as [|[k' v'] d IH]; simpl.
  - by destruct (decide (k = k)).
  - destruct (decide (k' = k)) as [->|Hne]; simpl.
    + by destruct (decide (k = k)).
    + by destruct (decide (k' = k)).
Qed.

Lemma odict_get_absent {V : Type} (d : list (string * V)) k :
  odict_mem k d = false -> odict_get d k = Raise KeyError.
Proof.
  induction d as [|[k' v'] d IH]; simpl; [done|].
  by destruct (decide (k' = k)).
Qed.

Lemma odict_set_set {V : Type} (d : list (string * V)) k v v' :
  odict_set k v' (odict_set k v d) = odict_set k v' d.
Proof.
  induction d as [|[k0 v0] d IH]; simpl.
  - by destruct (decide (k = k)).
  - destruct (decide (k0 = k)) as [->|Hne]; simpl.
    + by destruct (decide (k = k)).
    + destruct (decide (k0 = k)); [done|]. by rewrite IH.
Qed.

Lemma odict_set_push {V : Type} (d : list (string * list V)) k v :
  odict_set k (odict_list d k ++ [v]) d = odict_push k v d.
Proof.
  induction d as [|[k' l] d IH]; simpl; [done|].
  unfold odict_list. simpl.
  destruct (decide (k' = k)) as [->|Hne]; [done|].
  f_equal. apply IH.
Qed.

Lemma odict_push_spec {V : Type} (k : string) (v : V) (d : list (string * list V)) :
  odict_append k v (odict_ensure k d) = Ok (odict_push k v d).
Proof.
  unfold odict_append, odict_ensure.
  destruct (odict_mem k d) eqn:Em.
  - destruct (odict_mem_get d k Em) as [l Hl]. rewrite Hl. cbn [mbind result_bind].
    rewrite <- odict_set_push. unfold odict_list. by rewrite Hl.
  - rewrite odict_get_set. cbn [mbind result_bind].
    rewrite odict_set_set, <- odict_set_push. unfold odict_list.
    by rewrite odict_get_absent.
Qed.

Lemma training_line_row row (d : list (string * list (string * string))) :
  clean_row row ->
  training_line (training_row_line row +:+ newline) d = Ok (push_row d row).
Proof.
  intros Hrow. unfold training_line. cbv zeta.
  rewrite py_drop_last_newline, training_row_words by done.
  change (py_index [fst (fst row); snd (fst row); snd row] 0) with (Ok (fst (fst row))).
  cbn [mbind result_bind].
  change (py_index [fst (fst row); snd (fst row); snd row] 1) with (Ok (snd (fst row))).
  cbn [mbind result_bind].
  change (py_index [fst (fst row); snd (fst row); snd row] 2) with (Ok (snd row)).
  cbn [mbind result_bind]. apply odict_push_spec.
Qed.

Lemma py_lines_training rows tail :
  (forall row, In row rows -> clean_row row) ->
  py_lines (training_file rows +:+ tail)
  = map (fun row => training_row_line row +:+ newline) rows ++ py_lines tail.
Proof.
  induction rows as [|row rows IH]; intros Hclean; [done|].
  cbn [training_file map]. rewrite !string_app_assoc.
  rewrite py_lines_line by (apply training_row_no_eol, Hclean; simpl; auto).
  rewrite IH by (intros; apply Hclean; simpl; auto). done.
Qed.

Lemma for_each_training rows : forall d,
  (forall row, In row rows -> clean_row row) ->
  for_each (map (fun row => training_row_line row +:+ newline) rows) training_line d
  = Ok (fold_left push_row rows d).
Proof.
  induction rows as [|row rows IH]; intros d Hclean; [done|].
  cbn [map fold_left]. rewrite for_each_cons.
  rewrite training_line_row by (apply Hclean; simpl; auto).
  cbn [mbind result_bind]. apply IH. intros. apply Hclean. simpl. auto.
Qed.

Lemma load_training_file rows :
  (forall row, In row rows -> clean_row row) ->
  load_training_data (training_file rows) = Ok (rows_dict rows).
Proof.
  intros Hclean. unfold load_training_data.
  rewrite <- (string_app_nil_r (training_file rows)).
  rewrite py_lines_training by done. cbn [py_lines]. rewrite app_nil_r.
  by apply for_each_training.
Qed.

Lemma odict_push_keys {V : Type} (k : string) (v : V) (d : list (string * list V)) :
  map fst (odict_push k v d)
  = if decide (k ∈ map fst d) then map fst d else map fst d ++ [k].
Proof.
  induction d as [|[k' l] d IH]; simpl.
  - destruct (decide (k ∈ [])) as [H|_]; [by apply elem_of_nil in H|done].
  - destruct (decide (k' = k)) as [->|Hne]; simpl.
    + destruct (decide (k ∈ k :: map fst d)) as [_|H]; [done|].
      exfalso. apply H. by left.
    + rewrite IH.
      destruct (decide (k ∈ map fst d)) as [Hin|Hnin],
               (decide (k ∈ k' :: map fst d)) as [Hin'|Hnin']; try done.
      * exfalso. apply Hnin'. by right.
      * apply elem_of_cons in Hin' as [->|H]; done.
Qed.

Lemma odict_push_list {V : Type} (k : string) (v : V) (d : list (string * list V)) t :
  odict_list (odict_push k v d) t
  = odict_list d t ++ (if decide (k = t) then [v] else []).
Proof.
  unfold odict_list. induction d as [|[k' l] d IH]; simpl.
  - by destruct (decide (k = t)).
  - destruct (decide (k' = k)) as [->|Hne]; simpl.
    + destruct (decide (k = t)); [done|]. by rewrite app_nil_r.
    + destruct (decide (k' = t)) as [->|Hne'].
      * destruct (decide (k = t)); [congruence|]. by rewrite app_nil_r.
      * apply IH.
Qed.

Lemma rows_dict_keys rows : forall d,
  map fst (fold_left push_row rows d)
  = fold_left (fun acc t => if decide (t ∈ acc) then acc else acc ++ [t])
      (map (fun row => fst (fst row)) rows) (map fst d).
Proof.
  induction rows as [|row rows IH]; intros d; [done|].
  cbn [fold_left map]. rewrite IH. unfold push_row.
  by rewrite odict_push_keys.
Qed.

Lemma rows_dict_list rows t : forall d,
  odict_list (fold_left push_row rows d) t = odict_list d t ++ edges_of_type t rows.
Proof.
  unfold edges_of_type.
  induction rows as [|row rows IH]; intros d.
  - by rewrite app_nil_r.
  - cbn [fold_left List.filter]. rewrite IH. unfold push_row.
    rewrite odict_push_list, <- app_assoc. f_equal.
    destruct (decide (fst (fst row) = t)) as [Ht|Ht].
    + by rewrite bool_decide_eq_true_2.
    + by rewrite bool_decide_eq_false_2.
Qed.

Lemma first_seen_step_NoDup (l acc : list string) :
  NoDup acc ->
  NoDup (fold_left (fun acc t => if decide (t ∈ acc) then acc else acc ++ [t]) l acc).
Proof.
  revert acc. induction l as [|t l IH]; intros acc Hacc; [done|].
  cbn [fold_left]. apply IH. destruct (decide (t ∈ acc)); [done|].
  apply NoDup_app. split; [done|]. split; [|apply NoDup_singleton].
  intros x Hx Hx'. apply list_elem_of_singleton in Hx'. by subst.
Qed.

Lemma odict_get_key {V : Type} (d : list (string * list V)) t :
  In t (map fst d) -> odict_get d t = Ok (odict_list d t).
Proof.
  unfold odict_list. induction d as [|[k l] d IH]; simpl; [done|].
  intros [->|H].
  - by destruct (decide (t = t)).
  - destruct (decide (k = t)); [done|]. by apply IH.
Qed.

Lemma rows_dict_has_key rows row : forall d,
  In row rows -> In (fst (fst row)) (map fst (fold_left push_row rows d)).
Proof.
  induction rows as [|r rows IH]; intros d; [done|].
  intros [->|H]; [|by apply IH]. cbn [fold_left].
  assert (G : forall rs d', In (fst (fst row)) (map fst d') ->
                In (fst (fst row)) (map fst (fold_left push_row rs d'))).
  { clear. induction rs as [|r rs IH]; intros d' H; [done|].
    cbn [fold_left]. apply IH. unfold push_row. rewrite odict_push_keys.
    destruct (decide (_ ∈ _)); [done|]. apply in_app_iff. auto. }
  apply G. unfold push_row. rewrite odict_push_keys.
  destruct (decide (fst (fst row) ∈ map fst d)) as [Hin|_].
  - by apply list_elem_of_In.
  - apply in_app_iff. simpl. auto.
Qed.

(** X16. On a file of lines [edge_type x y], [load_training_data] returns
    a dict whose keys are the edge types in the order of their first line,
    each bound to the pairs (x, y) of the lines of that type in the order of
    the file: no line is dropped and no pair is deduplicated. *)
Theorem X16_load_training_data_groups_by_edge_type
    (rows : list (string * string * string)) :
  (forall row, In row rows -> clean_row row) ->
  exists d,
    load_training_data (training_file rows) = Ok d /\
    map fst d = first_seen (map (fun row => fst (fst row)) rows) /\
    List.NoDup (map fst d) /\
    (forall t, odict_list d t = edges_of_type t rows) /\
    (forall row, In row rows ->
       odict_get d (fst (fst row)) = Ok (edges_of_type (fst (fst row)) rows)).
Proof.
  intros Hclean. exists (rows_dict rows).
  split; [by apply load_training_file|].
  assert (Hkeys : map fst (rows_dict rows)
                  = first_seen (map (fun row => fst (fst row)) rows)).
  { unfold rows_dict. by rewrite rows_dict_keys. }
  assert (Hlist : forall t, odict_list (rows_dict rows) t = edges_of_type t rows).
  { intros t. unfold rows_dict. by rewrite rows_dict_list. }
  split; [done|]. split; [|split; [done|]].
  - rewrite Hkeys. apply NoDup_ListNoDup. apply first_seen_step_NoDup. constructor.
  - intros row Hrow. rewrite odict_get_key; [by rewrite Hlist|].
    by apply rows_dict_has_key.
Qed.

Lemma X16_witness :
  exists d,
    load_training_data
      (training_file [("t", "a", "b"); ("u", "c", "d"); ("t", "a", "b")]) = Ok d /\
    odict_list d "t"
    = edges_of_type "t" [("t", "a", "b"); ("u", "c", "d"); ("t", "a", "b")].
Proof.
  destruct (X16_load_training_data_groups_by_edge_type
              [("t", "a", "b"); ("u", "c", "d"); ("t", "a", "b")])
    as (d & Hrun & _ & _ & Hlist & _).
  - intros row [<-|[<-|[<-|[]]]]; repeat split; reflexivity.
  - exists d. split; [exact Hrun|apply Hlist].
Defined.

Lemma py_split_on_nonempty sep s : py_split_on sep s <> [].
Proof.
  destruct s as [|c s]; [done|]. simpl.
  destruct (Ascii.eqb c sep); [done|]. by destruct (py_split_on sep s).
Qed.

Lemma load_training_after rows line rest :
  (forall row, In row rows -> clean_row row) ->
  no_eol line = true ->
  load_training_data (training_file rows +:+ line +:+ newline +:+ rest)
  = training_line (line +:+ newline) (rows_dict rows)
    ≫= for_each (py_lines rest) training_line.
Proof.
  intros Hclean Hline. unfold load_training_data.
  rewrite py_lines_training by done.
  rewrite py_lines_line by done.
  rewrite for_each_app, for_each_training by done.
  cbn [mbind result_bind]. by rewrite for_each_cons.
Qed.

(** X17. A line with fewer than three fields separated by single spaces,
    an empty line in particular, ends [load_training_data] with
    [IndexError], whatever follows it. *)
Theorem X17_short_training_line_raises
    (rows : list (string * string * string)) (line rest : string) :
  (forall row, In row rows -> clean_row row) ->
  no_eol line = true ->
  length (py_split_on " " line) < 3 ->
  load_training_data (training_file rows +:+ line +:+ newline +:+ rest)
  = Raise IndexError.
Proof.
  intros Hclean Hline Hshort.
  rewrite load_training_after by done.
  unfold training_line. cbv zeta. rewrite py_drop_last_newline.
  pose proof (py_split_on_nonempty " " line) as Hne.
  destruct (py_split_on " " line) as [|w0 [|w1 [|w2 ws]]]; [done|done|done|].
  simpl in Hshort. lia.
Qed.

Lemma X17_witness :
  load_training_data (training_file [("t", "a", "b")] +:+ "t a" +:+ newline +:+ "t c d")
  = Raise IndexError.
Proof.
  apply X17_short_training_line_raises.
  - intros row [<-|[]]. repeat split; reflexivity.
  - reflexivity.
  - simpl. lia.
Defined.

Lemma py_lines_unterminated s :
  no_eol s = true -> s <> "" -> py_lines s = [s].
Proof.
  induction s as [|c s IH]; [done|]. intros H _. simpl in H.
  apply andb_true_iff in H as [Hc Hs]. apply andb_true_iff in Hc as [Hn Hr].
  apply negb_true_iff in Hn, Hr. cbn [py_lines]. rewrite Hn, Hr.
  destruct s as [|c' s']; [done|]. by rewrite IH.
Qed.

(** X18. [load_training_data] cuts the last character of every line
    unseen: when the last line of the file has no line end, its last
    character is lost, and the file loads as the file in which that
    character is replaced by a line feed. *)
Theorem X18_unterminated_last_line_loses_a_character
    (rows : list (string * string * string)) (line : string) (c : ascii) :
  (forall row, In row rows -> clean_row row) ->
  no_eol (line +:+ String c "") = true ->
  load_training_data (training_file rows +:+ line +:+ String c "")
  = load_training_data (training_file rows +:+ line +:+ newline).
Proof.
  intros Hclean Hline.
  assert (Hl : no_eol line = true).
  { rewrite no_eol_app in Hline. by apply andb_true_iff in Hline as [? _]. }
  rewrite <- (string_app_nil_r (training_file rows +:+ line +:+ newline)).
  rewrite !string_app_assoc. rewrite load_training_after by done.
  cbn [py_lines for_each].
  unfold load_training_data. rewrite py_lines_training by done.
  rewrite py_lines_unterminated by (done || by destruct line).
  rewrite for_each_app, for_each_training by done.
  cbn [mbind result_bind]. rewrite for_each_cons.
  unfold training_line. cbv zeta.
  by rewrite py_drop_last_snoc, py_drop_last_newline.
Qed.

Lemma X18_witness :
  no_eol ("t a b" +:+ String "c" "") = true /\
  load_training_data (training_file [("u", "x", "y")] +:+ "t a b" +:+ String "c" "")
  = Ok [("u", [("x", "y")]); ("t", [("a", "b")])].
Proof.
  split; [reflexivity|].
  rewrite (X18_unterminated_last_line_loses_a_character [("u", "x", "y")] "t a b" "c").
  - reflexivity.
  - intros row [<-|[]]. repeat split; reflexivity.
  - reflexivity.
Defined.

Lemma testing_row_words row :
  clean_row (fst row) -> no_sep (snd row) = true ->
  py_split_on " " (testing_row_line row)
  = [fst (fst (fst row)); snd (fst (fst row)); snd (fst row); snd row].
Proof.
  intros (H1 & H2 & H3) H4. unfold testing_row_line, training_row_line.
  rewrite !string_app_assoc.
  rewrite py_split_on_cons by done. rewrite py_split_on_cons by done.
  rewrite py_split_on_cons by done. by rewrite py_split_on_field.
Qed.

Lemma testing_row_no_eol row :
  clean_row (fst row) -> no_sep (snd row) = true ->
  no_eol (testing_row_line row) = true.
Proof.
  intros Hrow Hl. unfold testing_row_line.
  rewrite !no_eol_app, training_row_no_eol by done.
  by rewrite (no_sep_no_eol _ Hl).
Qed.

Lemma testing_line_row row dt df :
  labelled_row row ->
  testing_line (testing_row_line row +:+ newline) (dt, df)
  = Ok (if is_true_label (snd row) then (push_row dt (fst row), df)
        else (dt, push_row df (fst row))).
Proof.
  intros (Hrow & Hl & _ & n & Hn). unfold testing_line. cbv zeta.
  rewrite py_drop_last_newline, testing_row_words by done.
  set (t := fst (fst (fst row))). set (x := snd (fst (fst row))).
  set (y := snd (fst row)). set (lab := snd row) in *.
  change (py_index [t; x; y; lab] 1) with (Ok x). cbn [mbind result_bind].
  change (py_index [t; x; y; lab] 2) with (Ok y). cbn [mbind result_bind].
  change (py_index [t; x; y; lab] 3) with (Ok lab). cbn [mbind result_bind].
  unfold is_true_label. rewrite Hn. cbn [mbind result_bind].
  change (py_index [t; x; y; lab] 0) with (Ok t). cbn [mbind result_bind].
  destruct (n =? 1)%Z; rewrite odict_push_spec; done.
Qed.

Lemma py_lines_testing rows tail :
  (forall row, In row rows -> labelled_row row) ->
  py_lines (testing_file rows +:+ tail)
  = map (fun row => testing_row_line row +:+ newline) rows ++ py_lines tail.
Proof.
  induction rows as [|row rows IH]; intros Hclean; [done|].
  cbn [testing_file map]. rewrite !string_app_assoc.
  destruct (Hclean row) as (Hrow & Hl & _); [simpl; auto|].
  rewrite py_lines_line by (by apply testing_row_no_eol).
  rewrite IH by (intros; apply Hclean; simpl; auto). done.
Qed.

Lemma for_each_testing rows : forall dt df,
  (forall row, In row rows -> labelled_row row) ->
  for_each (map (fun row => testing_row_line row +:+ newline) rows) testing_line
    (dt, df)
  = Ok (fold_left push_row (true_rows rows) dt,
        fold_left push_row (false_rows rows) df).
Proof.
  unfold true_rows, false_rows.
  induction rows as [|row rows IH]; intros dt df Hclean; [done|].
  cbn [map List.filter]. rewrite for_each_cons.
  rewrite testing_line_row by (apply Hclean; simpl; auto).
  cbn [mbind result_bind].
  destruct (is_true_label (snd row)); cbn [negb map fold_left];
    apply IH; intros; apply Hclean; simpl; auto.
Qed.

Lemma true_rows_clean rows :
  (forall row, In row rows -> labelled_row row) ->
  (forall row, In row (true_rows rows) -> clean_row row) /\
  (forall row, In row (false_rows rows) -> clean_row row).
Proof.
  intros Hclean. unfold true_rows, false_rows.
  split; intros row Hrow; apply in_map_iff in Hrow as (r & <- & Hr);
    apply List.filter_In in Hr as [Hr _]; by destruct (Hclean r Hr).
Qed.

(** X19. [load_testing_data] splits the lines [edge_type x y label],
    whose label is an integer as [int()] reads it, by their label: the
    lines of label 1 make the first dict and all other lines, whatever
    integer their label is, make the second; each dict is what
    [load_training_data] returns on the lines of its part, and every line
    lands in exactly one of them. *)
Theorem X19_load_testing_data_splits_by_label
    (rows : list (string * string * string * string)) :
  (forall row, In row rows -> labelled_row row) ->
  exists dt df,
    load_testing_data (testing_file rows) = Ok (dt, df) /\
    load_training_data (training_file (true_rows rows)) = Ok dt /\
    load_training_data (training_file (false_rows rows)) = Ok df /\
    length (true_rows rows) + length (false_rows rows) = length rows.
Proof.
  intros Hclean. destruct (true_rows_clean rows Hclean) as [Ht Hf].
  exists (rows_dict (true_rows rows)), (rows_dict (false_rows rows)).
  split; [|split; [by apply load_training_file|split; [by apply load_training_file|]]].
  - unfold load_testing_data.
    rewrite <- (string_app_nil_r (testing_file rows)).
    rewrite py_lines_testing by done. cbn [py_lines]. rewrite app_nil_r.
    by apply for_each_testing.
  - unfold true_rows, false_rows. rewrite !length_map. clear.
    induction rows as [|row rows IH]; [done|]. cbn [List.filter].
    destruct (is_true_label (snd row)); simpl; lia.
Qed.

Lemma X19_witness :
  exists dt df,
    load_testing_data
      (testing_file [("t", "a", "b", "1"); ("t", "c", "d", "0"); ("u", "e", "f", "2")])
    = Ok (dt, df) /\
    load_training_data (training_file [("t", "a", "b")]) = Ok dt /\
    load_training_data (training_file [("t", "c", "d"); ("u", "e", "f")]) = Ok df.
Proof.
  destruct (X19_load_testing_data_splits_by_label
              [("t", "a", "b", "1"); ("t", "c", "d", "0"); ("u", "e", "f", "2")])
    as (dt & df & Hrun & Ht & Hf & _).
  - intros row [<-|[<-|[<-|[]]]];
      (split; [repeat split; reflexivity|
               split; [reflexivity|split; [simpl; lia|by eexists]]]).
  - exists dt, df. split; [exact Hrun|]. split; [exact Ht|exact Hf].
Defined.

Lemma load_testing_after rows line rest :
  (forall row, In row rows -> labelled_row row) ->
  no_eol line = true ->
  load_testing_data (testing_file rows +:+ line +:+ newline +:+ rest)
  = testing_line (line +:+ newline)
      (rows_dict (true_rows rows), rows_dict (false_rows rows))
    ≫= for_each (py_lines rest) testing_line.
Proof.
  intros Hclean Hline. unfold load_testing_data.
  rewrite py_lines_testing by done.
  rewrite py_lines_line by done.
  rewrite for_each_app, for_each_testing by done.
  cbn [mbind result_bind]. by rewrite for_each_cons.
Qed.

(** X20. After lines that load, a malformed line ends
    [load_testing_data], whatever follows it: with [IndexError] when the
    line has fewer than four fields separated by single spaces, and with
    [ValueError] when its fourth field is not an integer for [int()]. *)
Theorem X20_malformed_testing_line_raises
    (rows : list (string * string * string * string)) (rest : string) :
  (forall row, In row rows -> labelled_row row) ->
  (forall line, no_eol line = true -> length (py_split_on " " line) < 4 ->
     load_testing_data (testing_file rows +:+ line +:+ newline +:+ rest)
     = Raise IndexError) /\
  (forall row, clean_row (fst row) -> no_sep (snd row) = true ->
     py_int (snd row) = Raise ValueError ->
     load_testing_data (testing_file rows +:+ testing_row_line row +:+ newline +:+ rest)
     = Raise ValueError).
Proof.
  intros Hclean. split.
  - intros line Hline Hshort. rewrite load_testing_after by done.
    unfold testing_line. cbv zeta. rewrite py_drop_last_newline.
    pose proof (py_split_on_nonempty " " line) as Hne.
    destruct (py_split_on " " line) as [|w0 [|w1 [|w2 [|w3 ws]]]];
      [done|done|done|done|].
    simpl in Hshort. lia.
  - intros row Hrow Hl Hint.
    rewrite load_testing_after by (done || by apply testing_row_no_eol).
    unfold testing_line. cbv zeta.
    rewrite py_drop_last_newline, testing_row_words by done.
    set (t := fst (fst (fst row))). set (x := snd (fst (fst row))).
    set (y := snd (fst row)). set (lab := snd row) in *.
    change (py_index [t; x; y; lab] 1) with (Ok x). cbn [mbind result_bind].
    change (py_index [t; x; y; lab] 2) with (Ok y). cbn [mbind result_bind].
    change (py_index [t; x; y; lab] 3) with (Ok lab). cbn [mbind result_bind].
    by rewrite Hint.
Qed.

Lemma X20_witness :
  load_testing_data (testing_file [("t", "a", "b", "1")] +:+ "t a b" +:+ newline +:+ "")
  = Raise IndexError /\
  load_testing_data
    (testing_file [("t", "a", "b", "1")]
     +:+ testing_row_line ("t", "a", "b", String "1" (String "028" ""))
     +:+ newline +:+ "")
  = Raise ValueError.
Proof.
  destruct (X20_malformed_testing_line_raises [("t", "a", "b", "1")] "") as [H1 H2].
  { intros row [<-|[]].
    split; [repeat split; reflexivity|
            split; [reflexivity|split; [simpl; lia|by eexists]]]. }
  split.
  - apply H1; [reflexivity|simpl; lia].
  - apply (H2 ("t", "a", "b", String "1" (String "028" "")));
      [repeat split; reflexivity|reflexivity..].
Defined.

(** ** The node type file *)

Lemma node_type_line_row row (node_type : gmap string string) :
  clean_node_row row ->
  node_type_line (node_type_row_line row +:+ newline) node_type
  = Ok (<[fst (fst row) := snd (fst row)]> node_type).
Proof.
  intros Hrow. unfold node_type_line, node_type_row_line. cbv zeta.
  rewrite py_split_strip.
  rewrite py_split_join; [|done|done|].
  2:{ right. eexists _, _. split; [reflexivity|done]. }
  change (py_split newline) with (@nil string). rewrite app_nil_r.
  change 1%Z with (Z.of_nat 1). change 0%Z with (Z.of_nat 0).
  rewrite !py_index_of_nat by (simpl; lia). done.
Qed.

Lemma py_lines_node_types rows tail :
  (forall row, In row rows -> clean_node_row row) ->
  py_lines (node_type_file rows +:+ tail)
  = map (fun row => node_type_row_line row +:+ newline) rows ++ py_lines tail.
Proof.
  induction rows as [|row rows IH]; intros Hclean; [done|].
  cbn [node_type_file map]. rewrite !string_app_assoc.
  rewrite py_lines_line by (apply no_eol_join, Hclean; simpl; auto).
  rewrite IH by (intros; apply Hclean; simpl; auto). done.
Qed.

Lemma for_each_node_types rows : forall node_type : gmap string string,
  (forall row, In row rows -> clean_node_row row) ->
  for_each (map (fun row => node_type_row_line row +:+ newline) rows)
    node_type_line node_type
  = Ok (fold_left (fun m row => <[fst (fst row) := snd (fst row)]> m) rows node_type).
Proof.
  induction rows as [|row rows IH]; intros node_type Hclean; [done|].
  cbn [map fold_left]. rewrite for_each_cons.
  rewrite node_type_line_row by (apply Hclean; simpl; auto).
  cbn [mbind result_bind]. apply IH. intros. apply Hclean. simpl. auto.
Qed.

Lemma fold_insert_lookup (rows : list (string * string * list string)) k :
  forall m : gmap string string,
  ~ In k (map (fun row => fst (fst row)) rows) ->
  fold_left (fun m row => <[fst (fst row) := snd (fst row)]> m) rows m !! k = m !! k.
Proof.
  induction rows as [|row rows IH]; intros m Hk; [done|].
  cbn [fold_left]. rewrite IH by (simpl in Hk; tauto).
  apply lookup_insert_ne. simpl in Hk. tauto.
Qed.

(** X21. On a file of lines [node type ...], [load_node_type] binds every
    node to the type of its last line: a later line for the same node
    overrides an earlier one, the fields after the second are ignored, and
    a node without a line has no type. *)
Theorem X21_load_node_type_last_line_wins
    (rows : list (string * string * list string)) :
  (forall row, In row rows -> clean_node_row row) ->
  exists node_type : gmap string string,
    load_node_type (node_type_file rows) = Ok node_type /\
    (forall before node type extra after,
       rows = before ++ (node, type, extra) :: after ->
       ~ In node (map (fun row => fst (fst row)) after) ->
       node_type !! node = Some type) /\
    (forall node, ~ In node (map (fun row => fst (fst row)) rows) ->
       node_type !! node = None).
Proof.
  intros Hclean.
  exists (fold_left (fun m row => <[fst (fst row) := snd (fst row)]> m) rows ∅).
  split; [|split].
  - unfold load_node_type.
    rewrite <- (string_app_nil_r (node_type_file rows)).
    rewrite py_lines_node_types by done. cbn [py_lines]. rewrite app_nil_r.
    by apply for_each_node_types.
  - intros before node type extra after -> Hlast.
    rewrite fold_left_app. cbn [fold_left fst snd].
    rewrite fold_insert_lookup by done. apply lookup_insert_eq.
  - intros node Hnode. rewrite fold_insert_lookup by done. apply lookup_empty.
Qed.

Lemma X21_witness :
  exists node_type : gmap string string,
    load_node_type
      (node_type_file [("a", "U", []); ("b", "I", ["x"]); ("a", "I", [])])
    = Ok node_type /\
    node_type !! "a" = Some "I".
Proof.
  destruct (X21_load_node_type_last_line_wins
              [("a", "U", []); ("b", "I", ["x"]); ("a", "I", [])])
    as (m & Hrun & Hlast & _).
  - intros row [<-|[<-|[<-|[]]]] t Ht; simpl in Ht;
      repeat (destruct Ht as [<-|Ht]; [split; [discriminate|reflexivity]|]);
      destruct Ht.
  - exists m. split; [exact Hrun|].
    apply (Hlast [("a", "U", []); ("b", "I", ["x"])] "a" "I" [] []); [reflexivity|].
    intros [].
Defined.

Lemma X15_witness :
  neighbors_input sample_network sample_vocab 3 ["t"] /\
  exists table st',
    generate_neighbors nat sample_next sample_network sample_vocab 3 ["t"] 3 0
    = Ok (table, st').
Proof.
  split; [exact sample_neighbors_input|].
  exact (proj2 (X15_generate_neighbors_returns_iff_input_is_indexed sample_next
                  sample_network sample_vocab 3 ["t"] 3 0) sample_neighbors_input).
Defined.

(** ** Counting words and pairs *)

Lemma list_sum_cons (x : nat) (l : list nat) : list_sum (x :: l) = x + list_sum l.
Proof. reflexivity. Qed.

Lemma sum_indicator_absent (l : list string) (t : string) :
  ~ In t l -> list_sum (map (fun w => if decide (t = w) then 1 else 0) l) = 0.
Proof.
  induction l as [|b l IH]; intros Ha; [done|].
  rewrite map_cons, list_sum_cons, IH by (intros H; apply Ha; by right).
  destruct (decide (t = b)) as [->|_]; [|done].
  exfalso. apply Ha. by left.
Qed.

Lemma sum_indicator (l : list string) (t : string) :
  List.NoDup l -> In t l ->
  list_sum (map (fun w => if decide (t = w) then 1 else 0) l) = 1.
Proof.
  induction l as [|a l IH]; intros Hnd Hin; [done|].
  inversion Hnd as [|? ? Ha Hnd']; subst. rewrite map_cons, list_sum_cons.
  destruct (decide (t = a)) as [->|Hne].
  - by rewrite sum_indicator_absent.
  - destruct Hin as [->|Hin]; [done|]. by rewrite IH.
Qed.

Lemma sum_occurrences (l toks : list string) :
  List.NoDup l -> (forall t, In t toks -> In t l) ->
  list_sum (map (fun w => occurrences w toks) l) = length toks.
Proof.
  intros Hnd. induction toks as [|t toks IH]; intros Hin.
  - clear. induction l as [|a l IH]; [done|].
    by rewrite map_cons, list_sum_cons, IH.
  - assert (E : list_sum (map (fun w => occurrences w (t :: toks)) l)
                = list_sum (map (fun w => if decide (t = w) then 1 else 0) l)
                  + list_sum (map (fun w => occurrences w toks) l)).
    { clear. induction l as [|a l IH]; [done|].
      rewrite !map_cons, !list_sum_cons, IH, occurrences_cons. lia. }
    rewrite E, sum_indicator, IH; [done| |done|].
    + intros t' Ht'. apply Hin. by right.
    + apply Hin. by left.
Qed.

(** X22. The counts of the vocabulary add up to the number of words read:
    summed over [index2word], the counts [generate_vocab] assigns equal the
    total number of tokens of all walks of all layers. *)
Theorem X22_counts_add_up_to_the_tokens (all_walks : list (list (list string))) :
  exists (vocab : gmap string Vocab) (index2word : list string),
    generate_vocab all_walks = Ok (vocab, index2word) /\
    list_sum (map (count_of vocab) index2word) = length (tokens all_walks).
Proof.
  destruct (generate_vocab_spec all_walks)
    as (vocab & i2w & Hrun & Hnd & Hmem & Hpos & _).
  exists vocab, i2w. split; [done|].
  rewrite <- (sum_occurrences i2w (tokens all_walks) Hnd).
  - f_equal. apply map_ext_in. intros w Hw.
    apply list_elem_of_In, list_elem_of_lookup in Hw as [i Hi].
    unfold count_of. by rewrite (Hpos i w Hi).
  - intros t Ht. by apply Hmem.
Qed.

Lemma window_pairs_at_length vocab layer walk i j :
  length (window_pairs_at vocab layer walk i j) <= 2.
Proof.
  unfold window_pairs_at. rewrite length_app.
  destruct (j <=? i), (i + j <? length walk),
    (walk !! i), (walk !! (i - j)), (walk !! (i + j)); simpl; lia.
Qed.

Lemma flat_map_length_bound {A B : Type} (f : A -> list B) (l : list A) (k : nat) :
  (forall x, In x l -> length (f x) <= k) -> length (flat_map f l) <= k * length l.
Proof.
  induction l as [|a l IH]; intros H; simpl; [lia|].
  rewrite length_app. pose proof (H a (or_introl eq_refl)).
  assert (length (flat_map f l) <= k * length l)
    by (apply IH; intros; apply H; simpl; auto).
  lia.
Qed.

Lemma window_pairs_of_walk_length vocab half layer walk :
  length (window_pairs_of_walk vocab half layer walk) <= 2 * half * length walk.
Proof.
  unfold window_pairs_of_walk.
  pose proof (flat_map_length_bound
                (fun i => flat_map (window_pairs_at vocab layer walk i) (seq 1 half))
                (seq 0 (length walk)) (2 * half)) as H.
  rewrite length_seq in H. apply H. intros i _.
  pose proof (flat_map_length_bound (window_pairs_at vocab layer walk i)
                (seq 1 half) 2) as H'.
  rewrite length_seq in H'. apply H'. intros j _. apply window_pairs_at_length.
Qed.

Lemma window_pairs_from_length vocab half all_walks (a : nat) :
  length (flat_map
            (fun '(layer, walks) => flat_map (window_pairs_of_walk vocab half layer) walks)
            (zip (seq a (length all_walks)) all_walks))
  <= 2 * half * length (tokens all_walks).
Proof.
  unfold tokens. revert a.
  induction all_walks as [|walks ws IH]; intros a; [simpl; lia|].
  cbn [length seq zip zip_with flat_map concat].
  rewrite !length_app. specialize (IH (S a)).
  assert (Hl : length (flat_map (window_pairs_of_walk vocab half a) walks)
               <= 2 * half * length (concat walks)).
  { clear. induction walks as [|walk walks IH]; [simpl; lia|].
    cbn [flat_map concat]. rewrite !length_app.
    pose proof (window_pairs_of_walk_length vocab half a walk). lia. }
  rewrite concat_app, length_app. lia.
Qed.

Lemma window_pairs_length vocab half all_walks :
  length (window_pairs vocab half all_walks) <= 2 * half * length (tokens all_walks).
Proof. apply window_pairs_from_length. Qed.

(** X23. [generate_pairs] emits at most 2 * (windowSize // 2) pairs per
    word of the walks. *)
Theorem X23_pairs_are_bounded_by_the_window (all_walks : list (list (list string)))
    (vocab : gmap string Vocab) (window_size num_workers : Z) :
  walks_in_vocab vocab all_walks ->
  exists pairs,
    generate_pairs all_walks vocab window_size num_workers = Ok pairs /\
    length pairs <= 2 * Z.to_nat (window_size / 2) * length (tokens all_walks).
Proof.
  intros Hv. eexists. split; [by apply generate_pairs_spec|].
  apply window_pairs_length.
Qed.

Lemma X23_witness :
  walks_in_vocab sample_vocab [[["a"; "b"; "c"]]] /\
  exists pairs,
    generate_pairs [[["a"; "b"; "c"]]] sample_vocab 2 16 = Ok pairs /\
    length pairs <= 2 * Z.to_nat (2 / 2) * length (tokens [[["a"; "b"; "c"]]]).
Proof.
  split; [exact sample_walk_in_vocab|].
  exact (X23_pairs_are_bounded_by_the_window [[["a"; "b"; "c"]]] sample_vocab 2 16
           sample_walk_in_vocab).
Defined.
